(** * inception.streams.multipart: the streaming multipart codec

    A shallow embedding of the byte-level boundary scanner
    (lib/multipart_byte_parser.js with its state object
    lib/multipart_byte_parser_state.js), of the part assembler
    (lib/multipart_parser.js), of the part descriptor (lib/part.js) and of
    the encoder (lib/multipart_streamer.js), followed by the properties of
    the specification that were checked against them.

    Conventions.  A byte is an integer in [0, 255], kept as [Z]; a Buffer is
    a [list Z]; JavaScript's [undefined] for an out-of-range read is [None].
    A string is the list of its UTF-16 code units; the texts that the code
    compares against are ASCII.  What the platform does (the encodings of
    Buffer, regular expressions, the order in which the event loop runs
    the listeners of a stream) is written out where the code depends on
    it, or is a parameter. *)

From Stdlib Require Import ZArith String Ascii List Bool Lia.
Import ListNotations.
Open Scope Z_scope.

(** ** Buffers and strings *)

Definition Buffer := list Z.

(** [buffer[i]]: the byte at [i], [undefined] outside the buffer. *)
Definition at_ (buffer : Buffer) (i : Z) : option Z :=
  if i <? 0 then None else nth_error buffer (Z.to_nat i).

(** [a.length] *)
Definition len {A : Type} (a : list A) : Z := Z.of_nat (length a).

(** [a === b] on possibly undefined bytes. *)
Definition same (a b : option Z) : bool :=
  match a, b with
  | Some x, Some y => x =? y
  | None, None => true
  | _, _ => false
  end.

Definition isc (a : option Z) (c : Z) : bool := same a (Some c).

(** [buffer.slice(start, end)]: both offsets are clamped to the buffer, a
    negative offset counts from the end. *)
Definition clamp (n i : Z) : Z :=
  if i <? 0 then Z.max (n + i) 0 else Z.min i n.

Definition slice (buffer : Buffer) (start end_ : Z) : Buffer :=
  let s := clamp (len buffer) start in
  let e := clamp (len buffer) end_ in
  firstn (Z.to_nat (e - s)) (skipn (Z.to_nat s) buffer).

(** [buffer[i] = v] on a fixed-size buffer: a write outside it is dropped,
    [undefined] is stored as 0. *)
Fixpoint set_nth (buffer : Buffer) (n : nat) (v : Z) : Buffer :=
  match buffer, n with
  | [], _ => []
  | _ :: t, O => v :: t
  | h :: t, S k => h :: set_nth t k v
  end.

Definition store (buffer : Buffer) (i : Z) (v : option Z) : Buffer :=
  if i <? 0 then buffer
  else set_nth buffer (Z.to_nat i) (match v with Some b => b | None => 0 end).

(** The character codes of a string literal. *)
Fixpoint str (s : string) : list Z :=
  match s with
  | EmptyString => []
  | String c t => Z.of_N (N_of_ascii c) :: str t
  end.

Definition list_eqb (a b : list Z) : bool :=
  if list_eq_dec Z.eq_dec a b then true else false.

(** ** Strings and Buffers: UTF-8

    A string that is written to a Buffer or to a stream is written as
    UTF-8, and [buffer.toString()] reads UTF-8. *)

Definition isHighSurrogate (c : Z) : bool := (55296 <=? c) && (c <=? 56319).
Definition isLowSurrogate (c : Z) : bool := (56320 <=? c) && (c <=? 57343).

(** The bytes of the code point [cp]. *)
Definition utf8_of (cp : Z) : list Z :=
  if cp <? 128 then [cp]
  else if cp <? 2048 then [192 + cp / 64; 128 + cp mod 64]
  else if cp <? 65536 then
    [224 + cp / 4096; 128 + (cp / 64) mod 64; 128 + cp mod 64]
  else
    [240 + cp / 262144; 128 + (cp / 4096) mod 64; 128 + (cp / 64) mod 64;
     128 + cp mod 64].

(** The characters of a string, each as its bytes: two surrogates that
    make a pair are one character, a surrogate alone is written as
    U+FFFD. *)
Fixpoint utf8_chars (s : list Z) : list (list Z) :=
  match s with
  | [] => []
  | c :: t =>
      if isHighSurrogate c then
        match t with
        | d :: t' =>
            if isLowSurrogate d
            then utf8_of (65536 + (c - 55296) * 1024 + (d - 56320))
                 :: utf8_chars t'
            else utf8_of 65533 :: utf8_chars t
        | [] => [utf8_of 65533]
        end
      else if isLowSurrogate c then utf8_of 65533 :: utf8_chars t
      else utf8_of c :: utf8_chars t
  end.

(** [Buffer.from(s, 'utf8')], and what a stream is given when a string
    is written to it. *)
Definition utf8 (s : list Z) : Buffer := concat (utf8_chars s).

(** The characters that have room in [room] bytes: a character that
    has not is not written in part, and nothing is written after it. *)
Fixpoint fitting (room : Z) (chars : list (list Z)) : list Z :=
  match chars with
  | [] => []
  | ch :: rest =>
      if len ch <=? room then ch ++ fitting (room - len ch) rest else []
  end.

(** [buffer.write(s, offset)], for an offset within the buffer. *)
Definition write_at (buffer : Buffer) (s : list Z) (offset : Z) : Buffer :=
  let bytes := fitting (len buffer - offset) (utf8_chars s) in
  firstn (Z.to_nat offset) buffer ++ bytes
  ++ skipn (Z.to_nat (offset + len bytes)) buffer.

(** [new Buffer(size)]: its bytes are zeros (from version 8 of the
    platform on; before, they are what the memory holds). *)
Definition alloc (size : Z) : Buffer := repeat 0 (Z.to_nat size).

(** What [buffer.toString('utf8')] does at the first byte of a
    character: the code point so far, the number of bytes that must
    follow, the bounds of the next byte, and what is given out at once (the
    character of one byte, or U+FFFD for a byte that begins none). *)
Definition utf8_lead (b : Z) : Z * Z * Z * Z * list Z :=
  if b <? 128 then (0, 0, 128, 191, [b])
  else if (194 <=? b) && (b <=? 223) then (b - 192, 1, 128, 191, [])
  else if (224 <=? b) && (b <=? 239) then
    (b - 224, 2, (if b =? 224 then 160 else 128),
     (if b =? 237 then 159 else 191), [])
  else if (240 <=? b) && (b <=? 244) then
    (b - 240, 3, (if b =? 240 then 144 else 128),
     (if b =? 244 then 143 else 191), [])
  else (0, 0, 128, 191, [65533]).

(** The code points of the bytes: a byte that cannot go on the
    character that has been begun ends it with U+FFFD and is read again as
    a first byte; so does the end of the bytes. *)
Fixpoint utf8_points (bytes : list Z) (cp need lo hi : Z) : list Z :=
  match bytes with
  | [] => if need =? 0 then [] else [65533]
  | b :: rest =>
      if need =? 0 then
        let '(cp', need', lo', hi', out) := utf8_lead b in
        out ++ utf8_points rest cp' need' lo' hi'
      else if (lo <=? b) && (b <=? hi) then
        let cp := cp * 64 + (b - 128) in
        if need =? 1 then cp :: utf8_points rest 0 0 128 191
        else utf8_points rest cp (need - 1) 128 191
      else
        let '(cp', need', lo', hi', out) := utf8_lead b in
        65533 :: out ++ utf8_points rest cp' need' lo' hi'
  end.

(** The code units of a code point. *)
Definition utf16_of (cp : Z) : list Z :=
  if cp <? 65536 then [cp]
  else [55296 + (cp - 65536) / 1024; 56320 + (cp - 65536) mod 1024].

(** ** lib/multipart_byte_parser.js: CHARS *)

Module CHARS.
Definition A : Z := 97.
Definition Z_ : Z := 122.
Definition CR : Z := 13.
Definition LF : Z := 10.
Definition COLON : Z := 58.
Definition SPACE : Z := 32.
Definition HYPHEN : Z := 45.
Definition lower (byte : Z) : Z := Z.lor byte 32.
End CHARS.

(** lodash's [_.inRange(number, start, end)]: [start] included, [end]
    excluded (the bounds are swapped when [start > end]). *)
Definition inRange (number start end_ : Z) : bool :=
  (Z.min start end_ <=? number) && (number <? Z.max start end_).

(** ** lib/multipart_byte_parser_state.js *)

Module MultipartByteParserState.

Module STATES.
Inductive t : Set :=
| INITIALIZED | BOUNDARY | HEADER_NAME_START | HEADER_NAME
| HEADER_VALUE_START | HEADER_VALUE | HEADER_VALUE_END | HEADERS_END
| PART_DATA_START | PART_DATA | END.

Definition eqb (a b : t) : bool :=
  match a, b with
  | INITIALIZED, INITIALIZED | BOUNDARY, BOUNDARY
  | HEADER_NAME_START, HEADER_NAME_START | HEADER_NAME, HEADER_NAME
  | HEADER_VALUE_START, HEADER_VALUE_START | HEADER_VALUE, HEADER_VALUE
  | HEADER_VALUE_END, HEADER_VALUE_END | HEADERS_END, HEADERS_END
  | PART_DATA_START, PART_DATA_START | PART_DATA, PART_DATA
  | END, END => true
  | _, _ => false
  end.
End STATES.

Module FLAGS.
Definition PART_BOUNDARY : Z := 1.
Definition FINAL_BOUNDARY : Z := 2.
End FLAGS.

(** The names under which the scanner records positions: the three
    events that carry bytes. *)
Inductive marker : Set := headerName_ | headerValue_ | partData_.

(** The [markers] object; an absent key is [None]. *)
Record Markers : Set := {
  m_headerName : option Z;
  m_headerValue : option Z;
  m_partData : option Z
}.

Record t : Set := {
  state : STATES.t;
  error : bool;
  flags : Z;
  index : Z;
  lookbehind : Buffer;
  markers : Markers
}.

(** [new MultipartByteParserState(boundaryLength)] *)
Definition new (boundaryLength : Z) : t :=
  {| state := STATES.INITIALIZED;
     error := false;
     flags := 0;
     index := 0;
     lookbehind := repeat 0 (Z.to_nat (boundaryLength + 8));
     markers := {| m_headerName := None; m_headerValue := None;
                   m_partData := None |} |}.

Definition hasErrored (s : t) : bool := error s.
Definition isPartBoundary (s : t) : bool :=
  negb (Z.land (flags s) FLAGS.PART_BOUNDARY =? 0).
Definition isFinalBoundary (s : t) : bool :=
  negb (Z.land (flags s) FLAGS.FINAL_BOUNDARY =? 0).

Definition set_markers (s : t) (m : Markers) : t :=
  {| state := state s; error := error s; flags := flags s;
     index := index s; lookbehind := lookbehind s; markers := m |}.

Definition put (m : Markers) (k : marker) (v : option Z) : Markers :=
  match k with
  | headerName_ => {| m_headerName := v; m_headerValue := m_headerValue m;
                      m_partData := m_partData m |}
  | headerValue_ => {| m_headerName := m_headerName m; m_headerValue := v;
                       m_partData := m_partData m |}
  | partData_ => {| m_headerName := m_headerName m;
                    m_headerValue := m_headerValue m; m_partData := v |}
  end.

Definition mark (s : t) (k : marker) (pos : Z) : t :=
  set_markers s (put (markers s) k (Some pos)).

Definition clear (s : t) (k : marker) : t :=
  set_markers s (put (markers s) k None).

Definition getMarker (s : t) (k : marker) : option Z :=
  match k with
  | headerName_ => m_headerName (markers s)
  | headerValue_ => m_headerValue (markers s)
  | partData_ => m_partData (markers s)
  end.

Definition setErrored (s : t) : t :=
  {| state := state s; error := true; flags := flags s;
     index := index s; lookbehind := lookbehind s; markers := markers s |}.

Definition updateState (s : t) (st : STATES.t) : t :=
  {| state := st; error := error s; flags := flags s;
     index := index s; lookbehind := lookbehind s; markers := markers s |}.

Definition set_flags (s : t) (f : Z) : t :=
  {| state := state s; error := error s; flags := f;
     index := index s; lookbehind := lookbehind s; markers := markers s |}.

Definition setFlags (s : t) (f : Z) : t := set_flags s (Z.lor (flags s) f).
Definition unsetFlags (s : t) (f : Z) : t :=
  set_flags s (Z.land (flags s) (Z.lnot f)).
Definition resetFlags (s : t) : t := set_flags s 0.

(** [state.index = i] *)
Definition set_index (s : t) (i : Z) : t :=
  {| state := state s; error := error s; flags := flags s;
     index := i; lookbehind := lookbehind s; markers := markers s |}.

(** [state.lookbehind[i] = v] *)
Definition set_lookbehind (s : t) (i : Z) (v : option Z) : t :=
  {| state := state s; error := error s; flags := flags s;
     index := index s; lookbehind := store (lookbehind s) i v;
     markers := markers s |}.

End MultipartByteParserState.

(** ** lib/multipart_error.js *)

Inductive MultipartError : Set :=
| BadContentType
| ParseError (msg : string)
| UnsupportedEncoding
| TooManyParts
| PartTooLarge
| MessageTooLarge
| Unexpected.

(** ** lib/multipart_byte_parser.js *)

Module MultipartByteParser.
Import MultipartByteParserState.

(** What the scanner emits while it reads a chunk.  The three events
    that carry bytes hold the bytes of the slice at the time of the
    emission. *)
Inductive event : Set :=
| partBegin
| headerName (bytes : Buffer)
| headerValue (bytes : Buffer)
| headersEnd
| partData (bytes : Buffer)
| partEnd.

Definition data_event (k : marker) (bytes : Buffer) : event :=
  match k with
  | headerName_ => headerName bytes
  | headerValue_ => headerValue bytes
  | partData_ => partData bytes
  end.

(** The parser object: its two properties and its state. *)
Record t : Set := {
  boundary : Buffer;
  boundaryChars : list Z;
  _state : MultipartByteParserState.t
}.

(** [_constructBoundary(boundary)]: a Buffer of four bytes more than
    the string has code units, with CR LF - - written at 0 and the
    boundary at 4.  A boundary of ASCII characters fills the Buffer; of
    another one the characters that have no room are left out. *)
Definition _constructBoundary (b : list Z) : Buffer :=
  let boundaryBuffer := alloc (len b + 4) in
  let boundaryBuffer :=
    write_at boundaryBuffer (str (String "013" (String "010" "--"))) 0 in
  write_at boundaryBuffer b 4.

(** [_getBoundaryChars(boundary)]: the keys of the map. *)
Definition _getBoundaryChars (b : Buffer) : list Z := b.

(** [chunk[curPos] in BOUNDARY_CHARS] *)
Definition in_chars (c : option Z) (chars : list Z) : bool :=
  match c with
  | Some b => existsb (Z.eqb b) chars
  | None => false
  end.

(** [new MultipartByteParser({ boundary })] with the boundary given as a
    string, as the assembler gives it. *)
Definition new (b : list Z) : t :=
  let B := _constructBoundary b in
  {| boundary := B;
     boundaryChars := _getBoundaryChars B;
     _state := MultipartByteParserState.new (len B) |}.

(** The closure [emit(event)] of [_transform] for an event without
    bytes is the event itself; [emit(event, buffer, start, end,
    resetMarker)] is [emit]: nothing happens unless [start] is a
    position before [end]. *)
Definition emit (state : MultipartByteParserState.t) (k : marker)
    (buffer : Buffer) (start : option Z) (end_ : Z) (resetMarker : bool)
    : MultipartByteParserState.t * list event :=
  match start with
  | Some s =>
      if s <? end_ then
        (if resetMarker then mark state k 0 else clear state k,
         [data_event k (slice buffer s end_)])
      else (state, [])
  | None => (state, [])
  end.

(** The test of the case HEADER_NAME on the current byte:
    [_.inRange(lowByte, CHARS.A, CHARS.Z) || curByte === CHARS.HYPHEN]
    with [lowByte = CHARS.lower(curByte)]. *)
Definition name_byte (curByte : option Z) : bool :=
  let lowByte := option_map CHARS.lower curByte in
  match lowByte with
  | Some l => inRange l CHARS.A CHARS.Z_
  | None => false
  end || isc curByte CHARS.HYPHEN.

(** One pass through the body of the [for] loop: the loop goes on at
    [curPos + 1] ([break]), or [_transform] returns through [done()] or
    [done(metadata)], or the [while] loop of the quick scan does not
    end. *)
Inductive outcome : Set :=
| Break (state : MultipartByteParserState.t) (curPos : Z) (evs : list event)
| Done (state : MultipartByteParserState.t) (evs : list event)
| Raise (state : MultipartByteParserState.t) (evs : list event) (msg : string)
| Hang.

Section Transform.
Variable BOUNDARY : Buffer.
Variable BOUNDARY_CHARS : list Z.
Variable chunk : Buffer.

Let BOUNDARY_LENGTH : Z := len BOUNDARY.
Let BUFFER_LENGTH : Z := len chunk.

Definition case_BOUNDARY (state : MultipartByteParserState.t)
    (curPos : Z) (curByte : option Z) : outcome :=
  if index state =? BOUNDARY_LENGTH - 2 then
    if isc curByte CHARS.HYPHEN then
      let state := setFlags state FLAGS.FINAL_BOUNDARY in
      Break (set_index state (index state + 1)) curPos []
    else if isc curByte CHARS.CR then
      Break (set_index state (index state + 1)) curPos []
    else
      Raise state []
        "Multipart message boundary not followed by -- or <CR><LF>!"
  else if index state =? BOUNDARY_LENGTH - 1 then
    if isFinalBoundary state && isc curByte CHARS.HYPHEN then
      Break (updateState (resetFlags state) STATES.END) curPos []
    else if negb (isFinalBoundary state) && isc curByte CHARS.LF then
      Break (updateState state STATES.HEADER_NAME_START) curPos [partBegin]
    else
      Raise state []
        "Multipart message boundary not followed by -- or <CR><LF>!"
  else
    let state :=
      if negb (same curByte (at_ BOUNDARY (index state + 2)))
      then set_index state (-2) else state in
    let state :=
      if same curByte (at_ BOUNDARY (index state + 2))
      then set_index state (index state + 1) else state in
    Break state curPos [].

Definition case_HEADER_NAME (state : MultipartByteParserState.t)
    (curPos : Z) (curByte : option Z) : outcome :=
  if name_byte curByte then
    Break (set_index state (index state + 1)) curPos []
  else if isc curByte CHARS.COLON then
    if negb (index state =? 0) then
      let '(state, evs) :=
        emit state headerName_ chunk (getMarker state headerName_)
          curPos false in
      Break (updateState state STATES.HEADER_VALUE_START) curPos evs
    else Raise state [] "Empty header name!"
  else if isc curByte CHARS.CR then
    Break (updateState (clear state headerName_) STATES.HEADERS_END) curPos []
  else Raise state [] "Invalid character found parsing header field name!".

Definition case_HEADER_VALUE (state : MultipartByteParserState.t)
    (curPos : Z) (curByte : option Z) : outcome :=
  if isc curByte CHARS.CR then
    let '(state, evs) :=
      emit state headerValue_ chunk (getMarker state headerValue_)
        curPos false in
    Break (updateState state STATES.HEADER_VALUE_END) curPos evs
  else Break state curPos [].

(** The [while] loop of the quick scan: [curPos] moves on by the
    length of the boundary until it leaves the chunk or meets a byte
    of the boundary.  With a boundary that is not empty it runs at most
    once per byte of the chunk; [None] when it has not ended after [fuel]
    rounds, which is so for every [fuel] when the boundary is empty and
    the loop begins. *)
Fixpoint quick_scan (fuel : nat) (curPos : Z) : option Z :=
  match fuel with
  | O => None
  | S fuel =>
      if (curPos <? BUFFER_LENGTH)
         && negb (in_chars (at_ chunk curPos) BOUNDARY_CHARS)
      then quick_scan fuel (curPos + BOUNDARY_LENGTH)
      else Some curPos
  end.

(** The case PART_DATA after the quick scan. *)
Definition after_quick_scan (state : MultipartByteParserState.t)
    (prevIndex : Z) (curPos : Z) (curByte : option Z) : outcome :=
  (* [matched]: the part boundary was found, [break] leaves the switch *)
  let '(state, evs, matched) :=
    if index state <? BOUNDARY_LENGTH then
      if same curByte (at_ BOUNDARY (index state)) then
        let '(state, evs) :=
          if index state =? 0 then
            emit state partData_ chunk (getMarker state partData_)
              curPos false
          else (state, []) in
        (set_index state (index state + 1), evs, false)
      else (set_index state 0, [], false)
    else if index state =? BOUNDARY_LENGTH then
      let state := set_index state (index state + 1) in
      if isc curByte CHARS.CR then
        (setFlags state FLAGS.PART_BOUNDARY, [], false)
      else if isc curByte CHARS.HYPHEN then
        (setFlags state FLAGS.FINAL_BOUNDARY, [], false)
      else (set_index state 0, [], false)
    else if index state - 1 =? BOUNDARY_LENGTH then
      if isPartBoundary state then
        let state := set_index state 0 in
        if isc curByte CHARS.LF then
          (updateState (unsetFlags state FLAGS.PART_BOUNDARY)
             STATES.HEADER_NAME_START, [partEnd; partBegin], true)
        else (state, [], false)
      else if isFinalBoundary state then
        if isc curByte CHARS.HYPHEN then
          (resetFlags (updateState state STATES.END), [partEnd], false)
        else (set_index state 0, [], false)
      else (set_index state 0, [], false)
    else (state, [], false) in
  if matched then Break state curPos evs
  else if index state >? 0 then
    Break (set_lookbehind state (index state - 1) curByte) curPos evs
  else if prevIndex >? 0 then
    let '(state, evs') :=
      emit state partData_ (lookbehind state) (Some 0) prevIndex false in
    (* Reconsider the current character as it could be a boundary start *)
    Break (mark state partData_ curPos) (curPos - 1) (evs ++ evs')
  else Break state curPos evs.

Definition case_PART_DATA (state : MultipartByteParserState.t)
    (curPos : Z) (curByte : option Z) : outcome :=
  let prevIndex := index state in
  (* Quickly scan the remainder of the buffer for a possible boundary *)
  if index state =? 0 then
    let curPos := curPos + (BOUNDARY_LENGTH - 1) in
    match quick_scan (S (length chunk)) curPos with
    | Some curPos =>
        let curPos := curPos - (BOUNDARY_LENGTH - 1) in
        after_quick_scan state prevIndex curPos (at_ chunk curPos)
    | None => Hang
    end
  else after_quick_scan state prevIndex curPos curByte.

(** The [switch] on [state.state], with its fall-throughs. *)
Definition step (state : MultipartByteParserState.t) (curPos : Z)
    : outcome :=
  let curByte := at_ chunk curPos in
  match MultipartByteParserState.state state with
  | STATES.INITIALIZED =>
      case_BOUNDARY (updateState (set_index state 0) STATES.BOUNDARY)
        curPos curByte
  | STATES.BOUNDARY => case_BOUNDARY state curPos curByte
  | STATES.HEADER_NAME_START =>
      case_HEADER_NAME
        (updateState (mark (set_index state 0) headerName_ curPos)
           STATES.HEADER_NAME)
        curPos curByte
  | STATES.HEADER_NAME => case_HEADER_NAME state curPos curByte
  | STATES.HEADER_VALUE_START =>
      if isc curByte CHARS.SPACE then Break state curPos []
      else
        case_HEADER_VALUE
          (updateState (mark state headerValue_ curPos) STATES.HEADER_VALUE)
          curPos curByte
  | STATES.HEADER_VALUE => case_HEADER_VALUE state curPos curByte
  | STATES.HEADER_VALUE_END =>
      if negb (isc curByte CHARS.LF) then
        Raise state [] "Header value not followed by <CR><LF>!"
      else Break (updateState state STATES.HEADER_NAME_START) curPos []
  | STATES.HEADERS_END =>
      if negb (isc curByte CHARS.LF) then
        Raise state [] "Headers not followed by <CR><LF>!"
      else Break (updateState state STATES.PART_DATA_START) curPos [headersEnd]
  | STATES.PART_DATA_START =>
      case_PART_DATA
        (updateState (mark state partData_ curPos) STATES.PART_DATA)
        curPos curByte
  | STATES.PART_DATA => case_PART_DATA state curPos curByte
  | STATES.END => Done state []
  end.

(** The three [emit]s after the loop: a span that is still open is
    sent up to the end of the chunk and marked again at 0. *)
Definition flush (state : MultipartByteParserState.t) (curPos : Z)
    : MultipartByteParserState.t * list event :=
  let '(state, e1) :=
    emit state headerName_ chunk (getMarker state headerName_)
      curPos true in
  let '(state, e2) :=
    emit state headerValue_ chunk (getMarker state headerValue_)
      curPos true in
  let '(state, e3) :=
    if negb (STATES.eqb (MultipartByteParserState.state state) STATES.PART_DATA)
       || (index state =? 0)
    then emit state partData_ chunk (getMarker state partData_)
           curPos true
    else (state, []) in
  (state, e1 ++ e2 ++ e3).

(** The [for] loop and what follows it.  The result is the state, the
    events in the order of their emission and the error given to
    [next]; [None] when [_transform] does not return: the quick scan does
    not end, or [fuel] passes ran out. *)
Fixpoint loop (fuel : nat) (state : MultipartByteParserState.t)
    (curPos : Z) (acc : list event)
    : option (MultipartByteParserState.t * list event
              * option MultipartError) :=
  if curPos <? BUFFER_LENGTH then
    match fuel with
    | O => None
    | S fuel =>
        match step state curPos with
        | Break state curPos evs =>
            loop fuel state (curPos + 1) (acc ++ evs)
        | Done state evs => Some (state, acc ++ evs, None)
        | Raise state evs msg =>
            Some (setErrored state, acc ++ evs, Some (ParseError msg))
        | Hang => None
        end
    end
  else
    let '(state, evs) := flush state curPos in
    Some (state, acc ++ evs, None).

End Transform.

(** [_transform(chunk, encoding, next)].  A byte is looked at at most
    twice (once more after a boundary candidate has failed), which bounds
    the passes of the loop; [None] when the call does not return. *)
Definition _transform (this : t) (chunk : Buffer)
    : option (t * list event * option MultipartError) :=
  let state := _state this in
  (* Early exit if the stream has errored out *)
  if hasErrored state then Some (this, [], None)
  else
    match loop (boundary this) (boundaryChars this) chunk
            (2 * length chunk + 1) state 0 [] with
    | Some (state, evs, err) =>
        Some ({| boundary := boundary this;
                 boundaryChars := boundaryChars this;
                 _state := state |}, evs, err)
    | None => None
    end.

(** What the parser tells its listeners when the input has ended. *)
Inductive signal : Set :=
| end_
| error_ (err : MultipartError).

(** The listener of ['finish'] installed by the constructor. *)
Definition finish (this : t) : t * signal :=
  if negb (STATES.eqb (state (_state this)) STATES.END) then
    ({| boundary := boundary this;
        boundaryChars := boundaryChars this;
        _state := setErrored (_state this) |},
     error_ (ParseError "Unexpected end of multipart message!"))
  else (this, end_).

End MultipartByteParser.

(** ** JavaScript values and strings used by the assembler *)

(** A parsed JSON text; [{}] is [JObject []]. *)
#[local] Unset Elimination Schemes.
Inductive json : Set :=
| JNull
| JBool (b : bool)
| JNumber (n : Z)
| JString (s : list Z)
| JArray (items : list json)
| JObject (members : list (list Z * json)).
#[local] Set Elimination Schemes.

(** [chunk.toString('utf8')], and [chunk.toString()]: the code units of
    the code points that the bytes give. *)
Definition toString_utf8 (chunk : Buffer) : list Z :=
  flat_map utf16_of (utf8_points chunk 0 0 128 191).

(** A text of ASCII characters; its bytes in UTF-8 are its code units,
    and what the platform does to its letters does not depend on the
    locale or on the tables of Unicode. *)
Definition ascii_only (s : list Z) : Prop := Forall (fun c => 0 <= c < 128) s.

(** The letters A to Z made small. *)
Definition ascii_lower (s : list Z) : list Z :=
  map (fun c => if (65 <=? c) && (c <=? 90) then c + 32 else c) s.

(** [chunk.toString('ascii')]: the high bit of every byte is dropped. *)
Definition toString_ascii (chunk : Buffer) : list Z :=
  map (fun b => Z.land b 127) chunk.

Fixpoint starts_with (sub s : list Z) : bool :=
  match sub, s with
  | [], _ => true
  | _ :: _, [] => false
  | a :: sub, b :: s => (a =? b) && starts_with sub s
  end.

(** [s.indexOf(sub)], counted from [from]; -1 when [sub] does not occur. *)
Fixpoint indexOf_from (from : Z) (s sub : list Z) : Z :=
  if starts_with sub s then from
  else match s with
       | [] => -1
       | _ :: t => indexOf_from (from + 1) t sub
       end.

Definition indexOf (s sub : list Z) : Z := indexOf_from 0 s sub.

(** [x || null] on an optional string: the empty string is falsy. *)
Definition or_null (x : option (list Z)) : option (list Z) :=
  match x with
  | Some [] => None
  | _ => x
  end.

(** [v || null] on a value: [null], [false], 0 and the empty string are
    falsy. *)
Definition value_or_null (v : json) : json :=
  match v with
  | JBool false | JNumber 0 | JString [] => JNull
  | _ => v
  end.

(** ToInt32, applied by [>>] and [<<] to their operands and result. *)
Definition int32 (n : Z) : Z := (n + 2 ^ 31) mod 2 ^ 32 - 2 ^ 31.
Definition sar (n k : Z) : Z := int32 (Z.shiftr (int32 n) k).
Definition shl (n k : Z) : Z := int32 (Z.shiftl (int32 n) k).

(** An object used as a map from header names to values: assigning to a
    name that is present replaces its value in place, a new name goes to
    the end. *)
Fixpoint assign (o : list (list Z * list Z)) (k v : list Z)
    : list (list Z * list Z) :=
  match o with
  | [] => [(k, v)]
  | (k', v') :: rest =>
      if list_eqb k k' then (k, v) :: rest else (k', v') :: assign rest k v
  end.

(** A handler returns, or it throws an exception of the platform (a
    property read on [null] or [undefined]), or the run leaves what this
    model follows: [Unfollowed].  That is so when a handler writes to a
    stream that has ended: the call returns and the stream reports an
    error to its own listeners of ['error'], at once or on a later turn of
    the event loop and with or without destroying the stream, depending on
    the version of the platform.  It is so too when the scanner does not
    return from a chunk. *)
Inductive result (A : Type) : Type :=
| Ok (a : A)
| Throws (what : string)
| Unfollowed (what : string).
Arguments Ok {A} a.
Arguments Throws {A} what.
Arguments Unfollowed {A} what.

(** ** lib/part.js *)

Module Part.

Module TYPES.
Inductive t : Set := FIELD | OBJECT | STREAM.
Definition eqb (a b : t) : bool :=
  match a, b with
  | FIELD, FIELD | OBJECT, OBJECT | STREAM, STREAM => true
  | _, _ => false
  end.
End TYPES.

(** The options of the constructor. *)
Record opts : Set := {
  o_type : option TYPES.t;
  o_value : json;
  o_name : option (list Z);
  o_filename : option (list Z);
  o_transferEncoding : option (list Z);
  o_contentType : option (list Z);
  o_contentId : option (list Z);
  o_headers : option (list (list Z * list Z))
}.

(** A part: its properties, and of the stream it is, the chunks written
    to it so far and whether it has been ended. *)
Record t : Set := {
  type : TYPES.t;
  value : json;
  name : option (list Z);
  filename : option (list Z);
  transferEncoding : option (list Z);
  contentType : option (list Z);
  contentId : option (list Z);
  headers : list (list Z * list Z);
  written : list Buffer;
  ended : bool
}.

(** [new Part(opts)] *)
Definition new (o : opts) : t :=
  let type :=
    match o_type o with
    | Some ty => ty
    | None =>
        if match o_contentType o with
           | Some ct => indexOf ct (str "/json") >=? 0
           | None => false
           end
        then TYPES.OBJECT
        else
          match o_name o, o_filename o with
          | Some _, None => TYPES.FIELD
          | _, _ => TYPES.STREAM
          end
    end in
  {| type := type;
     value := value_or_null (o_value o);
     name := or_null (o_name o);
     filename := or_null (o_filename o);
     transferEncoding := or_null (o_transferEncoding o);
     contentType := or_null (o_contentType o);
     contentId := or_null (o_contentId o);
     headers := match o_headers o with Some h => h | None => [] end;
     written := [];
     ended := false |}.

(** [part.id]: the prototype of [Part] defines [type], [value], [name],
    [filename], [transferEncoding], [contentType], [contentId] and
    [headers]; there is no [id], so the read gives [undefined]. *)
Definition id (p : t) : option (list Z) := None.

Definition set_value (p : t) (v : json) : t :=
  {| type := type p; value := v; name := name p; filename := filename p;
     transferEncoding := transferEncoding p; contentType := contentType p;
     contentId := contentId p; headers := headers p;
     written := written p; ended := ended p |}.

Definition set_headers (p : t) (h : list (list Z * list Z)) : t :=
  {| type := type p; value := value p; name := name p;
     filename := filename p;
     transferEncoding := transferEncoding p; contentType := contentType p;
     contentId := contentId p; headers := h;
     written := written p; ended := ended p |}.

(** [part.write(buf)]; [None] when the part has been ended: the
    write is refused. *)
Definition write (p : t) (buf : Buffer) : option t :=
  if ended p then None
  else Some {| type := type p; value := value p; name := name p;
               filename := filename p;
               transferEncoding := transferEncoding p;
               contentType := contentType p; contentId := contentId p;
               headers := headers p;
               written := written p ++ [buf]; ended := false |}.

(** [part.end(buf)]: [buf], when given, is written first.  On a part
    that has been ended the call does nothing when no [buf] is given, and
    the write of [buf] is refused: [None]. *)
Definition end_ (p : t) (buf : option Buffer) : option t :=
  if ended p then
    match buf with
    | Some _ => None
    | None => Some p
    end
  else Some {| type := type p; value := value p; name := name p;
               filename := filename p;
               transferEncoding := transferEncoding p;
               contentType := contentType p; contentId := contentId p;
               headers := headers p;
               written := match buf with
                          | Some b => written p ++ [b]
                          | None => written p
                          end;
               ended := true |}.

End Part.

(** ** lib/multipart_parser.js *)

Module MultipartParser.

(** The part whose headers are being read ([_curPartState]).  A number
    that may be [undefined] or [NaN] is [None]; so is a string that may
    be [undefined]. *)
Record PartState : Set := {
  name : option (list Z);
  filename : option (list Z);
  contentId : option (list Z);
  contentType : option (list Z);
  transferEncoding : list Z;
  headers : list (list Z * list Z);
  _headerName : option (list Z);
  partSize : option Z;
  tmp : option (list Z)
}.

(** What the listeners of the assembler observe: a part, named by its
    position in [parts] (the listener holds the object that the
    assembler goes on writing to), an error, or the ['finish'] of the
    Writable that the assembler is. *)
Inductive output : Set :=
| part (i : nat)
| error (err : MultipartError)
| finish.

(** The assembler.  [ending] is not a property of the object: it is
    what the event loop of the platform holds for it, the parts that have
    been ended and on which [handlePart] has put a listener of ['end'],
    in the order in which they were ended.  A stream emits ['end'] on a
    later turn of the event loop, not while [end()] runs. *)
Record t : Set := {
  maxParts : Z;
  maxPartSize : Z;
  maxTotalSize : Z;
  boundary : list Z;
  parts : list Part.t;
  _byteParser : option MultipartByteParser.t;
  _curPartState : option PartState;
  _totalSize : Z;
  _error : bool;
  ending : list nat
}.

(** [x || d] on a number: 0 is falsy. *)
Definition or_default (x : option Z) (d : Z) : Z :=
  match x with
  | Some 0 | None => d
  | Some n => n
  end.

(** [new MultipartParser(opts)] with [opts.boundary] given; the empty
    string is falsy, and leaves the assembler without a scanner. *)
Definition new (o_maxParts o_maxPartSize o_maxTotalSize : option Z)
    (o_boundary : list Z) : t :=
  {| maxParts := or_default o_maxParts 10;
     maxPartSize := or_default o_maxPartSize (10 * 1024 * 1024);
     maxTotalSize := or_default o_maxTotalSize (100 * 1024 * 1024);
     boundary := o_boundary;
     parts := [];
     _byteParser := match o_boundary with
                    | [] => None
                    | _ => Some (MultipartByteParser.new o_boundary)
                    end;
     _curPartState := None;
     _totalSize := 0;
     _error := false;
     ending := [] |}.

Definition set_curPartState (this : t) (c : option PartState) : t :=
  {| maxParts := maxParts this; maxPartSize := maxPartSize this;
     maxTotalSize := maxTotalSize this; boundary := boundary this;
     parts := parts this; _byteParser := _byteParser this;
     _curPartState := c; _totalSize := _totalSize this;
     _error := _error this; ending := ending this |}.

Definition set_parts (this : t) (ps : list Part.t) : t :=
  {| maxParts := maxParts this; maxPartSize := maxPartSize this;
     maxTotalSize := maxTotalSize this; boundary := boundary this;
     parts := ps; _byteParser := _byteParser this;
     _curPartState := _curPartState this; _totalSize := _totalSize this;
     _error := _error this; ending := ending this |}.

Definition set_totalSize (this : t) (n : Z) : t :=
  {| maxParts := maxParts this; maxPartSize := maxPartSize this;
     maxTotalSize := maxTotalSize this; boundary := boundary this;
     parts := parts this; _byteParser := _byteParser this;
     _curPartState := _curPartState this; _totalSize := n;
     _error := _error this; ending := ending this |}.

Definition set_ending (this : t) (due : list nat) : t :=
  {| maxParts := maxParts this; maxPartSize := maxPartSize this;
     maxTotalSize := maxTotalSize this; boundary := boundary this;
     parts := parts this; _byteParser := _byteParser this;
     _curPartState := _curPartState this; _totalSize := _totalSize this;
     _error := _error this; ending := due |}.

Definition set_byteParser (this : t) (p : option MultipartByteParser.t)
    : t :=
  {| maxParts := maxParts this; maxPartSize := maxPartSize this;
     maxTotalSize := maxTotalSize this; boundary := boundary this;
     parts := parts this; _byteParser := p;
     _curPartState := _curPartState this; _totalSize := _totalSize this;
     _error := _error this; ending := ending this |}.

(** [this._curPart]: the last of [parts], [null] when there is none. *)
Definition _curPart (this : t) : option Part.t := last (map Some (parts this)) None.

(** [parts[parts.length - 1] = p] *)
Definition set_curPart (this : t) (p : Part.t) : t :=
  set_parts this (removelast (parts this) ++ [p]).

(** [parts[i] = p], for a part that a listener holds. *)
Fixpoint replace_nth (ps : list Part.t) (i : nat) (p : Part.t)
    : list Part.t :=
  match ps, i with
  | [], _ => []
  | _ :: t, O => p :: t
  | h :: t, S k => h :: replace_nth t k p
  end.

Definition set_part (this : t) (i : nat) (p : Part.t) : t :=
  set_parts this (replace_nth (parts this) i p).

(** [_emitError(err)] *)
Definition _emitError (this : t) (err : MultipartError) : t * list output :=
  ({| maxParts := maxParts this; maxPartSize := maxPartSize this;
      maxTotalSize := maxTotalSize this; boundary := boundary this;
      parts := parts this; _byteParser := None;
      _curPartState := _curPartState this; _totalSize := _totalSize this;
      _error := true; ending := ending this |},
   [error err]).

(** [_onPartBegin()] *)
Definition _onPartBegin (this : t) : result (t * list output) :=
  if len (parts this) >=? maxParts this - 1 then
    Ok (_emitError this TooManyParts)
  else
    Ok (set_curPartState this
          (Some {| name := None; filename := None; contentId := None;
                   contentType := None;
                   transferEncoding := str "binary";
                   headers := [];
                   _headerName := None; partSize := None; tmp := None |}),
        []).

(** [_onHeaderName(chunk)] *)
Definition _onHeaderName (this : t) (chunk : Buffer)
    : result (t * list output) :=
  match _curPartState this with
  | None => Throws "TypeError: Cannot set property '_headerName' of null"
  | Some c =>
      Ok (set_curPartState this
            (Some {| name := name c; filename := filename c;
                     contentId := contentId c;
                     contentType := contentType c;
                     transferEncoding := transferEncoding c;
                     headers := headers c;
                     _headerName := Some (toString_utf8 chunk);
                     partSize := partSize c; tmp := tmp c |}),
          [])
  end.

Section Platform.
(** [String.prototype.toLowerCase], which goes by the tables of
    Unicode. *)
Variable toLowerCase : list Z -> list Z.
(** The extractors [_getFieldName], [_getFilename] and [_getContentId]
    apply the regular expressions [REGEXP.NAME], [REGEXP.FILENAME] and
    [REGEXP.CONTENT_ID] with the engine of the platform; here they are
    parameters, and [MultipartParserStatic] below has them as the code
    has them. *)
Variable _getFieldName : list Z -> option (list Z).
Variable _getFilename : list Z -> option (list Z).
Variable _getContentId : list Z -> option (list Z).
(** [new Buffer(text, 'base64')] *)
Variable base64 : list Z -> Buffer.
(** [JSON.parse(text)]; [None] when it throws. *)
Variable JSON_parse : list Z -> option json.

(** [_onHeaderValue(chunk)] *)
Definition _onHeaderValue (this : t) (chunk : Buffer)
    : result (t * list output) :=
  match _curPartState this with
  | None => Throws "TypeError: Cannot read property '_headerName' of null"
  | Some c =>
      match _headerName c with
      | None =>
          Throws "TypeError: Cannot read property 'toLowerCase' of undefined"
      | Some hn =>
          let headerName := toLowerCase hn in
          let headerValue := toString_utf8 chunk in
          let c :=
            if list_eqb headerName (str "content-disposition") then
              {| name := _getFieldName headerValue;
                 filename := _getFilename headerValue;
                 contentId := contentId c;
                 contentType := contentType c;
                 transferEncoding := transferEncoding c;
                 headers := headers c; _headerName := _headerName c;
                 partSize := partSize c; tmp := tmp c |}
            else if list_eqb headerName (str "content-id") then
              {| name := name c; filename := filename c;
                 contentId := _getContentId headerValue;
                 contentType := contentType c;
                 transferEncoding := transferEncoding c;
                 headers := headers c; _headerName := _headerName c;
                 partSize := partSize c; tmp := tmp c |}
            else if list_eqb headerName (str "content-type") then
              {| name := name c; filename := filename c;
                 contentId := contentId c;
                 contentType := Some (toLowerCase headerValue);
                 transferEncoding := transferEncoding c;
                 headers := headers c; _headerName := _headerName c;
                 partSize := partSize c; tmp := tmp c |}
            else if list_eqb headerName (str "content-transfer-encoding")
            then
              {| name := name c; filename := filename c;
                 contentId := contentId c;
                 contentType := contentType c;
                 transferEncoding := toLowerCase headerValue;
                 headers := headers c; _headerName := _headerName c;
                 partSize := partSize c; tmp := tmp c |}
            else c in
          Ok (set_curPartState this
                (Some {| name := name c; filename := filename c;
                         contentId := contentId c;
                         contentType := contentType c;
                         transferEncoding := transferEncoding c;
                         headers := assign (headers c) hn headerValue;
                         _headerName := Some [];
                         partSize := partSize c; tmp := tmp c |}),
              [])
      end
  end.

(** [handlePart(part)] when the part is made: a stream part is given
    to the listeners at once, the others wait for their end. *)
Definition handlePart (this : t) (p : Part.t) : list output :=
  if Part.TYPES.eqb (Part.type p) Part.TYPES.STREAM
  then [part (length (parts this) - 1)%nat]
  else [].

(** The listener of ['end'] that [handlePart] puts on a part that is
    not a stream, for the part at [i]: the chunks that the part has
    given are joined and read as UTF-8.  The listener holds the part
    and the assembler, and looks at nothing else: not at [_error]. *)
Definition on_end (this : t) (i : nat) : t * list output :=
  match nth_error (parts this) i with
  | None => (this, [])
  | Some p =>
      let partData := toString_utf8 (concat (Part.written p)) in
      match Part.type p with
      | Part.TYPES.OBJECT =>
          let v := match JSON_parse partData with
                   | Some v => v
                   | None => JObject []
                   end in
          (set_part this i (Part.set_value p v), [part i])
      | Part.TYPES.FIELD =>
          (set_part this i (Part.set_value p (JString partData)), [part i])
      | Part.TYPES.STREAM => (this, [])
      end
  end.

(** [_onHeadersEnd()] *)
Definition _onHeadersEnd (this : t) : result (t * list output) :=
  match _curPartState this with
  | None => Throws "TypeError: Cannot set property 'partSize' of null"
  | Some c =>
      let p := Part.new
        {| Part.o_type := None; Part.o_value := JNull;
           Part.o_name := name c; Part.o_filename := filename c;
           Part.o_transferEncoding := Some (transferEncoding c);
           Part.o_contentType := contentType c;
           Part.o_contentId := contentId c;
           Part.o_headers := Some (headers c) |} in
      let c := {| name := name c; filename := filename c;
                  contentId := contentId c;
                  contentType := contentType c;
                  transferEncoding := transferEncoding c;
                  headers := headers c; _headerName := _headerName c;
                  partSize := Some 0; tmp := Some [] |} in
      let this := set_parts (set_curPartState this (Some c))
                    (parts this ++ [p]) in
      Ok (this, handlePart this p)
  end.

(** [x += n] on a number that may be [undefined] or [NaN]. *)
Definition plus (x : option Z) (n : Z) : option Z :=
  match x with
  | Some v => Some (v + n)
  | None => None
  end.

(** [x > y]: false on [NaN]. *)
Definition gt (x : option Z) (y : Z) : bool :=
  match x with
  | Some v => v >? y
  | None => false
  end.

Definition is_passthrough (encoding : option (list Z)) : bool :=
  match encoding with
  | Some e => list_eqb e (str "binary") || list_eqb e (str "7bit")
              || list_eqb e (str "8bit")
  | None => false
  end.

Definition is_base64 (encoding : option (list Z)) : bool :=
  match encoding with
  | Some e => list_eqb e (str "base64")
  | None => false
  end.

(** [_onPartData(chunk)] *)
Definition _onPartData (this : t) (chunk : Buffer)
    : result (t * list output) :=
  match _curPartState this with
  | None => Throws "TypeError: Cannot read property 'partSize' of null"
  | Some c =>
      let c := {| name := name c; filename := filename c;
                  contentId := contentId c;
                  contentType := contentType c;
                  transferEncoding := transferEncoding c;
                  headers := headers c; _headerName := _headerName c;
                  partSize := plus (partSize c) (len chunk);
                  tmp := tmp c |} in
      let this := set_curPartState this (Some c) in
      if gt (partSize c) (maxPartSize this) then
        Ok (_emitError this PartTooLarge)
      else
        let this := set_totalSize this (_totalSize this + len chunk) in
        if _totalSize this >? maxTotalSize this then
          Ok (_emitError this MessageTooLarge)
        else
          match _curPart this with
          | None =>
              Throws "TypeError: Cannot read property 'transferEncoding' of null"
          | Some p =>
              let encoding := Part.transferEncoding p in
              if is_passthrough encoding then
                match Part.write p chunk with
                | Some p => Ok (set_curPart this p, [])
                | None => Unfollowed "write after end"
                end
              else if is_base64 encoding then
                let text :=
                  match tmp c with
                  | Some s => s
                  | None => str "undefined"
                  end ++ toString_ascii chunk in
                let offset := shl (sar (len text) 2) 2 in
                let buf := base64 (firstn (Z.to_nat offset) text) in
                let c := {| name := name c; filename := filename c;
                            contentId := contentId c;
                            contentType := contentType c;
                            transferEncoding := transferEncoding c;
                            headers := headers c;
                            _headerName := _headerName c;
                            partSize := partSize c;
                            tmp := Some (skipn (Z.to_nat offset) text) |} in
                let this := set_curPartState this (Some c) in
                match Part.write p buf with
                | Some p => Ok (set_curPart this p, [])
                | None => Unfollowed "write after end"
                end
              else Ok (_emitError this UnsupportedEncoding)
          end
  end.

(** [this._curPart.end(buf)]: the part is ended, and if it is not a
    stream, so that [handlePart] has put its listener on it, its
    ['end'] is due.  A part emits ['end'] once. *)
Definition end_curPart (this : t) (p : Part.t) (buf : option Buffer)
    : result (t * list output) :=
  match Part.end_ p buf with
  | None => Unfollowed "write after end"
  | Some p' =>
      if Part.ended p then Ok (this, [])
      else
        let this := set_curPart this p' in
        if Part.TYPES.eqb (Part.type p) Part.TYPES.STREAM then Ok (this, [])
        else
          Ok (set_ending this
                (ending this ++ [(length (parts this) - 1)%nat]), [])
  end.

(** [_onPartEnd()] *)
Definition _onPartEnd (this : t) : result (t * list output) :=
  match _curPart this with
  | None =>
      Throws "TypeError: Cannot read property 'transferEncoding' of null"
  | Some p =>
      let encoding := Part.transferEncoding p in
      if is_passthrough encoding || is_base64 encoding then
        match
          (if is_passthrough encoding then Ok None
           else
             match _curPartState this with
             | None => Throws "TypeError: Cannot read property 'tmp' of null"
             | Some c =>
                 Ok (Some (base64 match tmp c with
                                  | Some s => s
                                  | None => str "undefined"
                                  end))
             end)
        with
        | Throws e => Throws e
        | Unfollowed e => Unfollowed e
        | Ok buf => end_curPart this p buf
        end
      else Ok (_emitError this UnsupportedEncoding)
  end.

(** The listeners that [_initMultipartByteParser] puts on the scanner,
    each under [wrapInErrorChecker]. *)
Definition wrapInErrorChecker (fn : t -> result (t * list output))
    (this : t) : result (t * list output) :=
  if negb (_error this) then fn this else Ok (this, []).

Definition on (this : t) (e : MultipartByteParser.event)
    : result (t * list output) :=
  match e with
  | MultipartByteParser.partBegin =>
      wrapInErrorChecker _onPartBegin this
  | MultipartByteParser.headerName chunk =>
      wrapInErrorChecker (fun this => _onHeaderName this chunk) this
  | MultipartByteParser.headerValue chunk =>
      wrapInErrorChecker (fun this => _onHeaderValue this chunk) this
  | MultipartByteParser.headersEnd =>
      wrapInErrorChecker _onHeadersEnd this
  | MultipartByteParser.partData chunk =>
      wrapInErrorChecker (fun this => _onPartData this chunk) this
  | MultipartByteParser.partEnd =>
      wrapInErrorChecker _onPartEnd this
  end.

(** The events of one chunk, in the order in which the scanner emits
    them. *)
Fixpoint dispatch (this : t) (evs : list MultipartByteParser.event)
    : result (t * list output) :=
  match evs with
  | [] => Ok (this, [])
  | e :: evs =>
      match on this e with
      | Throws w => Throws w
      | Unfollowed w => Unfollowed w
      | Ok (this, out) =>
          match dispatch this evs with
          | Throws w => Throws w
          | Unfollowed w => Unfollowed w
          | Ok (this, out') => Ok (this, out ++ out')
          end
      end
  end.

(** [_write(chunk, encoding, callback)].  The scanner reads the whole
    chunk while its listeners run; an error that it gives to [next]
    reaches the listeners of the assembler as an error of the
    stream.  A scanner that [_emitError] has dropped stays dropped. *)
Definition _write (this : t) (chunk : Buffer)
    : result (t * list output) :=
  if _error this then Ok (this, [])
  else
    match _byteParser this with
    | None => Throws "TypeError: Cannot read property 'write' of null"
    | Some bp =>
        match MultipartByteParser._transform bp chunk with
        | None => Unfollowed "the scanner does not return"
        | Some (bp, evs, err) =>
            match dispatch this evs with
            | Throws w => Throws w
            | Unfollowed w => Unfollowed w
            | Ok (this, out) =>
                Ok (set_byteParser this
                      (if _error this then None else Some bp),
                    out ++ match err with
                           | Some e => [error e]
                           | None => []
                           end)
            end
        end
    end.

(** A session: the chunks written one after the other. *)
Fixpoint writes (this : t) (chunks : list Buffer)
    : result (t * list output) :=
  match chunks with
  | [] => Ok (this, [])
  | chunk :: chunks =>
      match _write this chunk with
      | Throws w => Throws w
      | Unfollowed w => Unfollowed w
      | Ok (this, out) =>
          match writes this chunks with
          | Throws w => Throws w
          | Unfollowed w => Unfollowed w
          | Ok (this, out') => Ok (this, out ++ out')
          end
      end
  end.

(** A later turn of the event loop: the parts whose ['end'] is due
    emit it, in the order in which they were ended.  *)
Fixpoint ends (this : t) (due : list nat) : t * list output :=
  match due with
  | [] => (this, [])
  | i :: due =>
      let '(this, out) := on_end this i in
      let '(this, out') := ends this due in
      (this, out ++ out')
  end.

Definition later (this : t) : t * list output :=
  ends (set_ending this []) (ending this).

(** What happens to the assembler in a session, one thing after the
    other: its scanner emits an event while a chunk is read, or, on a later
    turn of the event loop, a part whose ['end'] is due emits it.  The
    platform decides when, and between which chunks, that is. *)
Inductive happening : Set :=
| scanned (e : MultipartByteParser.event)
| ended (i : nat).

(** The part at [i] emits ['end'], if that is due. *)
Definition emit_end (this : t) (i : nat) : t * list output :=
  if existsb (Nat.eqb i) (ending this) then
    on_end
      (set_ending this
         (filter (fun j => negb (Nat.eqb i j)) (ending this))) i
  else (this, []).

Definition happens (this : t) (h : happening) : result (t * list output) :=
  match h with
  | scanned e => on this e
  | ended i => Ok (emit_end this i)
  end.

Fixpoint session (this : t) (hs : list happening)
    : result (t * list output) :=
  match hs with
  | [] => Ok (this, [])
  | h :: hs =>
      match happens this h with
      | Throws w => Throws w
      | Unfollowed w => Unfollowed w
      | Ok (this, out) =>
          match session this hs with
          | Throws w => Throws w
          | Unfollowed w => Unfollowed w
          | Ok (this, out') => Ok (this, out ++ out')
          end
      end
  end.

(** A chunk written, and the turn of the event loop that follows
    before anything else is written. *)
Definition turn (this : t) (chunk : Buffer) : result (t * list output) :=
  match _write this chunk with
  | Throws w => Throws w
  | Unfollowed w => Unfollowed w
  | Ok (this, out) =>
      let '(this, out') := later this in
      Ok (this, out ++ out')
  end.

End Platform.

(** [end()] of the Writable that the assembler is, when the chunks
    written before have been taken: the platform emits ['finish'].  The
    assembler itself defines no [end], no [_final] and no listener of its
    own ['finish'], and nothing ends its scanner: the listener of
    ['finish'] that the scanner has does not run.  When the scanner has
    given an error to the callback of a write the Writable has failed, and
    whether ['finish'] still comes depends on the version of the platform:
    [finishes_when_failed]. *)
Definition end_ (finishes_when_failed : bool) (this : t) : t * list output :=
  match _byteParser this with
  | Some bp =>
      if MultipartByteParserState.hasErrored (MultipartByteParser._state bp)
         && negb finishes_when_failed
      then (this, [])
      else (this, [finish])
  | None => (this, [finish])
  end.

End MultipartParser.

(** ** lib/multipart_streamer.js *)

Module MultipartStreamer.

Record t : Set := {
  boundary : list Z;
  parts : list Part.t
}.

(** [new MultipartStreamer(opts)]; [uuid] is what [uuid.v4()] returns,
    used when no boundary (or an empty one) is given. *)
Definition new (o_boundary : option (list Z)) (uuid : list Z) : t :=
  {| boundary := match or_null o_boundary with
                 | Some b => b
                 | None => uuid
                 end;
     parts := [] |}.

(** A string written with the encoding ['binary']: one byte per
    character, its code modulo 256. *)
Definition binary (s : list Z) : Buffer := map (fun c => Z.land c 255) s.

Definition CRLF : list Z := [13; 10].

(** The double quote. *)
Definition quote : list Z := [34].

(** [REDUCER(reduced, value, key)] *)
Definition REDUCER (reduced : list Z) (value key : list Z) : list Z :=
  reduced ++ key ++ str ": " ++ value ++ CRLF.

(** [_.reduce(headers, REDUCER, '')]: the members in their order. *)
Definition reduce (headers : list (list Z * list Z)) : list Z :=
  fold_left (fun reduced kv => REDUCER reduced (snd kv) (fst kv)) headers [].

(** [array.join('; ')] *)
Fixpoint join (items : list (list Z)) : list Z :=
  match items with
  | [] => []
  | [x] => x
  | x :: rest => x ++ str "; " ++ join rest
  end.

(** The headers that [handlePart] of [_setup] puts on the part before it
    serializes them. *)
Definition synthesize (p : Part.t) : Part.t :=
  let contentDisposition :=
    [str "form-data"]
    ++ match Part.name p with
       | Some n => [str "name=" ++ quote ++ n ++ quote]
       | None => []
       end
    ++ match Part.filename p with
       | Some f => [str "filename=" ++ quote ++ f ++ quote]
       | None => []
       end in
  let h := Part.headers p in
  let h :=
    if len contentDisposition >? 1
    then assign h (str "Content-Disposition") (join contentDisposition)
    else h in
  let h :=
    match Part.id p with
    | Some i => assign h (str "Content-ID") (str "<" ++ i ++ str ">")
    | None => h
    end in
  let h :=
    match Part.contentType p with
    | Some ct => assign h (str "Content-Type") ct
    | None => h
    end in
  let h :=
    match Part.transferEncoding p with
    | Some te => assign h (str "Content-Transfer-Encoding") te
    | None => h
    end in
  Part.set_headers p h.

(** [handlePart(index)] of [_setup], for the parts from [index] on: what
    is written to the inner stream, in order.  The body of a part is
    what has been written to it. *)
Fixpoint handlePart (boundary : list Z) (parts : list Part.t)
    : list Part.t * Buffer :=
  match parts with
  | [] => ([], binary (str "--" ++ boundary ++ str "--" ++ CRLF))
  | p :: rest =>
      let p := synthesize p in
      let serializedHeaders := reduce (Part.headers p) in
      let headers :=
        str "--" ++ boundary ++ CRLF ++ serializedHeaders ++ CRLF in
      let '(rest, out) := handlePart boundary rest in
      (p :: rest,
       binary headers ++ concat (Part.written p) ++ binary CRLF ++ out)
  end.

(** [_setup()]: the streamer afterwards and the bytes that it gives. *)
Definition _setup (this : t) : t * Buffer :=
  let '(ps, out) := handlePart (boundary this) (parts this) in
  ({| boundary := boundary this; parts := ps |}, out).

Definition push (this : t) (p : Part.t) : t :=
  {| boundary := boundary this; parts := parts this ++ [p] |}.

(** The arguments of [addObjectPart], [addStreamPart]; the value of a
    stream part is the chunks that the given stream produces. *)
Record args (V : Type) : Type := {
  a_value : V;
  a_contentType : option (list Z);
  a_transferEncoding : option (list Z);
  a_name : option (list Z);
  a_filename : option (list Z);
  a_contentId : option (list Z);
  a_headers : option (list (list Z * list Z))
}.
Arguments a_value {V}.
Arguments a_contentType {V}.
Arguments a_transferEncoding {V}.
Arguments a_name {V}.
Arguments a_filename {V}.
Arguments a_contentId {V}.
Arguments a_headers {V}.

(** A part that has been fed [chunks] and ended. *)
Definition fed (p : Part.t) (chunks : list Buffer) : Part.t :=
  {| Part.type := Part.type p; Part.value := Part.value p;
     Part.name := Part.name p; Part.filename := Part.filename p;
     Part.transferEncoding := Part.transferEncoding p;
     Part.contentType := Part.contentType p;
     Part.contentId := Part.contentId p; Part.headers := Part.headers p;
     Part.written := Part.written p ++ chunks; Part.ended := true |}.

Section Platform.
(** [value.toString()] and [JSON.stringify(value)]: texts. *)
Variable toString : json -> list Z.
Variable JSON_stringify : json -> list Z.

(** [addFieldPart(args)]; a [TypeError] without a name or a value:
    [None] is [undefined] or [null], and a value may be [null].  The part
    is ended with the text of the value, which the stream takes as
    UTF-8. *)
Definition addFieldPart (this : t) (name : option (list Z))
    (value : option json) : result t :=
  match name, value with
  | Some _, Some JNull | None, _ | _, None =>
      Throws "TypeError: A name and value for the field is required!"
  | Some n, Some v =>
      let p := Part.new
        {| Part.o_type := Some Part.TYPES.FIELD; Part.o_value := v;
           Part.o_name := Some n; Part.o_filename := None;
           Part.o_transferEncoding := None; Part.o_contentType := None;
           Part.o_contentId := None; Part.o_headers := None |} in
      Ok (push this (fed p [utf8 (toString v)]))
  end.

(** [addObjectPart(args)]; a [TypeError] unless the value is an
    object or an array that is not empty. *)
Definition addObjectPart (this : t) (a : args json) : result t :=
  match a_value a with
  | JObject (_ :: _) | JArray (_ :: _) =>
      let p := Part.new
        {| Part.o_type := Some Part.TYPES.OBJECT;
           Part.o_value := a_value a;
           Part.o_name := a_name a; Part.o_filename := a_filename a;
           Part.o_transferEncoding := None;
           Part.o_contentType :=
             Some (str "application/json; charset=UTF-8");
           Part.o_contentId := a_contentId a;
           Part.o_headers := a_headers a |} in
      Ok (push this (fed p [utf8 (JSON_stringify (a_value a))]))
  | _ => Throws "TypeError: A valid JSON object is required!"
  end.

(** [addStreamPart(args)]; a [TypeError] without a stream or a
    content type. *)
Definition addStreamPart (this : t) (a : args (option (list Buffer)))
    : result t :=
  match a_value a, a_contentType a with
  | Some chunks, Some ct =>
      let p := Part.new
        {| Part.o_type := Some Part.TYPES.STREAM; Part.o_value := JNull;
           Part.o_name := a_name a; Part.o_filename := a_filename a;
           Part.o_transferEncoding := a_transferEncoding a;
           Part.o_contentType := Some ct;
           Part.o_contentId := a_contentId a;
           Part.o_headers := a_headers a |} in
      Ok (push this (fed p chunks))
  | _, _ =>
      Throws "TypeError: A stream and corresponding content-type is required!"
  end.

End Platform.

End MultipartStreamer.

(** ** Sessions of the scanner *)

Module Session.
Import MultipartByteParser.

Definition to_list {A : Type} (x : option A) : list A :=
  match x with
  | Some a => [a]
  | None => []
  end.

(** The chunks given to the scanner one after the other: the scanner
    afterwards, all the events and all the errors, in order. *)
Fixpoint feed (this : t) (chunks : list Buffer)
    : option (t * list event * list MultipartError) :=
  match chunks with
  | [] => Some (this, [], [])
  | chunk :: chunks =>
      match _transform this chunk with
      | None => None
      | Some (this, evs, err) =>
          match feed this chunks with
          | None => None
          | Some (this, evs', errs) =>
              Some (this, evs ++ evs', to_list err ++ errs)
          end
      end
  end.

(** The events of a run, with the successive fragments of one header
    name, header value or stretch of part data joined. *)
Fixpoint fragments (evs : list event) : list event :=
  match evs with
  | [] => []
  | e :: rest =>
      match e, fragments rest with
      | headerName a, headerName b :: r => headerName (a ++ b) :: r
      | headerValue a, headerValue b :: r => headerValue (a ++ b) :: r
      | partData a, partData b :: r => partData (a ++ b) :: r
      | _, r => e :: r
      end
  end.

(** What a listener sees of a delivery: the joined events and the
    errors; [None] only if the scanner did not return. *)
Definition observe (boundary : list Z) (chunks : list Buffer)
    : option (list event * list MultipartError) :=
  match feed (new boundary) chunks with
  | Some (_, evs, errs) => Some (fragments evs, errs)
  | None => None
  end.

(** The message in one chunk, and in two chunks cut at [k]. *)
Definition whole (boundary : list Z) (message : Buffer) :=
  observe boundary [message].
Definition split (boundary : list Z) (message : Buffer) (k : nat) :=
  observe boundary [firstn k message; skipn k message].

Definition observation_eq_dec
    (a b : option (list event * list MultipartError)) : {a = b} + {a <> b}.
Proof.
  repeat decide equality.
Defined.

(** The offsets at which the cut changes what is observed. *)
Definition differing (boundary : list Z) (message : Buffer) : list nat :=
  filter
    (fun k =>
       if observation_eq_dec (whole boundary message)
            (split boundary message k)
       then false else true)
    (seq 0 (S (length message))).

End Session.

(** ** The events of a message, part by part *)

(** A part as the scanner reports it when nothing is cut: its headers,
    name and value, and the stretches of its data. *)
Record part_events : Set := {
  pe_headers : list (Buffer * Buffer);
  pe_data : list Buffer
}.

Definition header_events (h : Buffer * Buffer)
    : list MultipartByteParser.event :=
  [MultipartByteParser.headerName (fst h);
   MultipartByteParser.headerValue (snd h)].

Definition events_of_part (p : part_events)
    : list MultipartByteParser.event :=
  MultipartByteParser.partBegin
  :: flat_map header_events (pe_headers p)
  ++ MultipartByteParser.headersEnd
  :: map MultipartByteParser.partData (pe_data p)
  ++ [MultipartByteParser.partEnd].

Definition events_of_message (ps : list part_events)
    : list MultipartByteParser.event :=
  flat_map events_of_part ps.

(** ** The platform: [new Buffer(text, 'base64')]

    The decoder of the platform passes over every character that is not
    of the alphabet (white space, line breaks), stops at the first padding
    character, and gives three bytes for four characters of the alphabet;
    of a last group of two characters it gives one byte, of three two, of
    one none. *)

Module Base64.

(** The six bits of a character of the alphabet; the characters - and _
    stand for + and /. *)
Definition sextet (c : Z) : option Z :=
  if (65 <=? c) && (c <=? 90) then Some (c - 65)
  else if (97 <=? c) && (c <=? 122) then Some (c - 71)
  else if (48 <=? c) && (c <=? 57) then Some (c + 4)
  else if (c =? 43) || (c =? 45) then Some 62
  else if (c =? 47) || (c =? 95) then Some 63
  else None.

(** The characters that count, up to the first padding character. *)
Fixpoint sextets (text : list Z) : list Z :=
  match text with
  | [] => []
  | c :: rest =>
      if c =? 61 then []
      else match sextet c with
           | Some v => v :: sextets rest
           | None => sextets rest
           end
  end.

Fixpoint bytes (vs : list Z) : Buffer :=
  match vs with
  | a :: b :: c :: d :: rest =>
      [a * 4 + b / 16; (b mod 16) * 16 + c / 4; (c mod 4) * 64 + d]
      ++ bytes rest
  | [a; b; c] => [a * 4 + b / 16; (b mod 16) * 16 + c / 4]
  | [a; b] => [a * 4 + b / 16]
  | _ => []
  end.

Definition decode (text : list Z) : Buffer := bytes (sextets text).

End Base64.

(** ** Sample inputs *)

Module Sample.

Definition CRLF : string := String "013" (String "010" "").

(** One part with an empty body. *)
Definition empty_body : Buffer :=
  str ("--B" ++ CRLF ++ "Ab: v" ++ CRLF ++ CRLF
       ++ CRLF ++ "--B--" ++ CRLF).

(** The same, ending with the final boundary. *)
Definition empty_body_bare : Buffer :=
  str ("--B" ++ CRLF ++ "Ab: v" ++ CRLF ++ CRLF ++ CRLF ++ "--B--").

(** One part whose text ends with a line break. *)
Definition text_line : Buffer :=
  str ("--boundary" ++ CRLF ++ "Content-Type: text/plain" ++ CRLF ++ CRLF
       ++ "hello" ++ CRLF
       ++ CRLF ++ "--boundary--" ++ CRLF).

(** Two parts, in the manner of the fixtures. *)
Definition two_parts : Buffer :=
  str ("--boundary" ++ CRLF ++ "Content-Type: application/json" ++ CRLF
       ++ "Content-Length: 13" ++ CRLF ++ CRLF ++ "{foo: bar}"
       ++ CRLF ++ "--boundary" ++ CRLF
       ++ "Content-Disposition: form-data; name=answer" ++ CRLF ++ CRLF
       ++ "42"
       ++ CRLF ++ "--boundary--" ++ CRLF).

(** A header whose name has a z in it. *)
Definition size_header : Buffer :=
  str ("--B" ++ CRLF ++ "Size: 1" ++ CRLF ++ CRLF ++ "x"
       ++ CRLF ++ "--B--" ++ CRLF).

Definition zone_header : Buffer :=
  str ("--B" ++ CRLF ++ "Zone: 1" ++ CRLF ++ CRLF ++ "x"
       ++ CRLF ++ "--B--" ++ CRLF).

(** [text_line] without the line break after the final boundary. *)
Definition text_line_bare : Buffer :=
  str ("--boundary" ++ CRLF ++ "Content-Type: text/plain" ++ CRLF ++ CRLF
       ++ "hello" ++ CRLF
       ++ CRLF ++ "--boundary--").

(** One part with a body of three bytes. *)
Definition three_bytes : Buffer :=
  str ("--B" ++ CRLF ++ "Content-Type: text/plain" ++ CRLF ++ CRLF
       ++ "abc" ++ CRLF ++ "--B--" ++ CRLF).

(** One base64 part whose body is the text of ABCDEFGHI on two lines,
    QUJD and REVGR0hJ. *)
Definition two_lines : string := "QUJD" ++ String "010" "REVGR0hJ".

Definition base64_lines : Buffer :=
  str ("--B" ++ CRLF ++ "Content-Transfer-Encoding: base64" ++ CRLF ++ CRLF
       ++ two_lines ++ CRLF ++ "--B--" ++ CRLF).

(** A field of two bytes, and a stream part of five. *)
Definition field_and_stream : Buffer :=
  str ("--B" ++ CRLF ++ "Content-Disposition: form-data; name=a" ++ CRLF
       ++ CRLF ++ "hi" ++ CRLF
       ++ "--B" ++ CRLF ++ "Content-Type: text/plain" ++ CRLF ++ CRLF
       ++ "hello" ++ CRLF ++ "--B--" ++ CRLF).

(** The boundary and nothing else, as in the tests of the scanner. *)
Definition bare_boundary : Buffer := str "--boundary".

(** An encoder with the boundary B and one stream part that has a
    content id. *)
Definition stream_with_id : MultipartStreamer.t :=
  match
    MultipartStreamer.addStreamPart
      (MultipartStreamer.new (Some (str "B")) (str "uuid"))
      {| MultipartStreamer.a_value := Some [str "hi"];
         MultipartStreamer.a_contentType := Some (str "text/plain");
         MultipartStreamer.a_transferEncoding := None;
         MultipartStreamer.a_name := None;
         MultipartStreamer.a_filename := None;
         MultipartStreamer.a_contentId := Some (str "abc");
         MultipartStreamer.a_headers := None |}
  with
  | Ok this => this
  | _ => MultipartStreamer.new (Some (str "B")) (str "uuid")
  end.

(** Stand-ins for the functions of the platform. *)
Definition no_match (s : list Z) : option (list Z) := None.

(** [toLowerCase] as it is on texts of ASCII characters. *)
Definition toLowerCase (s : list Z) : list Z := ascii_lower s.

(** [new Buffer(text, 'base64')] *)
Definition base64 (text : list Z) : Buffer := Base64.decode text.

(** A JSON reader that knows one text. *)
Definition JSON_parse (text : list Z) : option json :=
  if list_eqb text (str "{}") then Some (JObject []) else None.

Definition decoder (maxParts maxPartSize maxTotalSize : option Z)
    : MultipartParser.t :=
  MultipartParser.new maxParts maxPartSize maxTotalSize (str "B").

End Sample.

(** States of the decoder used as examples. *)
Module Reached.
Import MultipartByteParser.

(** The assembler after the events [evs]. *)
Definition after (this : MultipartParser.t) (evs : list event)
    : MultipartParser.t :=
  match
    MultipartParser.dispatch Sample.toLowerCase Sample.no_match Sample.no_match Sample.no_match
      Sample.base64 this evs
  with
  | Ok (this, _) => this
  | _ => this
  end.

Definition part_state (this : MultipartParser.t) : MultipartParser.PartState :=
  match MultipartParser._curPartState this with
  | Some c => c
  | None =>
      {| MultipartParser.name := None; MultipartParser.filename := None;
         MultipartParser.contentId := None;
         MultipartParser.contentType := None;
         MultipartParser.transferEncoding := [];
         MultipartParser.headers := [];
         MultipartParser._headerName := None;
         MultipartParser.partSize := None; MultipartParser.tmp := None |}
  end.

Definition cur_part (this : MultipartParser.t) : Part.t :=
  match MultipartParser._curPart this with
  | Some p => p
  | None =>
      Part.new {| Part.o_type := None; Part.o_value := JNull;
                  Part.o_name := None; Part.o_filename := None;
                  Part.o_transferEncoding := None;
                  Part.o_contentType := None; Part.o_contentId := None;
                  Part.o_headers := None |}
  end.

Definition headers_of (name value : string) : list event :=
  [partBegin; headerName (str name); headerValue (str value); headersEnd].

(** With at most two bytes a part, where the body of a text part
    begins. *)
Definition in_text_part : MultipartParser.t :=
  after (Sample.decoder None (Some 2) None)
    (headers_of "Content-Type" "text/plain").

(** At the end of a JSON part whose body is not JSON. *)
Definition in_object_part : MultipartParser.t :=
  after (Sample.decoder None None None)
    (headers_of "Content-Type" "application/json" ++ [partData (str "{oops")]).

Definition three_parts : list part_events :=
  [ {| pe_headers := [(str "Content-Type", str "text/plain")];
       pe_data := [str "abc"] |};
    {| pe_headers := [(str "Content-Type", str "application/json")];
       pe_data := [str "{}"] |};
    {| pe_headers := []; pe_data := [] |} ].

(** The events of these parts in one chunk, and then the ['end'] of the
    second part. *)
Definition three_parts_session : list MultipartParser.happening :=
  map MultipartParser.scanned (events_of_message three_parts)
  ++ [MultipartParser.ended 1].

End Reached.

(** ** Notions used in the statements *)

(** The bytes that the specification has the assembler forward for a
    base64 part: for each fragment the decoding of the longest prefix of
    the pending text whose length is a multiple of 4, and at the end the
    decoding of what is left. *)
Fixpoint base64_by_spec (base64 : list Z -> Buffer) (pending : list Z)
    (fragments : list Buffer) : list Buffer :=
  match fragments with
  | [] => [base64 pending]
  | f :: rest =>
      let text := pending ++ toString_ascii f in
      let k := Z.to_nat (4 * (len text / 4)) in
      base64 (firstn k text) :: base64_by_spec base64 (skipn k text) rest
  end.

(** The session takes no more input: the assembler has raised an error
    or its scanner has. *)
Definition closed (this : MultipartParser.t) : bool :=
  MultipartParser._error this
  || match MultipartParser._byteParser this with
     | Some bp =>
         MultipartByteParserState.hasErrored (MultipartByteParser._state bp)
     | None => false
     end.



(** Two parts that differ at most in their value, and two assemblers
    that differ at most in the values of their parts and in the ['end']s
    that are due. *)
Definition alike (p q : Part.t) : Prop :=
  Part.set_value p JNull = Part.set_value q JNull.


(** The error of the listener of ['finish']. *)
Definition unexpected_end : MultipartError :=
  ParseError "Unexpected end of multipart message!".

(** The error of the case HEADER_NAME. *)
Definition invalid_name_character : MultipartError :=
  ParseError "Invalid character found parsing header field name!".

(** The letters but z and Z, and the hyphen. *)
Definition letter_before_z_or_hyphen (b : Z) : bool :=
  ((65 <=? b) && (b <=? 89)) || ((97 <=? b) && (b <=? 121)) || (b =? 45).

(** What bounds the passes of the loop of the scanner: twice the bytes
    that are left, and one more while a boundary candidate is open. *)
Definition mu (chunk : Buffer) (st : MultipartByteParserState.t) (pos : Z)
    : Z :=
  2 * Z.max 0 (len chunk - pos)
  + (if MultipartByteParserState.index st >? 0 then 1 else 0).

(** The assembler between the start of a part and the end of its
    headers, and between the headers and the end of the part. *)
Definition in_headers (this : MultipartParser.t) : Prop :=
  MultipartParser._error this = false
  /\ (exists c, MultipartParser._curPartState this = Some c).

Definition in_body (this : MultipartParser.t) : Prop :=
  MultipartParser._error this = false
  /\ (exists c, MultipartParser._curPartState this = Some c)
  /\ (exists ps0 p,
        MultipartParser.parts this = ps0 ++ [p] /\ Part.ended p = false).

(** An error other than the one on the number of parts has stopped the
    assembler. *)
Definition halted (this : MultipartParser.t)
    (out : list MultipartParser.output) : Prop :=
  MultipartParser._error this = true
  /\ exists e, out = [MultipartParser.error e] /\ e <> TooManyParts.


(** ** Notions used for the assembly of a part *)

(** The part that [_onHeadersEnd] makes of the part state. *)
Definition part_of (c : MultipartParser.PartState) : Part.t :=
  Part.new
    {| Part.o_type := None; Part.o_value := JNull;
       Part.o_name := MultipartParser.name c;
       Part.o_filename := MultipartParser.filename c;
       Part.o_transferEncoding := Some (MultipartParser.transferEncoding c);
       Part.o_contentType := MultipartParser.contentType c;
       Part.o_contentId := MultipartParser.contentId c;
       Part.o_headers := Some (MultipartParser.headers c) |}.

(** The part [p] once [chunks] have been written to it. *)
Definition written_to (p : Part.t) (chunks : list Buffer) : Part.t :=
  {| Part.type := Part.type p; Part.value := Part.value p;
     Part.name := Part.name p; Part.filename := Part.filename p;
     Part.transferEncoding := Part.transferEncoding p;
     Part.contentType := Part.contentType p;
     Part.contentId := Part.contentId p; Part.headers := Part.headers p;
     Part.written := Part.written p ++ chunks; Part.ended := Part.ended p |}.

(** The part [p] as its listeners have it in the end: ended, with the
    value [v]. *)
Definition completed (p : Part.t) (v : json) : Part.t :=
  {| Part.type := Part.type p; Part.value := v;
     Part.name := Part.name p; Part.filename := Part.filename p;
     Part.transferEncoding := Part.transferEncoding p;
     Part.contentType := Part.contentType p;
     Part.contentId := Part.contentId p; Part.headers := Part.headers p;
     Part.written := Part.written p; Part.ended := true |}.

(** The part state with [n] bytes counted. *)
Definition counting (c : MultipartParser.PartState) (n : Z)
    : MultipartParser.PartState :=
  {| MultipartParser.name := MultipartParser.name c;
     MultipartParser.filename := MultipartParser.filename c;
     MultipartParser.contentId := MultipartParser.contentId c;
     MultipartParser.contentType := MultipartParser.contentType c;
     MultipartParser.transferEncoding := MultipartParser.transferEncoding c;
     MultipartParser.headers := MultipartParser.headers c;
     MultipartParser._headerName := MultipartParser._headerName c;
     MultipartParser.partSize := Some n;
     MultipartParser.tmp := MultipartParser.tmp c |}.

(** The bytes that a part has been given, when its encoding passes the
    bytes through. *)
Definition bytes_given (p : Part.t) : Z :=
  if MultipartParser.is_passthrough (Part.transferEncoding p)
  then len (concat (Part.written p)) else 0.

Definition passed_through (ps : list Part.t) : Z :=
  fold_right Z.add 0 (map bytes_given ps).

(** The limits on the sizes hold of what the parts have been given. *)
Definition limits_kept (this : MultipartParser.t) : Prop :=
  Forall (fun p => bytes_given p <= MultipartParser.maxPartSize this)
    (MultipartParser.parts this)
  /\ passed_through (MultipartParser.parts this)
     <= MultipartParser.maxTotalSize this.

(** What the assembler keeps true of its counts. *)
Definition counts_sound (this : MultipartParser.t) : Prop :=
  limits_kept this
  /\ 0 <= MultipartParser.maxPartSize this
  /\ passed_through (MultipartParser.parts this)
     <= MultipartParser._totalSize this
  /\ (MultipartParser._error this = false ->
      MultipartParser._totalSize this <= MultipartParser.maxTotalSize this).

(** In the body of a part, the count of the part is what the part has
    been given. *)
Definition count_tracks (this : MultipartParser.t) : Prop :=
  exists c n ps0 p,
    MultipartParser._curPartState this = Some c
    /\ MultipartParser.partSize c = Some n
    /\ MultipartParser.parts this = ps0 ++ [p]
    /\ Part.ended p = false
    /\ (MultipartParser.is_passthrough (Part.transferEncoding p) = true ->
        len (concat (Part.written p)) = n).

(** ** A message on the wire, and a run of the scanner *)

(** The loop of the scanner, from the state [st] at the position [pos],
    comes to the state [st'] at the position [pos'] without returning,
    and emits the events [evs] on the way. *)
Inductive runs (B : Buffer) (chars : list Z) (chunk : Buffer)
    : MultipartByteParserState.t -> Z -> list MultipartByteParser.event ->
      MultipartByteParserState.t -> Z -> Prop :=
| runs_refl st pos : runs B chars chunk st pos [] st pos
| runs_step st pos st1 pos1 evs1 evs st' pos' :
    pos < len chunk ->
    MultipartByteParser.step B chars chunk st pos
    = MultipartByteParser.Break st1 pos1 evs1 ->
    runs B chars chunk st1 (pos1 + 1) evs st' pos' ->
    runs B chars chunk st pos (evs1 ++ evs) st' pos'.

(** A message on the wire, part by part: each part is its headers and its
    body. *)
Definition header_line (h : Buffer * Buffer) : Buffer :=
  fst h ++ str ": " ++ snd h ++ str Sample.CRLF.

Definition part_block (b : list Z) (p : list (Buffer * Buffer) * Buffer)
    : Buffer :=
  str "--" ++ b ++ str Sample.CRLF
  ++ flat_map header_line (fst p) ++ str Sample.CRLF
  ++ snd p ++ str Sample.CRLF.

Definition message_of (b : list Z)
    (ps : list (list (Buffer * Buffer) * Buffer)) : Buffer :=
  flat_map (part_block b) ps ++ str "--" ++ b ++ str "--" ++ str Sample.CRLF.

(** The same message, from behind its first boundary on. *)
Fixpoint after_boundary (b : list Z)
    (ps : list (list (Buffer * Buffer) * Buffer)) : Buffer :=
  match ps with
  | [] => str "--" ++ str Sample.CRLF
  | p :: ps =>
      str Sample.CRLF ++ flat_map header_line (fst p) ++ str Sample.CRLF
      ++ snd p ++ (str Sample.CRLF ++ str "--" ++ b)
      ++ after_boundary b ps
  end.

(** The events of such a part: a body that is not empty is one stretch
    of data. *)
Definition part_events_of (p : list (Buffer * Buffer) * Buffer)
    : part_events :=
  {| pe_headers := fst p;
     pe_data := match snd p with [] => [] | _ => [snd p] end |}.

(** What the scanner reads back as it was written: a header name of
    letters that the scanner takes and hyphens, a value that does not begin
    with a space and has no carriage return, a body without a carriage
    return. *)
Definition name_ok (k : Buffer) : Prop :=
  k <> [] /\ Forall (fun c => MultipartByteParser.name_byte (Some c) = true) k.

Definition value_ok (v : Buffer) : Prop :=
  v <> [] /\ hd 0 v <> CHARS.SPACE /\ Forall (fun c => c <> CHARS.CR) v.

Definition part_ok (p : list (Buffer * Buffer) * Buffer) : Prop :=
  Forall (fun h => name_ok (fst h) /\ value_ok (snd h)) (fst p)
  /\ Forall (fun c => c <> CHARS.CR) (snd p).

(** What the streamer writes of a part: the headers that [synthesize]
    leaves on it, and its body. *)
Definition wire_of (p : Part.t) : list (Buffer * Buffer) * Buffer :=
  (Part.headers (MultipartStreamer.synthesize p), concat (Part.written p)).

(** A text of characters that are bytes: the encoding ['binary'] writes
    it as it is. *)
Definition bytes_only (s : list Z) : Prop := Forall (fun c => 0 <= c < 256) s.

(** ** More sample inputs *)

Module Midway.
Import MultipartByteParser.


(** A decoder in the headers of a part whose encoding the assembler does
    not know. *)
Definition quoted_headers : MultipartParser.t :=
  Reached.after (Sample.decoder None None None)
    [partBegin; headerName (str "Content-Transfer-Encoding");
     headerValue (str "quoted-printable")].

(** A message of one part. *)
Definition one_part : list (list (Buffer * Buffer) * Buffer) :=
  [([(str "Content-Type", str "text/plain")], str "hello")].

(** A part for a file, named by a path of Windows. *)
Definition upload : Part.t :=
  Part.new
    {| Part.o_type := None; Part.o_value := JNull;
       Part.o_name := Some (str "file");
       Part.o_filename :=
         Some (str "C:" ++ [92] ++ str "docs" ++ [92] ++ str "a.txt");
       Part.o_transferEncoding := None;
       Part.o_contentType := Some (str "text/plain");
       Part.o_contentId := None; Part.o_headers := None |}.

(** A streamer with that part, fed with a text. *)
Definition outbox : MultipartStreamer.t :=
  {| MultipartStreamer.boundary := str "B";
     MultipartStreamer.parts :=
       [MultipartStreamer.fed upload [str "hel"; str "lo"]] |}.

(** The text of a value, for the values that are texts. *)
Definition text_of (v : json) : list Z :=
  match v with
  | JString s => s
  | _ => str "null"
  end.

(** Two fields of a form. *)
Definition greetings : list (list Z * json) :=
  [(str "greeting", JString (str "hello world"));
   (str "empty", JString [])].

End Midway.

(** ** Regular expressions, as the extractors of the assembler use them

    The regular expressions of lib/multipart_parser.js are kept as terms,
    and matched as the platform matches them: by backtracking, the
    alternatives and the repetitions tried in order.  A string is the
    list of its code units. *)

Module RegExp.

(** [\s]: white space and line terminators. *)
Definition isWhiteSpace (c : Z) : bool :=
  (c =? 9) || (c =? 10) || (c =? 11) || (c =? 12) || (c =? 13)
  || (c =? 32) || (c =? 160) || (c =? 5760)
  || ((8192 <=? c) && (c <=? 8202))
  || (c =? 8232) || (c =? 8233) || (c =? 8239) || (c =? 8287)
  || (c =? 12288) || (c =? 65279).

Definition isLineTerminator (c : Z) : bool :=
  (c =? 10) || (c =? 13) || (c =? 8232) || (c =? 8233).

(** [\w], for [\b]. *)
Definition isWordChar (c : Z) : bool :=
  ((97 <=? c) && (c <=? 122)) || ((65 <=? c) && (c <=? 90))
  || ((48 <=? c) && (c <=? 57)) || (c =? 95).

(** [\d] *)
Definition isDigit (c : Z) : bool := (48 <=? c) && (c <=? 57).

(** The letters of the patterns are ASCII; with the flag [i] a code
    unit matches such a letter if it is the letter in either case: a code
    unit from 128 on is never taken for an ASCII one. *)
Definition canonicalize (i : bool) (c : Z) : Z :=
  if i && (97 <=? c) && (c <=? 122) then c - 32 else c.

(** The terms.  A repetition is always one of a class of characters,
    which is all that the patterns of the source have; the classes of
    the patterns have no letters in them, and the flag [i] does not
    change them. *)
Inductive t : Type :=
| Chr (c : Z)
| Class (neg : bool) (member : Z -> bool)
| Seq (a b : t)
| Alt (a b : t)
| Star (greedy : bool) (neg : bool) (member : Z -> bool)
| Group (n : nat) (a : t)
| Bol
| Eol
| WordBoundary
| Empty.

(** Where a match stands: the number of code units before, the last of
    them, what is left of the input, and the groups captured so far. *)
Record cursor : Type := {
  pos : nat;
  prev : option Z;
  rest : list Z;
  caps : list (nat * list Z)
}.

Definition accepts (neg : bool) (member : Z -> bool) (c : Z) : bool :=
  xorb neg (member c).

Fixpoint star (greedy : bool) (p : Z -> bool)
    (k : cursor -> option cursor) (pos : nat) (prev : option Z)
    (rest : list Z) (caps : list (nat * list Z)) : option cursor :=
  let here :=
    k {| pos := pos; prev := prev; rest := rest; caps := caps |} in
  let more :=
    match rest with
    | c :: rest' =>
        if p c then star greedy p k (S pos) (Some c) rest' caps else None
    | [] => None
    end in
  if greedy then match more with Some r => Some r | None => here end
  else match here with Some r => Some r | None => more end.

Definition is_word (c : option Z) : bool :=
  match c with
  | Some c => isWordChar c
  | None => false
  end.

(** [m i r k s]: the matches of [r] at [s], each followed by [k], in
    the order of the backtracking; the first that succeeds. *)
Fixpoint m (i : bool) (r : t) (k : cursor -> option cursor) (s : cursor)
    : option cursor :=
  match r with
  | Chr c =>
      match rest s with
      | x :: rest' =>
          if canonicalize i x =? canonicalize i c
          then k {| pos := S (pos s); prev := Some x; rest := rest';
                    caps := caps s |}
          else None
      | [] => None
      end
  | Class neg member =>
      match rest s with
      | x :: rest' =>
          if accepts neg member x
          then k {| pos := S (pos s); prev := Some x; rest := rest';
                    caps := caps s |}
          else None
      | [] => None
      end
  | Seq a b => m i a (m i b k) s
  | Alt a b =>
      match m i a k s with
      | Some r => Some r
      | None => m i b k s
      end
  | Star greedy neg member =>
      star greedy (accepts neg member) k (pos s) (prev s) (rest s) (caps s)
  | Group n a =>
      m i a
        (fun s' =>
           k {| pos := pos s'; prev := prev s'; rest := rest s';
                caps := (n, firstn (pos s' - pos s) (rest s)) :: caps s' |})
        s
  | Bol => if Nat.eqb (pos s) 0 then k s else None
  | Eol => match rest s with [] => k s | _ :: _ => None end
  | WordBoundary =>
      if xorb (is_word (prev s)) (is_word (hd_error (rest s)))
      then k s else None
  | Empty => k s
  end.

(** [string.match(r)] for a pattern without the flag [g]: the match
    that begins first. *)
Fixpoint search (i : bool) (r : t) (pos : nat) (prev : option Z)
    (rest : list Z) : option cursor :=
  match
    m i r Some {| pos := pos; prev := prev; rest := rest; caps := [] |}
  with
  | Some s => Some s
  | None =>
      match rest with
      | c :: rest' => search i r (S pos) (Some c) rest'
      | [] => None
      end
  end.

Definition exec (i : bool) (r : t) (s : list Z) : option cursor :=
  search i r 0 None s.

(** [matches[n]]; [None] is [undefined]: the group took no part in the
    match. *)
Fixpoint group (n : nat) (caps : list (nat * list Z)) : option (list Z) :=
  match caps with
  | [] => None
  | (n', text) :: caps => if Nat.eqb n n' then Some text else group n caps
  end.

(** The characters of [s] one after the other, then [r]. *)
Fixpoint lit (s : list Z) (r : t) : t :=
  match s with
  | [] => r
  | c :: s => Seq (Chr c) (lit s r)
  end.

(** [x+] for a class [x]. *)
Definition plus (neg : bool) (member : Z -> bool) : t :=
  Seq (Class neg member) (Star true neg member).

(** What a greedy repetition of the characters [p] does before a last
    character [last_] and the end of the text: it takes all but the last
    character, or the match fails. *)
Fixpoint to_the_last (p : Z -> bool) (last_ : Z) (pos : nat)
    (prev : option Z) (txt : list Z) (caps : list (nat * list Z))
    : option cursor :=
  match txt with
  | [] => None
  | c :: txt' =>
      match txt' with
      | [] =>
          if c =? last_
          then Some {| pos := pos; prev := prev; rest := [c]; caps := caps |}
          else None
      | _ :: _ =>
          if p c then to_the_last p last_ (S pos) (Some c) txt' caps
          else None
      end
  end.

(** The cursor [s] moved over the characters [a], with [txt] left. *)
Definition after (s : cursor) (a txt : list Z) : cursor :=
  {| pos := pos s + length a; prev := last (map Some a) (prev s);
     rest := txt; caps := caps s |}.

(** A pattern that begins with the key [l]: it matches only where the
    key does. *)
Definition keyed (i : bool) (l : list Z) (r0 : t) : Prop :=
  forall s, m i r0 Some s <> None ->
  exists r, m i (lit l r) Some s <> None.

End RegExp.

(** ** lib/multipart_parser.js: REGEXP and the extractors *)

Module REGEXP.
Import RegExp.

Definition one_of (l : list Z) (c : Z) : bool := existsb (Z.eqb c) l.

(** The quotation mark, the backslash, the semicolon. *)
Definition quote : Z := 34.
Definition backslash : Z := 92.
Definition semicolon : Z := 59.

(** The class of the characters that end a token: the parentheses, the
    angle brackets, the at sign, the comma, the semicolon, the colon, the
    backslash, the quotation mark, the slash, the square brackets, the
    question mark, the equals sign, the braces, white space and the
    tab. *)
Definition separator (c : Z) : bool :=
  one_of (str "()<>@,;:" ++ [backslash; quote] ++ str "/[]?={}") c
  || isWhiteSpace c || (c =? 9) || (c =? 47).

Definition only (x : Z) (c : Z) : bool := c =? x.

Definition any (c : Z) : bool := true.

(** A token that is not quoted: one or more characters that are no
    separators. *)
Definition token : t := plus true separator.

(** MULTIPART_TYPE: at the start, multipart and a slash. *)
Definition MULTIPART_TYPE : t := Seq Bol (lit (str "multipart/") Empty).

(** BOUNDARY, with the flag i: boundary= and then, in quotation
    marks, one or more characters that are no quotation marks (group 1),
    or else one or more characters that are no semicolons (group 2). *)
Definition BOUNDARY : t :=
  lit (str "boundary=")
    (Alt (Seq (Chr quote)
            (Seq (Group 1 (plus true (only quote))) (Chr quote)))
         (Group 2 (plus true (only semicolon)))).

(** NAME, with the flag i: at a word boundary name= and then (group 1)
    in quotation marks any characters that are no quotation marks
    (group 2), or else a token (group 3). *)
Definition NAME : t :=
  Seq WordBoundary
    (lit (str "name=")
       (Group 1
          (Alt (Seq (Chr quote)
                  (Seq (Group 2 (Star true true (only quote))) (Chr quote)))
               (Group 3 token)))).

(** FILENAME, with the flag i: at a word boundary filename= and then
    (group 1) in quotation marks as few characters of a line as can be
    (group 2), or else a token (group 3); after it (group 4) the end of
    the text, or a semicolon and a white space. *)
Definition FILENAME : t :=
  Seq WordBoundary
    (lit (str "filename=")
       (Seq (Group 1
               (Alt (Seq (Chr quote)
                       (Seq (Group 2 (Star false true isLineTerminator))
                          (Chr quote)))
                    (Group 3 token)))
          (Group 4 (Alt Eol (Seq (Chr semicolon)
                               (Class false isWhiteSpace)))))).

(** CONTENT_ID: the whole text is, in angle brackets, any characters
    that are no white space (group 1). *)
Definition CONTENT_ID : t :=
  Seq Bol
    (Seq (Chr 60)
       (Seq (Group 1 (Star true true isWhiteSpace)) (Seq (Chr 62) Eol))).

End REGEXP.

(** The static functions of MultipartParser.  An argument or a result
    that is [null] or [undefined] is [None]. *)
Module MultipartParserStatic.
Import RegExp.

(** [a || b] on strings that may be [undefined]: the empty string is
    falsy. *)
Definition or_else (a b : option (list Z)) : option (list Z) :=
  match a with
  | Some (_ :: _) => a
  | _ => b
  end.

(** [_getContentType(headerValue)] *)
Definition _getContentType (headerValue : list Z) : option (list Z) :=
  match exec false REGEXP.MULTIPART_TYPE headerValue with
  | Some _ => Some headerValue
  | None => None
  end.

(** [_getFieldName(headerValue)] *)
Definition _getFieldName (headerValue : list Z) : option (list Z) :=
  match exec true REGEXP.NAME headerValue with
  | Some matches => or_else (group 2 (caps matches)) (group 1 (caps matches))
  | None => None
  end.

(** [s.replace(/\\/g, '/')] *)
Definition slashes (s : list Z) : list Z :=
  map (fun c => if c =? REGEXP.backslash then 47 else c) s.

(** [s.lastIndexOf('/')], counted from [from]; -1 when there is none. *)
Fixpoint lastIndexOf_from (from : Z) (s : list Z) (c : Z) : Z :=
  match s with
  | [] => -1
  | x :: t =>
      let later := lastIndexOf_from (from + 1) t c in
      if later >=? 0 then later else if x =? c then from else -1
  end.

Definition lastIndexOf (s : list Z) (c : Z) : Z := lastIndexOf_from 0 s c.

(** [s.substr(start)] for a [start] that is not negative. *)
Definition substr (s : list Z) (start : Z) : list Z :=
  skipn (Z.to_nat start) s.

(** [s.replace(/%22/g, quotation mark)] *)
Fixpoint unescape22 (s : list Z) : list Z :=
  match s with
  | [] => []
  | c1 :: t1 =>
      match t1 with
      | c2 :: c3 :: t3 =>
          if (c1 =? 37) && (c2 =? 50) && (c3 =? 50)
          then REGEXP.quote :: unescape22 t3
          else c1 :: unescape22 t1
      | _ => c1 :: unescape22 t1
      end
  end.

(** [s.replace(/&#([\d]{4});/g, (m, c) => String.fromCharCode(c))]: an
    ampersand, a number sign, four digits and a semicolon become the code
    unit of that number. *)
Fixpoint unescape_entities (s : list Z) : list Z :=
  match s with
  | [] => []
  | c1 :: t1 =>
      match t1 with
      | c2 :: d1 :: d2 :: d3 :: d4 :: c7 :: t7 =>
          if (c1 =? 38) && (c2 =? 35) && isDigit d1 && isDigit d2
             && isDigit d3 && isDigit d4 && (c7 =? 59)
          then (1000 * (d1 - 48) + 100 * (d2 - 48) + 10 * (d3 - 48)
                + (d4 - 48)) :: unescape_entities t7
          else c1 :: unescape_entities t1
      | _ => c1 :: unescape_entities t1
      end
  end.

(** [_getFilename(headerValue)] *)
Definition _getFilename (headerValue : list Z) : option (list Z) :=
  match exec true REGEXP.FILENAME headerValue with
  | None => None
  | Some matches =>
      (* Windows paths need special attention *)
      let filename :=
        slashes
          match
            or_else (group 3 (caps matches))
              (or_else (group 2 (caps matches)) (Some []))
          with
          | Some s => s
          | None => []
          end in
      Some (unescape_entities
              (unescape22 (substr filename (lastIndexOf filename 47 + 1))))
  end.

(** [_getContentId(headerValue)]; the pattern has one group, and
    [matches[2]] is [undefined]. *)
Definition _getContentId (headerValue : list Z) : option (list Z) :=
  match exec false REGEXP.CONTENT_ID headerValue with
  | Some matches => or_else (group 2 (caps matches)) (group 1 (caps matches))
  | None => None
  end.

(** [_getBoundary(headerValue)] *)
Definition _getBoundary (headerValue : list Z) : option (list Z) :=
  match exec true REGEXP.BOUNDARY headerValue with
  | Some boundary =>
      or_else (group 2 (caps boundary)) (group 1 (caps boundary))
  | None => None
  end.

End MultipartParserStatic.

(** ** Fields, from the streamer to the assembler *)

(** [addFieldPart] for each of the fields, name and value, in order. *)
Fixpoint addFieldParts (toString : json -> list Z)
    (this : MultipartStreamer.t) (fields : list (list Z * json))
    : result MultipartStreamer.t :=
  match fields with
  | [] => Ok this
  | (n, v) :: fields =>
      match MultipartStreamer.addFieldPart toString this (Some n) (Some v) with
      | Ok this => addFieldParts toString this fields
      | Throws e => Throws e
      | Unfollowed e => Unfollowed e
      end
  end.

(** A name that is read back as it was written: not empty, of ASCII
    characters, without a quotation mark, an equals sign or a carriage
    return. *)
Definition plain_name (n : list Z) : Prop :=
  n <> [] /\ ascii_only n /\ ~ In 34 n /\ ~ In 61 n /\ ~ In 13 n.

(** * Properties *)

#[local] Arguments list_eqb : simpl never.
#[local] Arguments str : simpl never.
#[local] Arguments MultipartParser.is_passthrough : simpl never.
#[local] Arguments MultipartParser.is_base64 : simpl never.
#[local] Arguments shl : simpl never.
#[local] Arguments sar : simpl never.
#[local] Arguments toString_ascii : simpl never.
#[local] Arguments ascii_lower : simpl never.
#[local] Arguments indexOf : simpl never.

(** ** Lists, lengths and texts *)

Lemma len_app {A : Type} (a b : list A) : len (a ++ b) = len a + len b.
Proof. unfold len. rewrite length_app. lia. Qed.

Lemma len_cons {A : Type} (x : A) (a : list A) : len (x :: a) = len a + 1.
Proof. unfold len. cbn [length]. lia. Qed.

Lemma len_nonneg {A : Type} (a : list A) : 0 <= len a.
Proof. unfold len. lia. Qed.

Lemma concat_snoc (l : list Buffer) (x : Buffer) :
  concat (l ++ [x]) = concat l ++ x.
Proof. rewrite concat_app. cbn [concat]. rewrite app_nil_r. reflexivity. Qed.

(** Goals on the lengths of concatenations. *)
Ltac lens :=
  repeat rewrite ?len_app, ?len_cons; change (@len Z []) with 0;
  repeat match goal with
  | |- context [len ?l] =>
      lazymatch goal with
      | _ : 0 <= len l |- _ => fail
      | _ => pose proof (len_nonneg l)
      end
  | _ : context [len ?l] |- _ =>
      lazymatch goal with
      | _ : 0 <= len l |- _ => fail
      | _ => pose proof (len_nonneg l)
      end
  end; lia.

(** *** ASCII texts in UTF-8 *)

Lemma ascii_only_app a b : ascii_only a -> ascii_only b -> ascii_only (a ++ b).
Proof. intros Ha Hb. apply Forall_app. split; assumption. Qed.

Lemma ascii_not_surrogate c :
  0 <= c < 128 -> isHighSurrogate c = false /\ isLowSurrogate c = false.
Proof.
  intros H. unfold isHighSurrogate, isLowSurrogate. split.
  - destruct (Z.leb_spec 55296 c); [lia|reflexivity].
  - destruct (Z.leb_spec 56320 c); [lia|reflexivity].
Qed.

Lemma utf8_chars_ascii s :
  ascii_only s -> utf8_chars s = map (fun c => [c]) s.
Proof.
  induction 1 as [|c s Hc _ IH]; [reflexivity|].
  cbn [utf8_chars map].
  destruct (ascii_not_surrogate c Hc) as [-> ->].
  rewrite IH. f_equal. unfold utf8_of.
  destruct (Z.ltb_spec c 128); [reflexivity|lia].
Qed.

(** The bytes of an ASCII text are its code units. *)
Lemma utf8_ascii s : ascii_only s -> utf8 s = s.
Proof.
  intros H. unfold utf8. rewrite utf8_chars_ascii by exact H.
  clear H. induction s as [|c s IH]; [reflexivity|].
  cbn [map concat app]. rewrite IH. reflexivity.
Qed.

Lemma utf8_points_ascii s :
  ascii_only s -> utf8_points s 0 0 128 191 = s.
Proof.
  induction 1 as [|c s Hc _ IH]; [reflexivity|].
  cbn [utf8_points]. rewrite Z.eqb_refl. unfold utf8_lead.
  destruct (Z.ltb_spec c 128); [|lia]. cbn [app]. rewrite IH. reflexivity.
Qed.

(** ASCII bytes are read as they are. *)
Lemma toString_utf8_ascii s : ascii_only s -> toString_utf8 s = s.
Proof.
  intros H. unfold toString_utf8. rewrite utf8_points_ascii by exact H.
  induction H as [|c s Hc _ IH]; [reflexivity|].
  cbn [flat_map]. rewrite IH. unfold utf16_of.
  destruct (Z.ltb_spec c 65536); [reflexivity|lia].
Qed.

Lemma ascii_only_str_bytes s : ascii_only s -> Forall (fun c => 0 <= c < 256) s.
Proof. apply Forall_impl. intros c H. lia. Qed.

(** *** The Buffer of the boundary *)

Lemma fitting_len : forall chars room,
  0 <= room -> len (fitting room chars) <= room.
Proof.
  induction chars as [|ch chars IH]; intros room Hr; cbn [fitting].
  - exact Hr.
  - destruct (Z.leb_spec (len ch) room); [|exact Hr].
    rewrite len_app. pose proof (len_nonneg ch).
    specialize (IH (room - len ch)). lia.
Qed.

Lemma fitting_ascii : forall s room,
  len s <= room -> fitting room (map (fun c => [c]) s) = s.
Proof.
  induction s as [|c s IH]; intros room H; [reflexivity|].
  cbn [map fitting]. rewrite len_cons in H. pose proof (len_nonneg s).
  change (len [c]) with 1.
  destruct (Z.leb_spec 1 room); [|lia].
  cbn [app]. rewrite IH by lia. reflexivity.
Qed.

Lemma len_firstn_skipn (buffer : Buffer) (a b : Z) (bytes : list Z) :
  0 <= a -> len bytes = b - a -> b <= len buffer ->
  len (firstn (Z.to_nat a) buffer ++ bytes ++ skipn (Z.to_nat b) buffer)
  = len buffer.
Proof.
  intros Ha Hb Hl. unfold len in *.
  rewrite !length_app, length_firstn, length_skipn. lia.
Qed.

Lemma len_write_at buffer s offset :
  0 <= offset <= len buffer -> len (write_at buffer s offset) = len buffer.
Proof.
  intros H. unfold write_at.
  pose proof (fitting_len (utf8_chars s) (len buffer - offset)) as Hf.
  apply len_firstn_skipn; lia.
Qed.

Lemma len_alloc n : 0 <= n -> len (alloc n) = n.
Proof. intros H. unfold alloc, len. rewrite repeat_length. lia. Qed.

(** The Buffer of the boundary has four bytes more than the string
    has code units. *)
Lemma len_constructBoundary b :
  len (MultipartByteParser._constructBoundary b) = len b + 4.
Proof.
  unfold MultipartByteParser._constructBoundary.
  pose proof (len_nonneg b).
  assert (H0 : len (alloc (len b + 4)) = len b + 4) by (apply len_alloc; lia).
  assert (H1 : len (write_at (alloc (len b + 4))
                      (str (String "013" (String "010" "--"))) 0)
               = len b + 4) by (rewrite len_write_at; lia).
  rewrite len_write_at; lia.
Qed.

(** Of an ASCII boundary it is CR LF - - and the boundary. *)
Lemma constructBoundary_ascii b :
  ascii_only b ->
  MultipartByteParser._constructBoundary b = [13; 10; 45; 45] ++ b.
Proof.
  intros Hb. unfold MultipartByteParser._constructBoundary.
  pose proof (len_nonneg b) as Hn.
  assert (H0 : write_at (alloc (len b + 4))
                 (str (String "013" (String "010" "--"))) 0
               = [13; 10; 45; 45] ++ repeat 0 (length b)).
  { unfold write_at, alloc.
    replace (Z.to_nat (len b + 4)) with (4 + length b)%nat
      by (unfold len; lia).
    rewrite repeat_app.
    change (utf8_chars (str (String "013" (String "010" "--"))))
      with [[13]; [10]; [45]; [45]].
    cbn [fitting].
    assert (Hl : len (repeat 0 4 ++ repeat 0 (length b)) = len b + 4).
    { rewrite len_app. unfold len. rewrite !repeat_length. lia. }
    rewrite Hl. change (len [13]) with 1. change (len [10]) with 1.
    change (len [45]) with 1.
    repeat match goal with
    | |- context [?a <=? ?b] =>
        destruct (Z.leb_spec a b); [|lia]
    end.
    cbn [app fitting firstn Z.to_nat].
    change (Z.to_nat (0 + len [13; 10; 45; 45])) with 4%nat.
    reflexivity. }
  rewrite H0. unfold write_at.
  rewrite utf8_chars_ascii by exact Hb.
  assert (Hl : len ([13; 10; 45; 45] ++ repeat 0 (length b)) = len b + 4).
  { rewrite len_app. unfold len. rewrite repeat_length. cbn [length]. lia. }
  rewrite Hl, fitting_ascii by lia.
  change (Z.to_nat 4) with 4%nat. cbn [firstn app].
  replace (Z.to_nat (4 + len b)) with (4 + length b)%nat
    by (unfold len; lia).
  cbn [skipn Nat.add].
  rewrite skipn_all2 by (rewrite repeat_length; lia).
  rewrite app_nil_r. reflexivity.
Qed.

(** ** The scanner *)

Section ScannerFacts.
Import MultipartByteParserState MultipartByteParser.

Ltac break_match :=
  match goal with
  | H : context [match ?x with _ => _ end] |- _ => destruct x eqn:?
  | |- context [match ?x with _ => _ end] => destruct x eqn:?
  end.

Ltac open_step :=
  unfold step, case_BOUNDARY, case_HEADER_NAME, case_HEADER_VALUE,
    case_PART_DATA, after_quick_scan.

Ltac setters :=
  unfold set_lookbehind, mark, clear, set_markers, setFlags, unsetFlags,
    resetFlags, set_flags, updateState, set_index in *.

Lemma emit_fields st k buf s e r st' evs :
  emit st k buf s e r = (st', evs) ->
  error st' = error st /\ state st' = state st /\ index st' = index st
  /\ flags st' = flags st.
Proof.
  unfold emit, mark, clear, set_markers. intros H.
  repeat break_match; inversion H; subst; simpl; auto.
Qed.

Ltac fields :=
  repeat match goal with
  | H : emit _ _ _ _ _ _ = (_, _) |- _ =>
      apply emit_fields in H; destruct H as (? & ? & ? & ?)
  end.

Lemma quick_scan_ge B chars chunk : forall fuel pos r,
  quick_scan B chars chunk fuel pos = Some r -> pos <= r.
Proof.
  induction fuel as [|fuel IH]; intros pos r H; simpl in H; [discriminate|].
  destruct (_ && _).
  - apply IH in H. unfold len in *. lia.
  - inversion H. lia.
Qed.

(** With a boundary that is not empty the [while] loop of the quick
    scan ends, and where the model stops the condition of the loop is
    false. *)
Lemma quick_scan_exit B chars chunk : forall fuel pos,
  0 < len B -> len chunk - pos <= Z.of_nat fuel ->
  exists r, quick_scan B chars chunk (S fuel) pos = Some r
    /\ (r <? len chunk) && negb (in_chars (at_ chunk r) chars) = false.
Proof.
  induction fuel as [|fuel IH]; intros pos HB Hf; cbn [quick_scan].
  - replace (pos <? len chunk) with false
      by (symmetry; apply Z.ltb_ge; lia).
    cbn [andb]. exists pos. split; [reflexivity|].
    replace (pos <? len chunk) with false
      by (symmetry; apply Z.ltb_ge; lia).
    reflexivity.
  - destruct ((pos <? len chunk)
              && negb (in_chars (at_ chunk pos) chars)) eqn:E.
    + apply IH; [exact HB|lia].
    + exists pos. split; [reflexivity|exact E].
Qed.

(** With an empty boundary the loop, once begun, does not end. *)
Lemma quick_scan_hangs chars chunk : forall fuel pos,
  (pos <? len chunk) && negb (in_chars (at_ chunk pos) chars) = true ->
  quick_scan [] chars chunk fuel pos = None.
Proof.
  induction fuel as [|fuel IH]; intros pos H; simpl; [reflexivity|].
  rewrite H. change (len (@nil Z)) with 0. rewrite Z.add_0_r.
  apply IH. exact H.
Qed.

(** A pass that reports an error does so in a state other than END. *)
Lemma step_fail B chars chunk st pos st' evs msg :
  step B chars chunk st pos = Raise st' evs msg ->
  state st' <> STATES.END /\ error st' = error st.
Proof.
  open_step. intros H.
  destruct (state st) eqn:Est;
    repeat break_match; try discriminate; inversion H; subst; fields;
    simpl in *; split; congruence.
Qed.

Lemma step_break_error B chars chunk st pos st' pos' evs :
  step B chars chunk st pos = Break st' pos' evs -> error st' = error st.
Proof.
  open_step. intros H.
  destruct (state st) eqn:Est;
    repeat break_match; try discriminate; inversion H; subst; clear H;
    fields; setters; simpl in *;
    repeat match goal with
    | H : (_, _) = (_, _) |- _ => inversion H; subst; clear H
    end; simpl in *; congruence.
Qed.

Lemma step_done B chars chunk st pos st' evs :
  step B chars chunk st pos = Done st' evs ->
  st' = st /\ evs = [] /\ state st = STATES.END.
Proof.
  open_step. intros H.
  destruct (state st) eqn:Est;
    repeat break_match; try discriminate; inversion H; subst; auto.
Qed.

(** The next position is further on, or it is the same one with the
    match index back at 0. *)
Lemma step_progress B chars chunk st pos st' pos' evs :
  step B chars chunk st pos = Break st' pos' evs ->
  pos <= pos'
  \/ (pos' = pos - 1 /\ (index st' >? 0) = false /\ (index st >? 0) = true).
Proof.
  open_step. intros H.
  destruct (state st) eqn:Est;
    repeat break_match; try discriminate; inversion H; subst; clear H;
    repeat match goal with
    | H : quick_scan _ _ _ _ _ = Some _ |- _ => apply quick_scan_ge in H
    end;
    try (left; lia);
    fields; setters; simpl in *;
    repeat match goal with
    | H : (_, _) = (_, _) |- _ => inversion H; subst; clear H
    end; simpl in *;
    try (left; lia);
    try (right; repeat split; try lia; try congruence;
         rewrite ?Z.gtb_ltb in *;
         rewrite ?Z.ltb_lt, ?Z.ltb_ge, ?Z.eqb_eq in *; lia).
Qed.

(** With a boundary that is not empty a pass returns. *)
Lemma step_returns B chars chunk st pos :
  0 < len B -> 0 <= pos ->
  step B chars chunk st pos <> Hang.
Proof.
  intros HB Hp.
  destruct (quick_scan_exit B chars chunk (length chunk)
              (pos + (len B - 1)) HB) as (r & Hr & _);
    [unfold len in *; lia|].
  open_step.
  destruct (state st) eqn:Est; rewrite ?Hr;
    repeat break_match; discriminate.
Qed.

Lemma flush_fields chunk st pos st' evs :
  flush chunk st pos = (st', evs) ->
  error st' = error st /\ state st' = state st.
Proof.
  unfold flush. intros H.
  repeat break_match; inversion H; subst; fields; split; congruence.
Qed.

(** With a boundary that is not empty the loop returns: the passes that
    [_transform] allows are enough. *)
Lemma loop_total B chars chunk : 0 < len B -> forall fuel st pos acc,
  0 <= pos -> mu chunk st pos <= Z.of_nat fuel ->
  exists r, loop B chars chunk fuel st pos acc = Some r.
Proof.
  intros HB.
  induction fuel as [|fuel IH]; intros st pos acc Hp Hmu; simpl.
  - destruct (pos <? len chunk) eqn:E.
    + apply Z.ltb_lt in E. unfold mu in Hmu.
      destruct (index st >? 0); lia.
    + destruct (flush chunk st pos); eauto.
  - destruct (pos <? len chunk) eqn:E.
    + apply Z.ltb_lt in E.
      pose proof (step_returns B chars chunk st pos HB Hp) as Hr.
      destruct (step B chars chunk st pos) as [st' pos' evs|? ?|? ? ?|] eqn:Es;
        eauto; [|congruence].
      apply step_progress in Es. apply IH; [lia|]. unfold mu in *.
      destruct Es as [Hle | (Hq & H1 & H2)].
      * destruct (index st' >? 0); destruct (index st >? 0); lia.
      * rewrite H1. rewrite H2 in Hmu. lia.
    + destruct (flush chunk st pos); eauto.
Qed.

Lemma transform_total this chunk :
  0 < len (boundary this) ->
  exists r, _transform this chunk = Some r.
Proof.
  intros HB.
  unfold _transform. destruct (hasErrored (_state this)); eauto.
  destruct (loop_total (boundary this) (boundaryChars this) chunk HB
              (2 * length chunk + 1) (_state this) 0 [])
    as [[[st evs] err] ->]; eauto; [lia|].
  unfold mu, len. destruct (index (_state this) >? 0); lia.
Qed.

Lemma transform_boundary this chunk this' evs err :
  _transform this chunk = Some (this', evs, err) ->
  boundary this' = boundary this /\ boundaryChars this' = boundaryChars this.
Proof.
  unfold _transform. intros H.
  destruct (hasErrored (_state this)).
  - inversion H; subst. auto.
  - destruct (loop _ _ _ _ _ _ _) as [[[st e] r]|]; [|discriminate].
    inversion H; subst. auto.
Qed.

Lemma loop_outcome B chars chunk : forall fuel st pos acc st' evs err,
  loop B chars chunk fuel st pos acc = Some (st', evs, err) ->
  error st = false ->
  (err = None /\ error st' = false)
  \/ (exists msg, err = Some (ParseError msg) /\ error st' = true
                  /\ state st' <> STATES.END).
Proof.
  induction fuel as [|fuel IH]; intros st pos acc st' evs err H He;
    simpl in H.
  - destruct (pos <? len chunk); [discriminate|].
    destruct (flush chunk st pos) eqn:Ef. inversion H; subst.
    apply flush_fields in Ef. left. split; [reflexivity|].
    destruct Ef; congruence.
  - destruct (pos <? len chunk).
    + destruct (step B chars chunk st pos) as [s1 p1 e1|s1 e1|s1 e1 m|]
        eqn:Es; [| | |discriminate].
      * apply IH in H; [exact H|].
        apply step_break_error in Es. congruence.
      * inversion H; subst. apply step_done in Es.
        destruct Es as (-> & _ & _). left. auto.
      * inversion H; subst. apply step_fail in Es. right.
        exists m. simpl. destruct Es. auto.
    + destruct (flush chunk st pos) eqn:Ef. inversion H; subst.
      apply flush_fields in Ef. left. split; [reflexivity|].
      destruct Ef; congruence.
Qed.

(** The early exit of [_transform]. *)
Lemma transform_errored this chunk :
  hasErrored (_state this) = true ->
  _transform this chunk = Some (this, [], None).
Proof.
  unfold _transform. intros ->. reflexivity.
Qed.

Lemma transform_outcome this chunk this' evs err :
  _transform this chunk = Some (this', evs, err) ->
  error (_state this) = false ->
  (err = None /\ error (_state this') = false)
  \/ (exists msg, err = Some (ParseError msg)
                  /\ error (_state this') = true
                  /\ state (_state this') <> STATES.END).
Proof.
  unfold _transform, hasErrored. intros H He. rewrite He in H.
  destruct (loop _ _ _ _ _ _ _) as [[[st e] r]|] eqn:El; [|discriminate].
  inversion H; subst. simpl. eapply loop_outcome; eauto.
Qed.

Lemma feed_errored : forall chunks this,
  hasErrored (_state this) = true ->
  Session.feed this chunks = Some (this, [], []).
Proof.
  induction chunks as [|chunk chunks IH]; intros this He; simpl.
  - reflexivity.
  - rewrite transform_errored by exact He. rewrite IH by exact He.
    reflexivity.
Qed.

(** In a session the scanner that has reported an error is never in
    the state END, and a scanner without the error flag has reported
    none. *)
Lemma feed_outcome : forall chunks this this' evs errs,
  Session.feed this chunks = Some (this', evs, errs) ->
  (error (_state this) = true -> state (_state this) <> STATES.END) ->
  (error (_state this') = true -> state (_state this') <> STATES.END)
  /\ (error (_state this') = false -> errs = []).
Proof.
  induction chunks as [|chunk chunks IH]; intros this this' evs errs H Hg;
    simpl in H.
  - inversion H; subst. auto.
  - destruct (error (_state this)) eqn:He.
    + rewrite transform_errored, feed_errored in H by exact He.
      inversion H; subst. split; [auto|]. congruence.
    + destruct (_transform this chunk) as [[[t1 e1] r1]|] eqn:Et;
        [|discriminate].
      apply transform_outcome in Et; [|exact He].
      destruct Et as [[-> He1] | (msg & -> & He1 & Hs1)].
      * destruct (Session.feed t1 chunks) as [[[t2 e2] r2]|] eqn:Ef;
          [|discriminate].
        inversion H; subst. clear H.
        apply IH in Ef; [exact Ef|congruence].
      * rewrite feed_errored in H by exact He1.
        inversion H; subst. split; [auto|congruence].
Qed.

Lemma feed_total : forall chunks this,
  0 < len (boundary this) ->
  exists r, Session.feed this chunks = Some r.
Proof.
  induction chunks as [|chunk chunks IH]; intros this HB; simpl; eauto.
  destruct (transform_total this chunk HB) as [[[t1 e1] r1] Ht].
  rewrite Ht. apply transform_boundary in Ht. destruct Ht as [Hb _].
  destruct (IH t1) as [[[t2 e2] r2] ->]; [rewrite Hb; exact HB|]. eauto.
Qed.

(** In the state END a chunk changes nothing and gives nothing. *)
Lemma END_absorbs this chunk :
  state (_state this) = STATES.END -> hasErrored (_state this) = false ->
  chunk <> [] ->
  _transform this chunk = Some (this, [], None).
Proof.
  intros Hs He Hc. unfold _transform. rewrite He.
  destruct chunk as [|c chunk]; [congruence|].
  replace (2 * length (c :: chunk) + 1)%nat
    with (S (2 * length (c :: chunk)))%nat by lia.
  cbn [loop].
  replace (0 <? len (c :: chunk)) with true
    by (symmetry; apply Z.ltb_lt; unfold len; simpl; lia).
  unfold step. rewrite Hs. destruct this; reflexivity.
Qed.

(** The scanner on its own, as its tests drive it: whatever chunks it
    is given, it returns from each of them, and when [end()] is called
    on it: if its state is END the listener of ['finish'] emits ['end'],
    leaves the scanner as it is, and no error has been reported; in any
    other state it emits the parse error "Unexpected end of multipart
    message!" instead of ['end'] and marks the scanner as errored. *)
Lemma scanner_truncated (b : list Z) (chunks : list Buffer) :
  exists this evs errs,
    Session.feed (new b) chunks = Some (this, evs, errs)
    /\ if STATES.eqb (state (_state this)) STATES.END
       then finish this = (this, end_) /\ errs = []
       else snd (finish this) = error_ unexpected_end
            /\ hasErrored (_state (fst (finish this))) = true.
Proof.
  destruct (feed_total chunks (new b)) as [[[this evs] errs] H].
  { unfold new. cbn [boundary]. rewrite len_constructBoundary.
    pose proof (len_nonneg b). lia. }
  exists this, evs, errs. split; [exact H|].
  apply feed_outcome in H; [|simpl; discriminate].
  destruct H as [Hg Hn]. unfold finish.
  destruct (STATES.eqb (state (_state this)) STATES.END) eqn:E; simpl.
  - split; [reflexivity|]. apply Hn.
    destruct (error (_state this)) eqn:He; [|reflexivity].
    exfalso. apply Hg; [reflexivity|].
    destruct (state (_state this)); try discriminate. reflexivity.
  - split; reflexivity.
Qed.

(** The bare bytes of a boundary, as in the tests of the scanner: the
    input ends in the state BOUNDARY and the listener of ['finish']
    reports the error. *)
Example bare_boundary_is_truncated :
  match Session.feed (new (str "boundary")) [str "--boundary"] with
  | Some (this, evs, errs) =>
      state (_state this) = STATES.BOUNDARY /\ evs = [] /\ errs = []
      /\ snd (finish this) = error_ unexpected_end
  | None => False
  end.
Proof.
  vm_compute. repeat split; reflexivity.
Qed.

End ScannerFacts.
(** ** Arithmetic of the base64 offset *)

Lemma int32_small n : - 2 ^ 31 <= n < 2 ^ 31 -> int32 n = n.
Proof.
  intros H. unfold int32.
  change (2 ^ 31) with 2147483648 in *. change (2 ^ 32) with 4294967296.
  rewrite Z.mod_small; lia.
Qed.

(** [(n >> 2) << 2] is the largest multiple of 4 that is at most [n]. *)
Lemma offset_multiple_of_4 n :
  0 <= n < 2 ^ 31 -> shl (sar n 2) 2 = 4 * (n / 4).
Proof.
  intros H. unfold shl, sar.
  assert (E31 : 2 ^ 31 = 2147483648) by reflexivity.
  assert (0 <= n / 4 <= n).
  { split; [apply Z.div_pos; lia|].
    apply Z.div_le_upper_bound; lia. }
  pose proof (Z.mul_div_le n 4).
  rewrite E31 in H.
  rewrite (int32_small n) by (rewrite E31; lia).
  rewrite (Z.shiftr_div_pow2 n 2) by lia. change (2 ^ 2) with 4.
  rewrite !(int32_small (n / 4)) by (rewrite E31; lia).
  rewrite (Z.shiftl_mul_pow2 (n / 4) 2) by lia. change (2 ^ 2) with 4.
  rewrite int32_small; [lia|rewrite E31; lia].
Qed.

Lemma skipn_short (text : list Z) :
  len (skipn (Z.to_nat (4 * (len text / 4))) text) < 4.
Proof.
  unfold len. rewrite length_skipn.
  assert (0 <= Z.of_nat (length text)) by lia.
  pose proof (Z.mul_div_le (Z.of_nat (length text)) 4).
  pose proof (Z.mod_pos_bound (Z.of_nat (length text)) 4).
  pose proof (Z.div_mod (Z.of_nat (length text)) 4).
  lia.
Qed.

Lemma Ok_inj {A : Type} (a b : A) : Ok a = Ok b -> a = b.
Proof. intros H. injection H as H. exact H. Qed.

(** ** The assembler *)

Section AssemblerFacts.
Import MultipartParser.

Variable toLowerCase : list Z -> list Z.
Variable _getFieldName : list Z -> option (list Z).
Variable _getFilename : list Z -> option (list Z).
Variable _getContentId : list Z -> option (list Z).
Variable base64 : list Z -> Buffer.
Variable JSON_parse : list Z -> option json.

Let on_ := on toLowerCase _getFieldName _getFilename _getContentId base64.
Let dispatch_ :=
  dispatch toLowerCase _getFieldName _getFilename _getContentId base64.
Let write_ :=
  _write toLowerCase _getFieldName _getFilename _getContentId base64.
Let writes_ :=
  writes toLowerCase _getFieldName _getFilename _getContentId base64.
Ltac proj :=
  cbn [_error _curPartState parts maxParts maxPartSize maxTotalSize
       boundary _byteParser _totalSize ending
       set_curPartState set_parts set_totalSize set_byteParser set_curPart
       set_ending set_part
       _emitError fst snd negb
       name filename contentId contentType transferEncoding headers
       _headerName partSize tmp
       Part.type Part.value Part.name Part.filename Part.transferEncoding
       Part.contentType Part.contentId Part.headers Part.written
       Part.ended Part.set_value app length] in *.

Ltac ok_inv H :=
  apply Ok_inj, pair_equal_spec in H; destruct H as [<- <-].

Lemma dispatch_cons this e evs :
  dispatch_ this (e :: evs) =
  match on_ this e with
  | Throws w => Throws w
  | Unfollowed w => Unfollowed w
  | Ok (this1, out1) =>
      match dispatch_ this1 evs with
      | Throws w => Throws w
      | Unfollowed w => Unfollowed w
      | Ok (this2, out2) => Ok (this2, out1 ++ out2)
      end
  end.
Proof. reflexivity. Qed.

(** [wrapInErrorChecker]: after an error no listener runs. *)
Lemma on_gate this e : _error this = true -> on_ this e = Ok (this, []).
Proof.
  intros H. unfold on_, on, wrapInErrorChecker. rewrite H.
  destruct e; reflexivity.
Qed.

Lemma dispatch_gate : forall evs this,
  _error this = true -> dispatch_ this evs = Ok (this, []).
Proof.
  induction evs as [|e evs IH]; intros this H; [reflexivity|].
  rewrite dispatch_cons, on_gate by exact H.
  rewrite IH by exact H. reflexivity.
Qed.

Lemma dispatch_app : forall a b this,
  dispatch_ this (a ++ b) =
  match dispatch_ this a with
  | Ok (this1, out1) =>
      match dispatch_ this1 b with
      | Ok (this2, out2) => Ok (this2, out1 ++ out2)
      | Throws w => Throws w
      | Unfollowed w => Unfollowed w
      end
  | Throws w => Throws w
  | Unfollowed w => Unfollowed w
  end.
Proof.
  unfold dispatch_.
  induction a as [|e a IH]; intros b this; simpl.
  - destruct (dispatch _ _ _ _ _ this b) as [[t o]| |]; reflexivity.
  - destruct (on _ _ _ _ _ this e) as [[t1 o1]| |]; try reflexivity.
    rewrite IH.
    destruct (dispatch _ _ _ _ _ t1 a) as [[t2 o2]| |]; try reflexivity.
    destruct (dispatch _ _ _ _ _ t2 b) as [[t3 o3]| |]; try reflexivity.
    rewrite app_assoc. reflexivity.
Qed.

Lemma curPart_last this ps0 p :
  parts this = ps0 ++ [p] -> _curPart this = Some p.
Proof.
  intros H. unfold _curPart. rewrite H, map_app. simpl.
  apply last_last.
Qed.

Lemma header_pair this h :
  in_headers this ->
  exists this',
    dispatch_ this (header_events h) = Ok (this', [])
    /\ in_headers this' /\ parts this' = parts this
    /\ maxParts this' = maxParts this.
Proof.
  intros [He [c Hc]]. unfold dispatch_, header_events. simpl.
  unfold wrapInErrorChecker. rewrite He. simpl.
  unfold _onHeaderName. rewrite Hc. simpl.
  unfold _onHeaderValue. simpl. rewrite He. simpl.
  eexists. split; [reflexivity|].
  repeat split; simpl; eauto.
Qed.

Lemma header_pairs : forall hs this,
  in_headers this ->
  exists this',
    dispatch_ this (flat_map header_events hs) = Ok (this', [])
    /\ in_headers this' /\ parts this' = parts this
    /\ maxParts this' = maxParts this.
Proof.
  induction hs as [|h hs IH]; intros this H.
  - exists this. simpl. auto.
  - cbn [flat_map]. rewrite dispatch_app.
    destruct (header_pair this h H) as (t1 & -> & H1 & Hp1 & Hm1).
    destruct (IH t1 H1) as (t2 & -> & H2 & Hp2 & Hm2).
    exists t2. repeat split; try apply H2; congruence.
Qed.

(** [_onPartBegin]: the check on the number of parts. *)
Lemma partBegin_cases this :
  _error this = false ->
  if len (parts this) >=? maxParts this - 1 then
    on_ this MultipartByteParser.partBegin =
    Ok (fst (_emitError this TooManyParts), [error TooManyParts])
  else
    exists this',
      on_ this MultipartByteParser.partBegin = Ok (this', [])
      /\ in_headers this' /\ parts this' = parts this
      /\ maxParts this' = maxParts this.
Proof.
  intros He. unfold on_, on, wrapInErrorChecker, _onPartBegin.
  rewrite He. simpl.
  destruct (len (parts this) >=? maxParts this - 1); [reflexivity|].
  eexists. split; [reflexivity|].
  unfold in_headers. simpl. eauto.
Qed.

Lemma headersEnd_ok this :
  in_headers this ->
  exists this' out,
    on_ this MultipartByteParser.headersEnd = Ok (this', out)
    /\ in_body this' /\ len (parts this') = len (parts this) + 1
    /\ maxParts this' = maxParts this
    /\ (forall e, ~ In (error e) out).
Proof.
  intros [He [c Hc]]. unfold on_, on, wrapInErrorChecker, _onHeadersEnd.
  rewrite He, Hc. simpl.
  eexists. eexists. split; [reflexivity|].
  unfold in_body. simpl. repeat split; eauto.
  - unfold len. rewrite length_app. simpl. lia.
  - intros e. unfold handlePart.
    destruct (Part.TYPES.eqb _ _); simpl; intuition discriminate.
Qed.

Lemma partData_cases this chunk :
  in_body this ->
  exists this' out,
    on_ this (MultipartByteParser.partData chunk) = Ok (this', out)
    /\ maxParts this' = maxParts this
    /\ len (parts this') = len (parts this)
    /\ ((in_body this' /\ out = []) \/ halted this' out).
Proof.
  intros (He & [c Hc] & (ps0 & p & Hp & Hended)).
  unfold on_, on, wrapInErrorChecker, _onPartData.
  rewrite He, Hc. proj.
  destruct (gt _ _).
  { eexists. eexists. split; [reflexivity|]. proj.
    repeat split. right. split; [reflexivity|].
    eexists. split; [reflexivity|discriminate]. }
  destruct (_ >? _).
  { eexists. eexists. split; [reflexivity|]. proj.
    repeat split. right. split; [reflexivity|].
    eexists. split; [reflexivity|discriminate]. }
  erewrite curPart_last by (proj; exact Hp).
  destruct (is_passthrough _).
  { unfold Part.write. rewrite Hended.
    eexists. eexists. split; [reflexivity|]. proj.
    rewrite Hp, removelast_last. unfold len. rewrite !length_app. proj.
    repeat split. left. split; [|reflexivity].
    unfold in_body. proj. rewrite Hp, removelast_last.
    repeat split; eauto. }
  destruct (is_base64 _).
  { unfold Part.write. rewrite Hended.
    eexists. eexists. split; [reflexivity|]. proj.
    rewrite Hp, removelast_last. unfold len. rewrite !length_app. proj.
    repeat split. left. split; [|reflexivity].
    unfold in_body. proj. rewrite Hp, removelast_last.
    repeat split; eauto. }
  eexists. eexists. split; [reflexivity|]. proj.
  repeat split. right. split; [reflexivity|].
  eexists. split; [reflexivity|discriminate].
Qed.

Lemma partData_list : forall chunks this,
  in_body this ->
  exists this' out,
    dispatch_ this (map MultipartByteParser.partData chunks)
    = Ok (this', out)
    /\ maxParts this' = maxParts this
    /\ len (parts this') = len (parts this)
    /\ ((in_body this' /\ out = []) \/ halted this' out).
Proof.
  induction chunks as [|chunk chunks IH]; intros this H.
  - exists this, []. split; [reflexivity|].
    repeat split. left. split; [exact H|reflexivity].
  - destruct (partData_cases this chunk H)
      as (t1 & o1 & E1 & Hm1 & Hl1 & [[Hb1 ->] | Hh1]).
    + destruct (IH t1 Hb1) as (t2 & o2 & E2 & Hm2 & Hl2 & H2).
      exists t2, o2. cbn [map]. rewrite dispatch_cons, E1, E2.
      split; [reflexivity|]. split; [congruence|]. split; [congruence|].
      exact H2.
    + exists t1, o1. cbn [map]. rewrite dispatch_cons, E1.
      rewrite dispatch_gate by apply Hh1.
      rewrite app_nil_r. split; [reflexivity|]. split; [assumption|].
      split; [assumption|]. right. exact Hh1.
Qed.

Lemma partEnd_cases this :
  in_body this ->
  exists this' out,
    on_ this MultipartByteParser.partEnd = Ok (this', out)
    /\ maxParts this' = maxParts this
    /\ len (parts this') = len (parts this)
    /\ ((_error this' = false /\ out = []) \/ halted this' out).
Proof.
  intros (He & [c Hc] & (ps0 & p & Hp & Hended)).
  unfold on_, on, wrapInErrorChecker, _onPartEnd, end_curPart.
  rewrite He. simpl. erewrite curPart_last by exact Hp.
  destruct (is_passthrough _) eqn:Ep; simpl.
  - unfold Part.end_. rewrite Hended.
    destruct (Part.TYPES.eqb _ _);
      (eexists; eexists; split; [reflexivity|]); proj;
      rewrite ?Hp, ?removelast_last;
      unfold len; rewrite ?length_app; simpl;
      (repeat split; left; split; [exact He|reflexivity]).
  - destruct (is_base64 _) eqn:Eb; simpl.
    + rewrite Hc. unfold Part.end_. rewrite Hended.
      destruct (Part.TYPES.eqb _ _);
        (eexists; eexists; split; [reflexivity|]); proj;
        rewrite ?Hp, ?removelast_last;
        unfold len; rewrite ?length_app; simpl;
        (repeat split; left; split; [exact He|reflexivity]).
    + eexists. eexists. split; [reflexivity|]. simpl.
      repeat split. right. split; [reflexivity|].
      eexists. split; [reflexivity|discriminate].
Qed.

Lemma halted_other this out :
  halted this out ->
  ~ In (error TooManyParts) out /\ exists e, In (error e) out.
Proof.
  intros [_ (e & -> & Hne)]. split.
  - simpl. intros [H|[]]. congruence.
  - exists e. simpl. auto.
Qed.

(** One part of a message.  Either the limit on the number of parts
    stops it where it begins, or it is taken in and another error may
    stop it. *)
Lemma dispatch_part this p :
  _error this = false ->
  exists this' out,
    dispatch_ this (events_of_part p) = Ok (this', out)
    /\ maxParts this' = maxParts this
    /\ if len (parts this) >=? maxParts this - 1 then
         parts this' = parts this /\ _error this' = true
         /\ out = [error TooManyParts]
       else
         ~ In (error TooManyParts) out
         /\ len (parts this') = len (parts this) + 1
         /\ (_error this' = false \/ exists e, In (error e) out).
Proof.
  intros He. unfold events_of_part. rewrite dispatch_cons.
  pose proof (partBegin_cases this He) as Hb.
  destruct (len (parts this) >=? maxParts this - 1).
  { rewrite Hb. rewrite dispatch_gate by reflexivity.
    eexists. eexists. split; [reflexivity|]. proj. auto. }
  destruct Hb as (t1 & -> & H1 & Hp1 & Hm1).
  rewrite dispatch_app.
  destruct (header_pairs (pe_headers p) t1 H1)
    as (t2 & -> & H2 & Hp2 & Hm2).
  rewrite dispatch_cons.
  destruct (headersEnd_ok t2 H2) as (t3 & o3 & -> & H3 & Hl3 & Hm3 & Ho3).
  rewrite dispatch_app.
  destruct (partData_list (pe_data p) t3 H3)
    as (t4 & o4 & -> & Hm4 & Hl4 & H4).
  assert (Hlen : len (parts t4) = len (parts this) + 1) by congruence.
  assert (Hmax : maxParts t4 = maxParts this) by congruence.
  destruct H4 as [[Hb4 ->] | Hh4].
  - rewrite dispatch_cons.
    destruct (partEnd_cases t4 Hb4) as (t5 & o5 & -> & Hm5 & Hl5 & H5).
    change (dispatch_ t5 []) with (Ok (t5, @nil output)).
    eexists. eexists. split; [reflexivity|].
    split; [congruence|].
    split; [|split; [congruence|]].
    + cbn [app]. rewrite app_nil_r, in_app_iff.
      intros [H|H]; [exact (Ho3 _ H)|].
      destruct H5 as [[_ ->] | H5]; [destruct H|].
      apply halted_other in H5. tauto.
    + destruct H5 as [[H5 _] | H5]; [left; exact H5|].
      right. apply halted_other in H5. destruct H5 as [_ [e H5]].
      exists e. cbn [app]. rewrite app_nil_r, in_app_iff. auto.
  - rewrite dispatch_gate by apply Hh4.
    eexists. eexists. split; [reflexivity|].
    split; [congruence|].
    apply halted_other in Hh4. destruct Hh4 as [Hn [e Hin]].
    split; [|split; [congruence|]].
    + cbn [app]. rewrite !app_nil_r, in_app_iff.
      intros [H|H]; [exact (Ho3 _ H)|tauto].
    + right. exists e. cbn [app]. rewrite !app_nil_r, in_app_iff. auto.
Qed.

Lemma dispatch_message : forall ps this,
  _error this = false ->
  exists this' out,
    dispatch_ this (events_of_message ps) = Ok (this', out)
    /\ (len (parts this) + len ps <= maxParts this - 1 ->
        ~ In (error TooManyParts) out)
    /\ (maxParts this - 1 < len (parts this) + len ps ->
        len (parts this) <= maxParts this - 1 ->
        (forall e, In (error e) out -> e = TooManyParts) ->
        exists pre,
          out = pre ++ [error TooManyParts]
          /\ len (parts this') = maxParts this - 1
          /\ _error this' = true).
Proof.
  induction ps as [|p ps IH]; intros this He.
  - exists this, []. split; [reflexivity|]. split.
    + intros _ [].
    + unfold len. simpl. lia.
  - unfold events_of_message. cbn [flat_map]. rewrite dispatch_app.
    destruct (dispatch_part this p He) as (t1 & o1 & -> & Hm1 & H1).
    fold (events_of_message ps).
    assert (Hlen : len (p :: ps) = len ps + 1)
      by (unfold len; simpl length; lia).
    rewrite Hlen.
    destruct (len (parts this) >=? maxParts this - 1) eqn:Ege.
    + destruct H1 as (Hp1 & He1 & ->).
      rewrite dispatch_gate by exact He1.
      eexists. eexists. split; [reflexivity|].
      apply Z.geb_le in Ege. split.
      * intros Hle. exfalso. unfold len in *. lia.
      * intros _ Hle _. exists []. rewrite Hp1.
        split; [reflexivity|]. split; [lia|exact He1].
    + destruct H1 as (Hn1 & Hl1 & H1).
      assert (Hlt : len (parts this) < maxParts this - 1).
      { destruct (Z.geb_spec (len (parts this)) (maxParts this - 1));
          [discriminate|lia]. }
      destruct (_error t1) eqn:He1.
      * destruct H1 as [H1 | [e Hin]]; [discriminate|].
        rewrite dispatch_gate by exact He1.
        eexists. eexists. split; [reflexivity|].
        rewrite app_nil_r. split; [intros _; exact Hn1|].
        intros _ _ Hall. exfalso. apply Hn1.
        rewrite <- (Hall e Hin). exact Hin.
      * destruct (IH t1 He1) as (t2 & o2 & -> & Ha & Hb).
        rewrite Hm1, Hl1 in *.
        eexists. eexists. split; [reflexivity|]. split.
        -- intros Hle. rewrite in_app_iff. intros [H|H]; [tauto|].
           apply Ha; [lia|exact H].
        -- intros Hgt Hle Hall.
           destruct Hb as (pre & -> & Hl2 & He2); [lia|lia| |].
           { intros e Hin. apply Hall. rewrite in_app_iff. auto. }
           exists (o1 ++ pre). rewrite app_assoc. auto.
Qed.


(** *** The listeners of ['end'] and those of the scanner *)

Lemma alike_refl p : alike p p.
Proof. reflexivity. Qed.













Let on_end_ := on_end JSON_parse.




Let session_ :=
  session toLowerCase _getFieldName _getFilename _getContentId base64
    JSON_parse.


Lemma on_end_out this i this' out :
  on_end_ this i = (this', out) ->
  _error this' = _error this /\ ending this' = ending this
  /\ (out = [] \/ out = [part i]).
Proof.
  unfold on_end_, on_end. intros H.
  destruct (nth_error (parts this) i) as [q|].
  - destruct (Part.type q); inversion H; subst; proj; auto.
  - inversion H; subst. auto.
Qed.

(** After an error, in a session: the events of the scanner reach no
    listener and give nothing; what is still given out is the parts whose
    ['end'] was due when the error came, and no error. *)
Lemma session_after_error : forall hs this,
  _error this = true ->
  exists this' out,
    session_ this hs = Ok (this', out)
    /\ _error this' = true
    /\ incl (ending this') (ending this)
    /\ Forall (fun o => exists i, o = part i /\ In i (ending this)) out.
Proof.
  induction hs as [|h hs IH]; intros this He.
  - exists this, []. split; [reflexivity|]. split; [exact He|].
    split; [apply incl_refl|constructor].
  - unfold session_ in *. destruct h as [e|i]; cbn [session happens].
    + fold on_. rewrite on_gate by exact He.
      destruct (IH this He) as (this' & out & -> & H1 & H2 & H3).
      exists this', out. auto.
    + unfold emit_end.
      destruct (existsb (Nat.eqb i) (ending this)) eqn:Ei.
      * destruct (on_end JSON_parse _ i) as [t1 o1] eqn:E1.
        fold on_end_ in E1. apply on_end_out in E1.
        destruct E1 as (He1 & Hq1 & Ho1). proj.
        destruct (IH t1) as (this' & out & -> & H1 & H2 & H3);
          [congruence|].
        assert (Hsub : incl (ending t1) (ending this)).
        { rewrite Hq1. intros j Hj. apply filter_In in Hj. apply Hj. }
        exists this', (o1 ++ out). split; [reflexivity|].
        split; [exact H1|]. split.
        { intros j Hj. apply Hsub, H2, Hj. }
        apply Forall_app. split.
        { apply existsb_exists in Ei. destruct Ei as (j & Hj & Eij).
          apply Nat.eqb_eq in Eij. subst j.
          destruct Ho1 as [-> | ->]; repeat constructor.
          exists i. auto. }
        eapply Forall_impl; [|exact H3]. cbv beta.
        intros o (j & -> & Hj). exists j. auto.
      * destruct (IH this He) as (this' & out & -> & H1 & H2 & H3).
        exists this', out. auto.
Qed.

(** *** At most one error *)






(** C8.  At the end of a part of kind Object whose encoding is
    supported, [_onPartEnd] ends the part, after the decoding of what is
    left of a base64 body has been written to it, and raises no error;
    the ['end'] of the part is then due, and when it comes the listener
    of ['end'] gives the part to the listeners of the decoder, raising no
    error: the value of the part is what [JSON.parse] makes of all the
    bytes that have been written to it, read as UTF-8, and the empty
    object when [JSON.parse] throws. *)
Theorem json_fallback this ps0 p c :
  _error this = false -> _curPartState this = Some c ->
  parts this = ps0 ++ [p] -> Part.ended p = false ->
  Part.type p = Part.TYPES.OBJECT ->
  is_passthrough (Part.transferEncoding p)
  || is_base64 (Part.transferEncoding p) = true ->
  let last_bytes :=
    if is_passthrough (Part.transferEncoding p) then []
    else [base64 match tmp c with
                 | Some s => s
                 | None => str "undefined"
                 end] in
  let text := toString_utf8 (concat (Part.written p ++ last_bytes)) in
  let v := match JSON_parse text with
           | Some v => v
           | None => JObject []
           end in
  exists this1 this',
    _onPartEnd base64 this = Ok (this1, [])
    /\ _error this1 = false
    /\ ending this1 = ending this ++ [length ps0]
    /\ on_end_ this1 (length ps0) = (this', [part (length ps0)])
    /\ _error this' = false
    /\ parts this' = ps0 ++ [completed (written_to p last_bytes) v].
Proof.
  intros He Hc Hp Hended Hty Henc last_bytes text v.
  unfold _onPartEnd, end_curPart, set_curPart.
  erewrite curPart_last by exact Hp. rewrite Henc.
  assert (Hnth : forall q : Part.t,
             nth_error (ps0 ++ [q]) (length ps0) = Some q).
  { intros q. rewrite nth_error_app2 by lia.
    rewrite Nat.sub_diag. reflexivity. }
  assert (Hrep : forall q q' : Part.t,
             replace_nth (ps0 ++ [q]) (length ps0) q' = ps0 ++ [q']).
  { intros q q'. clear. induction ps0 as [|x l IH]; [reflexivity|].
    cbn. rewrite IH. reflexivity. }
  assert (Hidx : forall q : Part.t,
             (length (ps0 ++ [q]) - 1)%nat = length ps0).
  { intros q. rewrite length_app. cbn [length]. lia. }
  unfold on_end_, on_end, Part.end_. rewrite Hended.
  subst v text last_bytes.
  destruct (is_passthrough (Part.transferEncoding p)).
  - eexists. eexists. split.
    { rewrite Hty. cbn [Part.TYPES.eqb]. proj.
      rewrite Hp, removelast_last, Hidx. reflexivity. }
    proj. split; [exact He|]. split; [reflexivity|].
    rewrite Hnth. proj. rewrite ?Hty. unfold set_part. proj.
    rewrite Hrep, !app_nil_r.
    split; [reflexivity|]. proj. split; [exact He|].
    unfold completed, written_to. proj.
    rewrite ?Hty, !app_nil_r. reflexivity.
  - rewrite Hc. eexists. eexists. split.
    { rewrite Hty. cbn [Part.TYPES.eqb]. proj.
      rewrite Hp, removelast_last, Hidx. reflexivity. }
    proj. split; [exact He|]. split; [reflexivity|].
    rewrite Hnth. proj. rewrite ?Hty. unfold set_part. proj.
    rewrite Hrep.
    split; [reflexivity|]. proj. split; [exact He|].
    unfold completed, written_to. proj. rewrite ?Hty. reflexivity.
Qed.

(** *** Base64 parts *)

(** One fragment of a base64 part, within the limits. *)
Lemma base64_step this c p ps0 n pending chunk :
  _error this = false -> _curPartState this = Some c ->
  tmp c = Some pending -> partSize c = Some n ->
  parts this = ps0 ++ [p] -> Part.ended p = false ->
  Part.transferEncoding p = Some (str "base64") ->
  n + len chunk <= maxPartSize this ->
  _totalSize this + len chunk <= maxTotalSize this ->
  len pending + len chunk < 2 ^ 31 ->
  let text := pending ++ toString_ascii chunk in
  let k := Z.to_nat (4 * (len text / 4)) in
  exists this' c' p',
    on_ this (MultipartByteParser.partData chunk) = Ok (this', [])
    /\ _error this' = false
    /\ _curPartState this' = Some c'
    /\ tmp c' = Some (skipn k text)
    /\ partSize c' = Some (n + len chunk)
    /\ _totalSize this' = _totalSize this + len chunk
    /\ maxPartSize this' = maxPartSize this
    /\ maxTotalSize this' = maxTotalSize this
    /\ parts this' = ps0 ++ [p']
    /\ Part.ended p' = false
    /\ Part.transferEncoding p' = Some (str "base64")
    /\ Part.written p' = Part.written p ++ [base64 (firstn k text)].
Proof.
  intros He Hc Ht Hn Hp Hended Henc H1 H2 H3 text k.
  unfold on_, on, wrapInErrorChecker, _onPartData.
  rewrite He, Hc. proj. rewrite Hn, Ht. unfold plus, gt.
  replace (n + len chunk >? maxPartSize this) with false
    by (symmetry; rewrite Z.gtb_ltb; apply Z.ltb_ge; lia).
  replace (_totalSize this + len chunk >? maxTotalSize this) with false
    by (symmetry; rewrite Z.gtb_ltb; apply Z.ltb_ge; lia).
  erewrite curPart_last by (proj; exact Hp).
  rewrite Henc.
  change (is_passthrough (Some (str "base64"))) with false.
  change (is_base64 (Some (str "base64"))) with true.
  cbv iota. unfold Part.write. rewrite Hended.
  fold text.
  assert (Hlen : len text = len pending + len chunk).
  { unfold text, len, toString_ascii.
    rewrite length_app, length_map. lia. }
  rewrite offset_multiple_of_4
    by (rewrite Hlen; unfold len in *; lia).
  fold k.
  eexists. eexists. eexists. split; [reflexivity|]. proj.
  rewrite Hp, removelast_last. repeat split; auto.
Qed.

(** The fragments of a base64 part and its end, within the size
    limits: the listeners raise no error, and what is written to the part
    is, for each fragment, the decoding of the longest prefix, of a length
    that is a multiple of 4, of the pending text followed by the fragment
    read as ASCII, the rest being kept, and at the end of the part the
    decoding of what is left. *)
Lemma base64_mechanism : forall chunks this c p ps0 n pending,
  _error this = false -> _curPartState this = Some c ->
  tmp c = Some pending -> partSize c = Some n ->
  parts this = ps0 ++ [p] -> Part.ended p = false ->
  Part.transferEncoding p = Some (str "base64") ->
  n + len (concat chunks) <= maxPartSize this ->
  _totalSize this + len (concat chunks) <= maxTotalSize this ->
  len pending < 4 ->
  Forall (fun chunk => len chunk < 2 ^ 31 - 4) chunks ->
  exists this' p',
    dispatch_ this
      (map MultipartByteParser.partData chunks
       ++ [MultipartByteParser.partEnd])
    = Ok (this', [])
    /\ _error this' = false
    /\ parts this' = ps0 ++ [p']
    /\ Part.ended p' = true
    /\ Part.written p' =
       Part.written p ++ base64_by_spec base64 pending chunks.
Proof.
  induction chunks as [|chunk chunks IH];
    intros this c p ps0 n pending He Hc Ht Hn Hp Hended Henc H1 H2 H3 H4.
  - cbn [map app]. rewrite dispatch_cons.
    unfold on_, on, wrapInErrorChecker, _onPartEnd. rewrite He. proj.
    erewrite curPart_last by exact Hp. rewrite Henc.
    change (is_passthrough (Some (str "base64"))) with false.
    change (is_base64 (Some (str "base64"))) with true.
    cbv iota. cbn [orb]. rewrite Hc, Ht.
    unfold end_curPart, set_curPart, Part.end_. rewrite Hended.
    change (dispatch_ ?t []) with (Ok (t, @nil output)).
    destruct (Part.TYPES.eqb _ _); proj;
      (eexists; eexists; split; [reflexivity|]); proj;
      rewrite ?Hp, ?removelast_last;
      (split; [exact He|]); (split; [reflexivity|]); proj;
      split; reflexivity.
  - assert (Hcat : len (concat (chunk :: chunks))
                   = len chunk + len (concat chunks)).
    { unfold len. cbn [concat]. rewrite length_app. lia. }
    rewrite Hcat in H1, H2.
    assert (0 <= len (concat chunks)) by (unfold len; lia).
    inversion H4 as [|? ? Hc1 Hcs]; subst.
    destruct (base64_step this c p ps0 n pending chunk)
      as (t1 & c1 & p1 & E1 & He1 & Hc1' & Ht1 & Hn1 & Hs1 & Hm1 & Hm1'
          & Hp1 & Hended1 & Henc1 & Hw1); auto; try lia.
    cbn [map app]. rewrite dispatch_cons, E1.
    destruct (IH t1 c1 p1 ps0 (n + len chunk) _ He1 Hc1' Ht1 Hn1 Hp1
                Hended1 Henc1)
      as (t2 & p2 & E2 & He2 & Hp2 & Hended2 & Hw2);
      try lia; try assumption.
    { apply skipn_short. }
    rewrite E2. exists t2, p2. split; [reflexivity|].
    repeat split; auto.
    rewrite Hw2, Hw1, <- app_assoc. reflexivity.
Qed.


(** *** Once the session is closed *)

(** [_write] on a closed session: the chunk is dropped. *)
Lemma write_closed this chunk :
  closed this = true -> write_ this chunk = Ok (this, []).
Proof.
  unfold closed, write_, _write. intros H.
  destruct (_error this) eqn:He; [reflexivity|]. cbn [orb] in H.
  destruct (_byteParser this) as [bp|] eqn:Ebp; [|discriminate].
  rewrite transform_errored by exact H.
  cbn [dispatch]. rewrite He. cbn [app].
  f_equal. f_equal. destruct this. cbn in *. subst. reflexivity.
Qed.

Lemma writes_closed : forall chunks this,
  closed this = true -> writes_ this chunks = Ok (this, []).
Proof.
  induction chunks as [|chunk chunks IH]; intros this H; [reflexivity|].
  unfold writes_ in *. cbn [writes]. fold write_.
  rewrite write_closed by exact H. rewrite IH by exact H. reflexivity.
Qed.

End AssemblerFacts.
(** ** The decoder of base64 on a text without breaks *)

Section CleanBase64.
Import Base64.

(** A character of the alphabet of base64. *)
Let clean (c : Z) : Prop := sextet c <> None.

Lemma clean_not_padding c : clean c -> (c =? 61) = false.
Proof.
  intros H. destruct (Z.eqb_spec c 61) as [->|]; [|reflexivity].
  exfalso. apply H. reflexivity.
Qed.

Lemma clean_ascii c : clean c -> Z.land c 127 = c.
Proof.
  unfold clean, sextet. intros H.
  assert (Hc : 0 <= c < 128).
  { repeat match type of H with
    | (if ?x then _ else _) <> _ => destruct x eqn:?
    end; try congruence;
    repeat match goal with
    | E : _ && _ = true |- _ => apply andb_prop in E; destruct E
    | E : _ || _ = true |- _ => apply orb_prop in E; destruct E
    | E : (_ <=? _) = true |- _ => apply Z.leb_le in E
    | E : (_ =? _) = true |- _ => apply Z.eqb_eq in E
    end; lia. }
  change 127 with (Z.ones 7). rewrite Z.land_ones by lia.
  apply Z.mod_small. change (2 ^ 7) with 128. lia.
Qed.

Lemma toString_ascii_clean chunk :
  Forall clean chunk -> toString_ascii chunk = chunk.
Proof.
  unfold toString_ascii.
  induction 1 as [|c chunk Hc _ IH]; [reflexivity|].
  cbn [map]. rewrite IH, (clean_ascii c Hc). reflexivity.
Qed.

Lemma sextets_app a b :
  Forall clean a -> sextets (a ++ b) = sextets a ++ sextets b.
Proof.
  induction 1 as [|c a Hc _ IH]; [reflexivity|].
  cbn [app sextets]. rewrite (clean_not_padding c Hc).
  unfold clean in Hc. destruct (sextet c); [|congruence].
  rewrite IH. reflexivity.
Qed.

Lemma sextets_length a : Forall clean a -> length (sextets a) = length a.
Proof.
  induction 1 as [|c a Hc _ IH]; [reflexivity|].
  cbn [sextets]. rewrite (clean_not_padding c Hc).
  unfold clean in Hc. destruct (sextet c); [|congruence].
  cbn [length]. rewrite IH. reflexivity.
Qed.

Lemma bytes_app : forall k x y,
  length x = (4 * k)%nat -> bytes (x ++ y) = bytes x ++ bytes y.
Proof.
  induction k as [|k IH]; intros x y H.
  - destruct x; [reflexivity|discriminate].
  - destruct x as [|a [|b [|c [|d x]]]]; cbn [length] in H; try lia.
    change (bytes ((a :: b :: c :: d :: x) ++ y))
      with ([a * 4 + b / 16; (b mod 16) * 16 + c / 4; (c mod 4) * 64 + d]
            ++ bytes (x ++ y)).
    change (bytes (a :: b :: c :: d :: x))
      with ([a * 4 + b / 16; (b mod 16) * 16 + c / 4; (c mod 4) * 64 + d]
            ++ bytes x).
    rewrite IH by lia. rewrite <- app_assoc. reflexivity.
Qed.

(** Decoding goes through a cut at a multiple of 4 characters, when
    the characters before the cut are all of the alphabet. *)
Lemma decode_app a b :
  Forall clean a -> len a mod 4 = 0 ->
  decode (a ++ b) = decode a ++ decode b.
Proof.
  intros Ha Hl. unfold decode. rewrite sextets_app by exact Ha.
  apply (bytes_app (length a / 4)). rewrite sextets_length by exact Ha.
  unfold len in Hl.
  pose proof (Nat.div_mod_eq (length a) 4) as E.
  assert (length a mod 4 = 0)%nat; [|lia].
  apply Nat2Z.inj. rewrite Nat2Z.inj_mod. exact Hl.
Qed.

Lemma Forall_firstn {A : Type} (P : A -> Prop) (l : list A) :
  Forall P l -> forall n, Forall P (firstn n l).
Proof.
  induction 1 as [|x l Hx _ IH]; intros [|n]; cbn [firstn];
    constructor; auto.
Qed.

Lemma Forall_skipn {A : Type} (P : A -> Prop) (l : list A) :
  Forall P l -> forall n, Forall P (skipn n l).
Proof.
  induction 1 as [|x l Hx Hl IH]; intros [|n]; cbn [skipn];
    try constructor; auto.
Qed.

(** On a body that has nothing but characters of the alphabet (no line
    break, no white space, no padding), what the mechanism forwards is
    the decoding of the whole body text. *)
Lemma base64_by_spec_clean : forall chunks pending,
  Forall clean pending -> Forall (Forall clean) chunks ->
  concat (base64_by_spec decode pending chunks)
  = decode (pending ++ concat chunks).
Proof.
  induction chunks as [|chunk chunks IH]; intros pending Hp Hc.
  - cbn [base64_by_spec concat]. rewrite !app_nil_r. reflexivity.
  - inversion Hc as [|? ? Hc1 Hcs]; subst.
    cbn [base64_by_spec concat].
    rewrite (toString_ascii_clean chunk Hc1).
    set (text := pending ++ chunk).
    assert (Ht : Forall clean text)
      by (apply Forall_app; split; assumption).
    rewrite IH; [|apply Forall_skipn; exact Ht|exact Hcs].
    rewrite <- decode_app.
    + rewrite app_assoc, firstn_skipn. unfold text.
      rewrite <- app_assoc. reflexivity.
    + apply Forall_firstn. exact Ht.
    + unfold len. rewrite length_firstn.
      assert (0 <= Z.of_nat (length text)) by lia.
      pose proof (Z.mul_div_le (Z.of_nat (length text)) 4).
      assert (0 <= Z.of_nat (length text) / 4)
        by (apply Z.div_pos; lia).
      rewrite Nat.min_l by lia.
      rewrite Z2Nat.id by lia.
      rewrite Z.mul_comm. apply Z.mod_mul. lia.
Qed.

End CleanBase64.

(** A base64 part whose body has nothing but characters of the alphabet
    is given the decoding of its whole body text, however the body comes
    in fragments. *)
Lemma base64_clean_body (toLowerCase : list Z -> list Z)
    (_getFieldName _getFilename _getContentId : list Z -> option (list Z))
    (chunks : list Buffer) (this : MultipartParser.t)
    (c : MultipartParser.PartState) (p : Part.t) (ps0 : list Part.t)
    (n : Z) :
  MultipartParser._error this = false ->
  MultipartParser._curPartState this = Some c ->
  MultipartParser.tmp c = Some [] -> MultipartParser.partSize c = Some n ->
  MultipartParser.parts this = ps0 ++ [p] -> Part.ended p = false ->
  Part.transferEncoding p = Some (str "base64") ->
  n + len (concat chunks) <= MultipartParser.maxPartSize this ->
  MultipartParser._totalSize this + len (concat chunks)
  <= MultipartParser.maxTotalSize this ->
  Forall (fun chunk => len chunk < 2 ^ 31 - 4) chunks ->
  Forall (Forall (fun b => Base64.sextet b <> None)) chunks ->
  exists this' p',
    MultipartParser.dispatch toLowerCase _getFieldName _getFilename
      _getContentId Base64.decode this
      (map MultipartByteParser.partData chunks
       ++ [MultipartByteParser.partEnd])
    = Ok (this', [])
    /\ MultipartParser._error this' = false
    /\ MultipartParser.parts this' = ps0 ++ [p']
    /\ Part.ended p' = true
    /\ concat (Part.written p')
       = concat (Part.written p) ++ Base64.decode (concat chunks).
Proof.
  intros He Hc Ht Hn Hp Hended Henc H1 H2 H4 Hclean.
  destruct (base64_mechanism toLowerCase _getFieldName _getFilename
              _getContentId Base64.decode chunks this c p ps0 n []
              He Hc Ht Hn Hp Hended Henc H1 H2)
    as (this' & p' & E & He' & Hp' & Hended' & Hw);
    [unfold len; simpl; lia|exact H4|].
  exists this', p'. repeat split; try assumption.
  rewrite Hw, concat_app.
  rewrite (base64_by_spec_clean chunks []); [reflexivity|constructor|].
  exact Hclean.
Qed.

(** ** Instances *)

(** The states of the samples are those that the decoder reaches on the
    sample message with a body of three bytes, whose events are these. *)
Example three_bytes_events :
  Session.whole (str "B") Sample.three_bytes
  = Some (Reached.headers_of "Content-Type" "text/plain"
          ++ [MultipartByteParser.partData (str "abc");
              MultipartByteParser.partEnd], []).
Proof.
  vm_compute. reflexivity.
Qed.

(** With at most two bytes a part, the error comes with the data of the
    part, before the event of its end is looked at. *)
Example three_bytes_scenario :
  MultipartParser.dispatch Sample.toLowerCase Sample.no_match
    Sample.no_match Sample.no_match Sample.base64
    (Sample.decoder None (Some 2) None)
    (Reached.headers_of "Content-Type" "text/plain"
     ++ [MultipartByteParser.partData (str "abc")])
  = Ok (fst (MultipartParser._emitError
               (MultipartParser.set_curPartState Reached.in_text_part
                  (Some {|
                     MultipartParser.name := None;
                     MultipartParser.filename := None;
                     MultipartParser.contentId := None;
                     MultipartParser.contentType := Some (str "text/plain");
                     MultipartParser.transferEncoding := str "binary";
                     MultipartParser.headers :=
                       [(str "Content-Type", str "text/plain")];
                     MultipartParser._headerName := Some [];
                     MultipartParser.partSize := Some 3;
                     MultipartParser.tmp := Some [] |}))
               PartTooLarge),
        [MultipartParser.part 0; MultipartParser.error PartTooLarge]).
Proof.
  vm_compute. reflexivity.
Qed.


(** In that session the first part, a stream, is given out when its
    headers end; the error comes at the beginning of the third part; the
    second part, an object, is given out when its ['end'] comes, after
    the error. *)
Example three_parts_in_order :
  match
    MultipartParser.session Sample.toLowerCase Sample.no_match
      Sample.no_match Sample.no_match Sample.base64 Sample.JSON_parse
      (Sample.decoder (Some 3) None None) Reached.three_parts_session
  with
  | Ok (this', out) =>
      out = [MultipartParser.part 0; MultipartParser.error TooManyParts;
             MultipartParser.part 1]
      /\ map Part.value (MultipartParser.parts this') = [JNull; JObject []]
  | _ => False
  end.
Proof.
  vm_compute. split; reflexivity.
Qed.


Lemma json_fallback_witness :
  exists this1 this',
    MultipartParser._onPartEnd Sample.base64 Reached.in_object_part
    = Ok (this1, [])
    /\ MultipartParser._error this1 = false
    /\ MultipartParser.ending this1
       = MultipartParser.ending Reached.in_object_part
         ++ [length (@nil Part.t)]
    /\ MultipartParser.on_end Sample.JSON_parse this1 (length (@nil Part.t))
       = (this', [MultipartParser.part (length (@nil Part.t))])
    /\ MultipartParser._error this' = false
    /\ MultipartParser.parts this'
       = [] ++ [completed
                  (written_to (Reached.cur_part Reached.in_object_part)
                     (if MultipartParser.is_passthrough
                           (Part.transferEncoding
                              (Reached.cur_part Reached.in_object_part))
                      then []
                      else [Sample.base64
                              match
                                MultipartParser.tmp
                                  (Reached.part_state Reached.in_object_part)
                              with
                              | Some s => s
                              | None => str "undefined"
                              end]))
                  match
                    Sample.JSON_parse
                      (toString_utf8
                         (concat
                            (Part.written
                               (Reached.cur_part Reached.in_object_part)
                             ++ (if MultipartParser.is_passthrough
                                      (Part.transferEncoding
                                         (Reached.cur_part
                                            Reached.in_object_part))
                                 then []
                                 else [Sample.base64
                                         match
                                           MultipartParser.tmp
                                             (Reached.part_state
                                                Reached.in_object_part)
                                         with
                                         | Some s => s
                                         | None => str "undefined"
                                         end]))))
                  with
                  | Some v => v
                  | None => JObject []
                  end].
Proof.
  apply (json_fallback Sample.base64 Sample.JSON_parse
           Reached.in_object_part []
           (Reached.cur_part Reached.in_object_part)
           (Reached.part_state Reached.in_object_part)).
  - reflexivity.
  - reflexivity.
  - reflexivity.
  - reflexivity.
  - reflexivity.
  - reflexivity.
Defined.

(** The body of the sample, which is not JSON, is delivered as a part
    with the empty object. *)
Example json_fallback_on_sample :
  match MultipartParser._onPartEnd Sample.base64 Reached.in_object_part with
  | Ok (this1, out) =>
      out = []
      /\ MultipartParser.ending this1 = [0%nat]
      /\ snd (MultipartParser.on_end Sample.JSON_parse this1 0)
         = [MultipartParser.part 0]
      /\ map Part.value
           (MultipartParser.parts
              (fst (MultipartParser.on_end Sample.JSON_parse this1 0)))
         = [JObject []]
      /\ map Part.written
           (MultipartParser.parts
              (fst (MultipartParser.on_end Sample.JSON_parse this1 0)))
         = [[str "{oops"]]
  | _ => False
  end.
Proof.
  vm_compute. repeat split; reflexivity.
Qed.

(** The mechanism on a text in two fragments: "ABCD". *)
Example base64_in_two_fragments :
  base64_by_spec Base64.decode [] [str "QUJDR"; str "A=="]
  = [str "ABC"; str "D"; []]
  /\ Base64.decode (str "QUJDRA==") = str "ABCD".
Proof.
  split; reflexivity.
Qed.

(** C4.  A message of one part whose content-transfer-encoding is base64
    and whose body is the text of ABCDEFGHI on two lines, QUJD and
    REVGR0hJ, with the decoder of the platform, which passes over the line
    break.  Written in one chunk: the assembler decodes the longest prefix
    of the text whose length is a multiple of 4, the twelve characters up
    to R0h, which gives the eight bytes ABCDEFGH, and at the end of the
    part the character J that is left, which gives nothing; the part is
    given eight bytes, while the decoding of the whole body text is the
    nine bytes ABCDEFGHI.  Written in two chunks cut in the body after the
    eight characters up to REV: the part is given ABCDE, and then the
    three bytes that the four characters GR0h give on their own, which are
    not bytes of the body; what the part is given depends on where the
    body is cut. *)
Theorem base64_body_with_a_line_break (JSON_parse : list Z -> option json) :
  let turn_ :=
    MultipartParser.turn ascii_lower MultipartParserStatic._getFieldName
      MultipartParserStatic._getFilename MultipartParserStatic._getContentId
      Base64.decode JSON_parse in
  exists whole cut cut',
    turn_ (Sample.decoder None None None) Sample.base64_lines
    = Ok (whole, [MultipartParser.part 0])
    /\ map Part.written (MultipartParser.parts whole)
       = [[str "ABCDEFGH"; []]]
    /\ turn_ (Sample.decoder None None None) (firstn 50 Sample.base64_lines)
       = Ok (cut, [MultipartParser.part 0])
    /\ turn_ cut (skipn 50 Sample.base64_lines) = Ok (cut', [])
    /\ map Part.written (MultipartParser.parts cut')
       = [[str "ABCDE"; [25; 29; 33]; []]]
    /\ MultipartParser._error whole = false
    /\ MultipartParser._error cut' = false
    /\ base64_by_spec Base64.decode [] [str Sample.two_lines]
       = [str "ABCDEFGH"; []]
    /\ Base64.decode (toString_ascii (str Sample.two_lines))
       = str "ABCDEFGHI".
Proof.
  cbv zeta. eexists. eexists. eexists.
  split; [vm_compute; reflexivity|]. split; [reflexivity|].
  split; [vm_compute; reflexivity|].
  split; [vm_compute; reflexivity|].
  repeat split; reflexivity.
Qed.

(** C7.  A decoder with the boundary "boundary" that is written the
    bare bytes of the boundary, and is then ended: the write gives no
    error, the scanner is left in the state BOUNDARY and not in the state
    END, and the end of the input gives ['finish'] and no error: nothing
    ends the scanner of the assembler, so the listener of ['finish'] of
    the scanner, which would report the truncated message, does not
    run. *)
Theorem truncated_input_finishes (JSON_parse : list Z -> option json)
    (finishes_when_failed : bool) :
  exists this' bp,
    MultipartParser.turn ascii_lower MultipartParserStatic._getFieldName
      MultipartParserStatic._getFilename MultipartParserStatic._getContentId
      Base64.decode JSON_parse
      (MultipartParser.new None None None (str "boundary"))
      Sample.bare_boundary
    = Ok (this', [])
    /\ MultipartParser._byteParser this' = Some bp
    /\ MultipartByteParserState.state (MultipartByteParser._state bp)
       = MultipartByteParserState.STATES.BOUNDARY
    /\ MultipartParser.end_ finishes_when_failed this'
       = (this', [MultipartParser.finish]).
Proof.
  eexists. eexists. split; [vm_compute; reflexivity|].
  split; [reflexivity|]. split; [reflexivity|].
  destruct finishes_when_failed; reflexivity.
Qed.

(** C9.  A decoder that allows two bytes a part, written a message of
    a field of two bytes and a stream part of five in one chunk: the
    stream part is given out when its headers end, its data raise
    PartTooLarge, and the field, which was ended before the error, is
    given out after it, on the turn of the event loop that follows: the
    listener of ['end'] that [handlePart] puts on a part does not look at
    the error flag, as the listeners of the scanner do.  The chunks that
    are written afterwards are dropped. *)
Theorem part_after_fatal_error (JSON_parse : list Z -> option json) :
  exists this',
    MultipartParser.turn ascii_lower MultipartParserStatic._getFieldName
      MultipartParserStatic._getFilename MultipartParserStatic._getContentId
      Base64.decode JSON_parse (Sample.decoder None (Some 2) None)
      Sample.field_and_stream
    = Ok (this',
          [MultipartParser.part 1; MultipartParser.error PartTooLarge;
           MultipartParser.part 0])
    /\ MultipartParser._error this' = true
    /\ map Part.value (MultipartParser.parts this')
       = [JString (str "hi"); JNull]
    /\ forall chunk,
         MultipartParser._write ascii_lower
           MultipartParserStatic._getFieldName
           MultipartParserStatic._getFilename
           MultipartParserStatic._getContentId Base64.decode this' chunk
         = Ok (this', []).
Proof.
  eexists. split; [vm_compute; reflexivity|].
  split; [reflexivity|]. split; [reflexivity|].
  intros chunk. reflexivity.
Qed.

(** ** Where the code departs from the specification *)

(** The bytes that the case HEADER_NAME takes as part of a name are the
    letters up to y and Y and the hyphen. *)
Lemma name_byte_letters b :
  0 <= b < 256 ->
  MultipartByteParser.name_byte (Some b) = letter_before_z_or_hyphen b.
Proof.
  intros H.
  assert (Hall :
    forallb
      (fun n => Bool.eqb (MultipartByteParser.name_byte (Some (Z.of_nat n)))
                  (letter_before_z_or_hyphen (Z.of_nat n)))
      (seq 0 256) = true) by (vm_compute; reflexivity).
  rewrite forallb_forall in Hall.
  specialize (Hall (Z.to_nat b)).
  rewrite Z2Nat.id in Hall by lia.
  apply eqb_prop, Hall, in_seq. lia.
Qed.

(** C2.  The scanner does not take z or Z as a byte of a header name:
    [_.inRange(lowByte, CHARS.A, CHARS.Z)] leaves its upper bound out.  A
    message whose first header is "Size" or "Zone" stops with the parse
    error "Invalid character found parsing header field name!" after the
    event partBegin. *)
Theorem header_name_rejects_z :
  MultipartByteParser.name_byte (Some 122) = false
  /\ MultipartByteParser.name_byte (Some 90) = false
  /\ Session.whole (str "B") Sample.size_header
     = Some ([MultipartByteParser.partBegin], [invalid_name_character])
  /\ Session.whole (str "B") Sample.zone_header
     = Some ([MultipartByteParser.partBegin], [invalid_name_character]).
Proof.
  repeat split; vm_compute; reflexivity.
Qed.

(** On a message in the manner of the fixtures, whose bodies do not end
    with a line break, every cut gives the events of the whole. *)
Example two_parts_split_anywhere :
  Session.differing (str "boundary") Sample.two_parts = [].
Proof.
  vm_compute. reflexivity.
Qed.

(** C1.  A message whose one part is the text "hello" followed by a line
    break, given whole and given in two chunks cut after the final
    boundary: the second delivery has one more event, a partData after
    partEnd that holds the bytes of the final boundary.  When the body
    ends where a boundary candidate begins, [emit] is called with an
    empty span and leaves the marker of the part data in place; the
    [emit] at the end of a chunk then sends the bytes from that marker
    on. *)
Theorem split_changes_the_events :
  Session.whole (str "boundary") Sample.text_line
  = Some (Reached.headers_of "Content-Type" "text/plain"
          ++ [MultipartByteParser.partData (str ("hello" ++ Sample.CRLF));
              MultipartByteParser.partEnd], [])
  /\ Session.split (str "boundary") Sample.text_line 61
     = Some (Reached.headers_of "Content-Type" "text/plain"
             ++ [MultipartByteParser.partData (str ("hello" ++ Sample.CRLF));
                 MultipartByteParser.partEnd;
                 MultipartByteParser.partData
                   (str (Sample.CRLF ++ "--boundary--"))], []).
Proof.
  split; vm_compute; reflexivity.
Qed.

(** The cut after the final boundary is the only one that changes the
    events of that message; on a part with an empty body it is so
    too. *)
Example text_line_differs_at_61 :
  Session.differing (str "boundary") Sample.text_line = [61%nat]
  /\ Session.differing (str "B") Sample.empty_body = [21%nat].
Proof.
  split; vm_compute; reflexivity.
Qed.

(** Chunks that come when the scanner is in the state END leave it as it
    is and give no event and no error. *)
Lemma trailing_chunks_are_dropped : forall chunks this,
  MultipartByteParserState.state (MultipartByteParser._state this)
  = MultipartByteParserState.STATES.END ->
  MultipartByteParserState.hasErrored (MultipartByteParser._state this)
  = false ->
  Forall (fun chunk => chunk <> []) chunks ->
  Session.feed this chunks = Some (this, [], []).
Proof.
  induction chunks as [|chunk chunks IH]; intros this Hs He Hc.
  - reflexivity.
  - inversion Hc; subst. cbn [Session.feed].
    rewrite END_absorbs by assumption.
    rewrite IH by assumption. reflexivity.
Qed.

(** C10.  The same message ending with its final boundary, given in one
    chunk alone and with bytes after it: the bytes after the final
    boundary give no event, but the message alone has one more event
    than the message followed by them, the partData after partEnd that
    the [emit] at the end of the chunk sends from the marker that was
    left in place; with bytes after the final boundary [_transform]
    returns from the case END before it gets there. *)
Theorem trailing_bytes_change_the_events :
  Session.whole (str "boundary") Sample.text_line_bare
  = Some (Reached.headers_of "Content-Type" "text/plain"
          ++ [MultipartByteParser.partData (str ("hello" ++ Sample.CRLF));
              MultipartByteParser.partEnd;
              MultipartByteParser.partData
                (str (Sample.CRLF ++ "--boundary--"))], [])
  /\ Session.whole (str "boundary")
       (Sample.text_line_bare ++ str "trailing bytes")
     = Some (Reached.headers_of "Content-Type" "text/plain"
             ++ [MultipartByteParser.partData (str ("hello" ++ Sample.CRLF));
                 MultipartByteParser.partEnd], []).
Proof.
  split; vm_compute; reflexivity.
Qed.

(** *** The encoder *)

Lemma assign_keys o k v k' v' :
  In (k', v') (assign o k v) -> (k' = k /\ v' = v) \/ In (k', v') o.
Proof.
  induction o as [|[k0 v0] o IH]; simpl.
  - intros [H|[]]. injection H as <- <-. auto.
  - destruct (list_eqb k k0).
    + intros [H|H]; [injection H as <- <-; auto|auto].
    + intros [H|H]; [auto|]. destruct (IH H); auto.
Qed.

(** A header Content-ID is written only if the caller gave it among
    the headers of the part. *)
Lemma synthesize_adds_no_content_id p v :
  In (str "Content-ID", v) (Part.headers (MultipartStreamer.synthesize p)) ->
  In (str "Content-ID", v) (Part.headers p).
Proof.
  unfold MultipartStreamer.synthesize, Part.id. cbn [Part.headers
    Part.set_headers].
  intros H.
  repeat match type of H with
  | In _ (match ?x with _ => _ end) => destruct x
  | In _ (if ?x then _ else _) => destruct x
  | In _ (assign _ _ _) =>
      apply assign_keys in H; destruct H as [[H _]|H]; [discriminate H|]
  end; exact H.
Qed.

(** C6.  A stream part made with the content id "abc", the content type
    "text/plain" and the body "hi", encoded with the boundary B: the part
    has its content id, and the bytes given are the boundary line, the
    line of Content-Type, the blank line, the body, a line break and the
    final boundary line; there is no line "Content-ID: <abc>".  [_setup]
    reads [part.id], which a part does not have; the content id is
    [part.contentId]. *)
Theorem content_id_is_not_written :
  map Part.contentId (MultipartStreamer.parts Sample.stream_with_id)
  = [Some (str "abc")]
  /\ snd (MultipartStreamer._setup Sample.stream_with_id)
     = str ("--B" ++ Sample.CRLF
            ++ "Content-Type: text/plain" ++ Sample.CRLF
            ++ Sample.CRLF
            ++ "hi" ++ Sample.CRLF
            ++ "--B--" ++ Sample.CRLF).
Proof.
  split; vm_compute; reflexivity.
Qed.

#[local] Arguments Part.new : simpl never.

(** ** Further properties of the scanner and of its state *)

Section StateFacts.
Import MultipartByteParserState MultipartByteParser.

(** X1.  [_transform] returns from every chunk, whatever the state of the
    scanner, when the boundary of the scanner is not empty: although the
    loop steps its position back by one when a boundary candidate fails,
    the passes that it makes are bounded by twice the length of the chunk,
    and the quick scan moves on by the length of the boundary.  The call
    leaves the boundary of the scanner as it is. *)
Theorem scanner_returns (this : MultipartByteParser.t) (chunk : Buffer) :
  0 < len (boundary this) ->
  exists this' evs err,
    _transform this chunk = Some (this', evs, err)
    /\ boundary this' = boundary this
    /\ boundaryChars this' = boundaryChars this.
Proof.
  intros HB.
  destruct (transform_total this chunk HB) as [[[this' evs] err] H].
  exists this', evs, err. split; [exact H|].
  eapply transform_boundary. exact H.
Qed.

(** A scanner made with a string has a boundary that is not empty. *)
Lemma new_boundary_not_empty b : 0 < len (boundary (new b)).
Proof.
  unfold new. cbn [boundary]. rewrite len_constructBoundary.
  pose proof (len_nonneg b). lia.
Qed.

(** A scanner that was given an empty Buffer as its boundary does not
    return from the first byte of a body: the quick scan moves on by
    nothing. *)
Example empty_boundary_hangs :
  _transform
    {| boundary := []; boundaryChars := _getBoundaryChars [];
       _state := MultipartByteParserState.new (len (@nil Z)) |}
    (str ("x" ++ Sample.CRLF ++ Sample.CRLF ++ "A"))
  = None.
Proof.
  vm_compute. reflexivity.
Qed.

Lemma testbit_flag (f : Z) (n : Z) :
  0 <= n -> negb (Z.land f (2 ^ n) =? 0) = Z.testbit f n.
Proof.
  intros Hn.
  destruct (Z.testbit f n) eqn:E.
  - apply negb_true_iff, Z.eqb_neq. intros H.
    assert (Z.testbit (Z.land f (2 ^ n)) n = true).
    { rewrite Z.land_spec, E, Z.pow2_bits_true by lia. reflexivity. }
    rewrite H, Z.bits_0 in H0. discriminate.
  - apply negb_false_iff, Z.eqb_eq. apply Z.bits_inj'. intros m Hm.
    rewrite Z.land_spec, Z.bits_0.
    destruct (Z.eq_dec m n) as [->|Hne].
    + rewrite E. reflexivity.
    + rewrite Z.pow2_bits_false by lia. apply andb_false_r.
Qed.

(** X2.  The two flags of the state are independent bits: setting
    or unsetting the flag of a part boundary does not change the flag of
    the final boundary, and the other way round; a flag that has been set
    is read as set, one that has been unset as unset, and [resetFlags]
    unsets both. *)
Theorem flags_are_independent (s : MultipartByteParserState.t) :
  isPartBoundary (setFlags s FLAGS.PART_BOUNDARY) = true
  /\ isFinalBoundary (setFlags s FLAGS.PART_BOUNDARY) = isFinalBoundary s
  /\ isFinalBoundary (setFlags s FLAGS.FINAL_BOUNDARY) = true
  /\ isPartBoundary (setFlags s FLAGS.FINAL_BOUNDARY) = isPartBoundary s
  /\ isPartBoundary (unsetFlags s FLAGS.PART_BOUNDARY) = false
  /\ isFinalBoundary (unsetFlags s FLAGS.PART_BOUNDARY) = isFinalBoundary s
  /\ isFinalBoundary (unsetFlags s FLAGS.FINAL_BOUNDARY) = false
  /\ isPartBoundary (unsetFlags s FLAGS.FINAL_BOUNDARY) = isPartBoundary s
  /\ isPartBoundary (resetFlags s) = false
  /\ isFinalBoundary (resetFlags s) = false.
Proof.
  unfold isPartBoundary, isFinalBoundary, setFlags, unsetFlags, resetFlags,
    set_flags. cbn [flags].
  change FLAGS.PART_BOUNDARY with (2 ^ 0).
  change FLAGS.FINAL_BOUNDARY with (2 ^ 1).
  rewrite !testbit_flag by lia.
  rewrite !Z.lor_spec, !Z.land_spec, !Z.lnot_spec by lia.
  rewrite !Z.pow2_bits_true, !Z.pow2_bits_false by lia.
  cbn. rewrite !orb_true_r, !orb_false_r, !andb_false_r, !andb_true_r.
  repeat split.
Qed.

End StateFacts.

(** The scanner of the samples, on the message with a body of three
    bytes. *)
Lemma scanner_returns_witness :
  exists this' evs err,
    MultipartByteParser._transform (MultipartByteParser.new (str "B"))
      Sample.three_bytes
    = Some (this', evs, err)
    /\ MultipartByteParser.boundary this'
       = MultipartByteParser.boundary (MultipartByteParser.new (str "B"))
    /\ MultipartByteParser.boundaryChars this'
       = MultipartByteParser.boundaryChars
           (MultipartByteParser.new (str "B")).
Proof.
  apply (scanner_returns (MultipartByteParser.new (str "B"))
           Sample.three_bytes).
  vm_compute. reflexivity.
Defined.

(** ** Further properties of the assembler: a part from its headers to its end *)

Section PartAssembly.
Import MultipartParser.

Variable toLowerCase : list Z -> list Z.
Variable _getFieldName : list Z -> option (list Z).
Variable _getFilename : list Z -> option (list Z).
Variable _getContentId : list Z -> option (list Z).
Variable base64 : list Z -> Buffer.
Variable JSON_parse : list Z -> option json.

Let on_ := on toLowerCase _getFieldName _getFilename _getContentId base64.
Let dispatch_ :=
  dispatch toLowerCase _getFieldName _getFilename _getContentId base64.
Let on_end_ := on_end JSON_parse.

Ltac proj :=
  cbn [_error _curPartState parts maxParts maxPartSize maxTotalSize
       boundary _byteParser _totalSize ending
       set_curPartState set_parts set_totalSize set_byteParser set_curPart
       set_ending set_part
       _emitError fst snd negb counting written_to completed
       name filename contentId contentType transferEncoding headers
       _headerName partSize tmp
       Part.type Part.value Part.name Part.filename Part.transferEncoding
       Part.contentType Part.contentId Part.headers Part.written
       Part.ended Part.set_value app length] in *.

(** What the assembler is after a fragment has been taken in. *)
Let taken (this : t) (c : PartState) (ps0 : list Part.t) (p : Part.t)
    (n : Z) (chunks : list Buffer) : t :=
  set_parts
    (set_totalSize (set_curPartState this (Some (counting c (n + len (concat chunks)))))
       (_totalSize this + len (concat chunks)))
    (ps0 ++ [written_to p chunks]).

Lemma passthrough_step this c p ps0 n chunk :
  _error this = false -> _curPartState this = Some c ->
  partSize c = Some n ->
  parts this = ps0 ++ [p] -> Part.ended p = false ->
  is_passthrough (Part.transferEncoding p) = true ->
  n + len chunk <= maxPartSize this ->
  _totalSize this + len chunk <= maxTotalSize this ->
  on_ this (MultipartByteParser.partData chunk)
  = Ok (taken this c ps0 p n [chunk], []).
Proof.
  intros He Hc Hn Hp Hended Hpt H1 H2.
  unfold on_, on, wrapInErrorChecker, _onPartData.
  rewrite He, Hc. proj. rewrite Hn. unfold plus, gt.
  destruct (Z.gtb_spec (n + len chunk) (maxPartSize this)); [lia|].
  destruct (Z.gtb_spec (_totalSize this + len chunk) (maxTotalSize this));
    [lia|].
  erewrite curPart_last by (proj; exact Hp).
  rewrite Hpt. unfold Part.write. rewrite Hended.
  unfold taken, set_curPart, set_parts, counting, written_to. proj.
  rewrite Hp, removelast_last.
  cbn [concat]. rewrite app_nil_r. rewrite Hended. reflexivity.
Qed.

Lemma passthrough_run : forall chunks this c p ps0 n,
  _error this = false -> _curPartState this = Some c ->
  partSize c = Some n ->
  parts this = ps0 ++ [p] -> Part.ended p = false ->
  is_passthrough (Part.transferEncoding p) = true ->
  n + len (concat chunks) <= maxPartSize this ->
  _totalSize this + len (concat chunks) <= maxTotalSize this ->
  dispatch_ this (map MultipartByteParser.partData chunks)
  = Ok (taken this c ps0 p n chunks, []).
Proof.
  induction chunks as [|chunk chunks IH];
    intros this c p ps0 n He Hc Hn Hp Hended Hpt H1 H2.
  - cbn [map]. unfold dispatch_. cbn [dispatch]. f_equal. f_equal.
    unfold taken, set_parts, set_totalSize, set_curPartState, counting,
      written_to.
    destruct this, c, p. cbn in *. subst.
    rewrite app_nil_r, !Z.add_0_r. reflexivity.
  - cbn [map concat] in *. rewrite len_app in H1, H2.
    pose proof (len_nonneg chunk). pose proof (len_nonneg (concat chunks)).
    unfold dispatch_. rewrite dispatch_cons.
    fold on_ dispatch_.
    rewrite (passthrough_step this c p ps0 n chunk) by (auto; lia).
    rewrite (IH _ (counting c (n + len (concat [chunk])))
               (written_to p [chunk]) ps0 (n + len chunk)).
    + cbn [app]. f_equal. f_equal.
      unfold taken, set_parts, set_totalSize, set_curPartState, counting,
        written_to. proj. cbn [concat]. rewrite !app_nil_r, !len_app.
      rewrite <- !app_assoc, !Z.add_assoc. reflexivity.
    + exact He.
    + reflexivity.
    + unfold counting. proj. cbn [concat]. rewrite app_nil_r. reflexivity.
    + reflexivity.
    + exact Hended.
    + exact Hpt.
    + unfold taken. proj. lia.
    + unfold taken. proj. cbn [concat]. rewrite app_nil_r. lia.
Qed.

Lemma part_of_fresh c :
  Part.ended (part_of c) = false /\ Part.written (part_of c) = []
  /\ Part.value (part_of c) = JNull.
Proof. repeat split. Qed.

Lemma headersEnd_makes this c :
  _error this = false -> _curPartState this = Some c ->
  on_ this MultipartByteParser.headersEnd
  = Ok (set_parts (set_curPartState this (Some (counting
                     {| name := name c; filename := filename c;
                        contentId := contentId c;
                        contentType := contentType c;
                        transferEncoding := transferEncoding c;
                        headers := headers c;
                        _headerName := _headerName c;
                        partSize := partSize c; tmp := Some [] |} 0)))
          (parts this ++ [part_of c]),
        if Part.TYPES.eqb (Part.type (part_of c)) Part.TYPES.STREAM
        then [part (length (parts this))] else []).
Proof.
  intros He Hc. unfold on_, on, wrapInErrorChecker, _onHeadersEnd.
  rewrite He, Hc. cbn [negb]. unfold handlePart, set_parts. proj.
  rewrite length_app. cbn [length].
  replace (length (parts this) + 1 - 1)%nat with (length (parts this))
    by lia.
  reflexivity.
Qed.

(** A part from the end of its headers to its end, and its ['end']. *)
Lemma part_assembled this c chunks :
  _error this = false -> _curPartState this = Some c ->
  is_passthrough (Part.transferEncoding (part_of c)) = true ->
  len (concat chunks) <= maxPartSize this ->
  _totalSize this + len (concat chunks) <= maxTotalSize this ->
  let n := length (parts this) in
  let stream := Part.TYPES.eqb (Part.type (part_of c)) Part.TYPES.STREAM in
  exists this1 this',
    dispatch_ this
      (MultipartByteParser.headersEnd
       :: map MultipartByteParser.partData chunks
       ++ [MultipartByteParser.partEnd])
    = Ok (this1, if stream then [part n] else [])
    /\ ending this1 = ending this ++ (if stream then [] else [n])
    /\ _error this1 = false
    /\ maxParts this1 = maxParts this
    /\ maxPartSize this1 = maxPartSize this
    /\ maxTotalSize this1 = maxTotalSize this
    /\ _totalSize this1 = _totalSize this + len (concat chunks)
    /\ parts this1
       = parts this ++ [completed (written_to (part_of c) chunks) JNull]
    /\ on_end_ this1 n = (this', if stream then [] else [part n])
    /\ _error this' = false
    /\ maxParts this' = maxParts this
    /\ maxPartSize this' = maxPartSize this
    /\ maxTotalSize this' = maxTotalSize this
    /\ _byteParser this' = _byteParser this
    /\ ending this' = ending this1
    /\ _totalSize this' = _totalSize this + len (concat chunks)
    /\ parts this'
       = parts this
         ++ [completed (written_to (part_of c) chunks)
               match Part.type (part_of c) with
               | Part.TYPES.STREAM => JNull
               | Part.TYPES.FIELD => JString (toString_utf8 (concat chunks))
               | Part.TYPES.OBJECT =>
                   match JSON_parse (toString_utf8 (concat chunks)) with
                   | Some v => v
                   | None => JObject []
                   end
               end].
Proof.
  intros He Hc Hpt H1 H2 n stream. subst n stream.
  unfold dispatch_. rewrite dispatch_cons. fold on_ dispatch_.
  rewrite (headersEnd_makes this c He Hc).
  destruct (part_of_fresh c) as (Hpe & Hpw & Hpv).
  set (p0 := part_of c) in *. clearbody p0.
  unfold dispatch_. rewrite dispatch_app. fold dispatch_.
  erewrite passthrough_run;
    [ | exact He | reflexivity | reflexivity | reflexivity
      | exact Hpe | exact Hpt | proj; lia | proj; lia ].
  unfold dispatch_. rewrite dispatch_cons. fold on_ dispatch_.
  unfold on_ at 1, on, wrapInErrorChecker, _onPartEnd, end_curPart,
    set_curPart.
  unfold taken at 1. proj. rewrite He. cbn [negb].
  erewrite curPart_last by (unfold taken; proj; reflexivity).
  unfold written_to at 1. proj. rewrite Hpt. cbn [orb]. unfold Part.end_.
  unfold written_to at 1. proj. rewrite Hpe.
  unfold written_to at 1. proj.
  assert (Hnth : forall (ps : list Part.t) (q : Part.t),
             nth_error (ps ++ [q]) (length ps) = Some q).
  { intros ps q. rewrite nth_error_app2 by lia.
    rewrite Nat.sub_diag. reflexivity. }
  assert (Hrep : forall (ps : list Part.t) (q q' : Part.t),
             replace_nth (ps ++ [q]) (length ps) q' = ps ++ [q']).
  { intros ps q q'. induction ps as [|x l IH]; [reflexivity|].
    cbn. rewrite IH. reflexivity. }
  assert (Hidx : forall (ps : list Part.t) (q : Part.t),
             (length (ps ++ [q]) - 1)%nat = length ps).
  { intros ps q. rewrite length_app. cbn [length]. lia. }
  unfold taken. proj. rewrite !removelast_last, ?Hidx.
  unfold on_end_, on_end.
  destruct (Part.type p0) eqn:Ety; cbn [Part.TYPES.eqb];
    unfold dispatch_; cbn [dispatch app];
    (eexists; eexists; split; [reflexivity|]); proj;
    rewrite ?app_nil_r;
    (split; [reflexivity|]); (split; [exact He|]);
    (split; [reflexivity|]); (split; [reflexivity|]);
    (split; [reflexivity|]);
    (split; [rewrite ?Z.add_0_l; reflexivity|]);
    (split; [unfold completed, written_to; proj; rewrite ?Hpw, ?Hpv;
             reflexivity|]);
    rewrite Hnth; unfold written_to at 1; proj; rewrite ?Ety;
    (split; [reflexivity|]); unfold set_part; proj; rewrite ?Hrep;
    (split; [exact He|]);
    (split; [reflexivity|]); (split; [reflexivity|]);
    (split; [reflexivity|]); (split; [reflexivity|]);
    (split; [reflexivity|]);
    (split; [rewrite ?Z.add_0_l; reflexivity|]);
    unfold completed, written_to, Part.set_value; proj;
    rewrite ?Ety, ?Hpw, ?Hpv; reflexivity.
Qed.


(** X4.  A part whose transfer encoding is neither binary, 7bit, 8bit
    nor base64: the part is made when its headers end (and given out then
    if it is a stream part), and the first event that follows, a
    fragment within the size limits or the end of the part, raises
    UnsupportedEncoding; the session is closed, the events after it are
    dropped, and the part has been given nothing and is not ended. *)
Theorem unsupported_encoding_stops_the_session this c e more :
  _error this = false -> _curPartState this = Some c ->
  is_passthrough (Part.transferEncoding (part_of c)) = false ->
  is_base64 (Part.transferEncoding (part_of c)) = false ->
  (e = MultipartByteParser.partEnd
   \/ exists chunk,
        e = MultipartByteParser.partData chunk
        /\ len chunk <= maxPartSize this
        /\ _totalSize this + len chunk <= maxTotalSize this) ->
  exists this',
    dispatch_ this (MultipartByteParser.headersEnd :: e :: more)
    = Ok (this',
          (if Part.TYPES.eqb (Part.type (part_of c)) Part.TYPES.STREAM
           then [part (length (parts this))] else [])
          ++ [error UnsupportedEncoding])
    /\ _error this' = true
    /\ parts this' = parts this ++ [part_of c].
Proof.
  intros He Hc Hpt Hb64 Hev.
  unfold dispatch_. rewrite dispatch_cons. fold on_ dispatch_.
  rewrite (headersEnd_makes this c He Hc).
  unfold dispatch_. rewrite dispatch_cons. fold on_ dispatch_.
  destruct Hev as [-> | (chunk & -> & H1 & H2)].
  - unfold on_ at 1, on, wrapInErrorChecker, _onPartEnd. proj.
    rewrite He. cbn [negb].
    erewrite curPart_last by (proj; reflexivity).
    rewrite Hpt, Hb64. cbn [orb]. unfold _emitError. cbv beta iota.
    unfold dispatch_. rewrite dispatch_gate by reflexivity.
    eexists. split; [rewrite app_nil_r; reflexivity|].
    split; reflexivity.
  - unfold on_ at 1, on, wrapInErrorChecker, _onPartData. proj.
    rewrite He. cbn [negb]. unfold counting. proj. unfold plus, gt.
    pose proof (len_nonneg chunk).
    destruct (Z.gtb_spec (0 + len chunk) (maxPartSize this)); [lia|].
    destruct (Z.gtb_spec (_totalSize this + len chunk) (maxTotalSize this));
      [lia|].
    erewrite curPart_last by (proj; reflexivity).
    rewrite Hpt, Hb64. unfold _emitError. cbv beta iota.
    unfold dispatch_. rewrite dispatch_gate by reflexivity.
    eexists. split; [rewrite app_nil_r; reflexivity|].
    split; reflexivity.
Qed.

End PartAssembly.


(** A part that says it is quoted-printable, at its first fragment. *)
Lemma unsupported_encoding_stops_the_session_witness :
  exists this',
    MultipartParser.dispatch Sample.toLowerCase Sample.no_match
      Sample.no_match Sample.no_match Sample.base64 Midway.quoted_headers
      (MultipartByteParser.headersEnd
       :: MultipartByteParser.partData (str "abc")
       :: [MultipartByteParser.partEnd])
    = Ok (this',
          (if Part.TYPES.eqb
                (Part.type (part_of (Reached.part_state Midway.quoted_headers)))
                Part.TYPES.STREAM
           then [MultipartParser.part
                   (length (MultipartParser.parts Midway.quoted_headers))]
           else [])
          ++ [MultipartParser.error UnsupportedEncoding])
    /\ MultipartParser._error this' = true
    /\ MultipartParser.parts this'
       = MultipartParser.parts Midway.quoted_headers
         ++ [part_of (Reached.part_state Midway.quoted_headers)].
Proof.
  apply (unsupported_encoding_stops_the_session Sample.toLowerCase
           Sample.no_match Sample.no_match Sample.no_match Sample.base64
           Midway.quoted_headers (Reached.part_state Midway.quoted_headers)).
  - reflexivity.
  - reflexivity.
  - reflexivity.
  - reflexivity.
  - right. exists (str "abc").
    split; [reflexivity|]. split; vm_compute; discriminate.
Defined.
(** ** Further properties of the assembler: the size limits *)

Lemma passed_through_app a b :
  passed_through (a ++ b) = passed_through a + passed_through b.
Proof.
  unfold passed_through. induction a as [|p a IH]; cbn [app map fold_right].
  - lia.
  - rewrite IH. lia.
Qed.

Lemma passed_through_one p : passed_through [p] = bytes_given p.
Proof. unfold passed_through. cbn. lia. Qed.

Section Limits.
Import MultipartParser.

Variable toLowerCase : list Z -> list Z.
Variable _getFieldName : list Z -> option (list Z).
Variable _getFilename : list Z -> option (list Z).
Variable _getContentId : list Z -> option (list Z).
Variable base64 : list Z -> Buffer.

Let on_ := on toLowerCase _getFieldName _getFilename _getContentId base64.
Let dispatch_ :=
  dispatch toLowerCase _getFieldName _getFilename _getContentId base64.

Ltac proj :=
  cbn [_error _curPartState parts maxParts maxPartSize maxTotalSize
       boundary _byteParser _totalSize ending
       set_curPartState set_parts set_totalSize set_byteParser set_curPart
       set_ending
       _emitError fst snd negb
       name filename contentId contentType transferEncoding headers
       _headerName partSize tmp
       Part.type Part.value Part.name Part.filename Part.transferEncoding
       Part.contentType Part.contentId Part.headers Part.written
       Part.ended Part.set_value app length] in *.

Ltac ok_inv H :=
  apply Ok_inj, pair_equal_spec in H; destruct H as [<- <-].

(** A listener that leaves the parts and the counts alone. *)
Lemma counts_sound_same this this' :
  parts this' = parts this -> maxPartSize this' = maxPartSize this ->
  maxTotalSize this' = maxTotalSize this ->
  _totalSize this' = _totalSize this ->
  (_error this' = false -> _error this = false) ->
  counts_sound this -> counts_sound this'.
Proof.
  intros Hp H1 H2 Ht He ((Hall & Hsum) & Hm & Hle & Hok).
  unfold counts_sound, limits_kept. rewrite Hp, H1, H2, Ht.
  repeat split; try assumption. intros E. auto.
Qed.

Lemma partBegin_sound this this' out :
  on_ this MultipartByteParser.partBegin = Ok (this', out) ->
  counts_sound this -> counts_sound this'.
Proof.
  unfold on_, on, wrapInErrorChecker, _onPartBegin. intros H.
  destruct (_error this) eqn:He; cbn [negb] in H.
  { ok_inv H. auto. }
  destruct (_ >=? _); ok_inv H; apply counts_sound_same; proj;
    try reflexivity; try discriminate. intros _. exact He.
Qed.

Lemma headerName_sound this chunk this' out :
  on_ this (MultipartByteParser.headerName chunk) = Ok (this', out) ->
  counts_sound this -> counts_sound this'.
Proof.
  unfold on_, on, wrapInErrorChecker, _onHeaderName. intros H.
  destruct (_error this) eqn:He; cbn [negb] in H.
  { ok_inv H. auto. }
  destruct (_curPartState this); [|discriminate].
  ok_inv H. apply counts_sound_same; proj; try reflexivity.
  intros _. exact He.
Qed.

Lemma headerValue_sound this chunk this' out :
  on_ this (MultipartByteParser.headerValue chunk) = Ok (this', out) ->
  counts_sound this -> counts_sound this'.
Proof.
  unfold on_, on, wrapInErrorChecker, _onHeaderValue. intros H.
  destruct (_error this) eqn:He; cbn [negb] in H.
  { ok_inv H. auto. }
  destruct (_curPartState this) as [c|]; [|discriminate].
  destruct (_headerName c); [|discriminate].
  ok_inv H. apply counts_sound_same; proj; try reflexivity.
  intros _. exact He.
Qed.

Lemma headers_sound : forall hs this this' out,
  dispatch_ this (flat_map header_events hs) = Ok (this', out) ->
  counts_sound this -> counts_sound this'.
Proof.
  induction hs as [|h hs IH]; intros this this' out H Hs.
  - cbn in H. ok_inv H. exact Hs.
  - cbn [flat_map header_events app] in H.
    unfold dispatch_ in H. rewrite dispatch_cons in H.
    fold on_ dispatch_ in H.
    destruct (on_ this _) as [[t1 o1]| |] eqn:E1; try discriminate.
    unfold dispatch_ in H. rewrite dispatch_cons in H.
    fold on_ dispatch_ in H.
    destruct (on_ t1 _) as [[t2 o2]| |] eqn:E2; try discriminate.
    destruct (dispatch_ t2 _) as [[t3 o3]| |] eqn:E3; try discriminate.
    ok_inv H.
    eapply IH; [exact E3|].
    eapply headerValue_sound; [exact E2|].
    eapply headerName_sound; [exact E1|exact Hs].
Qed.

Lemma headersEnd_sound this this' out :
  on_ this MultipartByteParser.headersEnd = Ok (this', out) ->
  _error this = false ->
  counts_sound this -> counts_sound this' /\ count_tracks this'.
Proof.
  unfold on_, on, wrapInErrorChecker, _onHeadersEnd. intros H He.
  rewrite He in H. cbn [negb] in H.
  destruct (_curPartState this) as [c|]; [|discriminate].
  ok_inv H. intros ((Hall & Hsum) & Hm & Hle & Hok).
  set (p := Part.new _).
  assert (Hp : bytes_given p = 0).
  { unfold bytes_given. destruct (is_passthrough _); reflexivity. }
  split.
  - unfold counts_sound, limits_kept, set_parts. proj.
    rewrite passed_through_app, passed_through_one, Hp.
    repeat split; try lia.
    + apply Forall_app. split; [exact Hall|].
      constructor; [lia|constructor].
    + intros _. auto.
  - unfold count_tracks, set_parts. proj.
    eexists _, 0, (parts this), p.
    repeat split. 
Qed.

Lemma counts_sound_grow this this' :
  counts_sound this ->
  parts this' = parts this -> maxPartSize this' = maxPartSize this ->
  maxTotalSize this' = maxTotalSize this ->
  _totalSize this <= _totalSize this' ->
  (_error this' = false -> _totalSize this' <= maxTotalSize this) ->
  counts_sound this'.
Proof.
  intros ((Hall & Hsum) & Hm & Hle & Hok) Hp H1 H2 Ht He.
  unfold counts_sound, limits_kept. rewrite Hp, H1, H2.
  repeat split; try assumption; try lia.
Qed.

Lemma counts_sound_step this this' ps0 p p' d :
  counts_sound this ->
  parts this = ps0 ++ [p] -> parts this' = ps0 ++ [p'] ->
  maxPartSize this' = maxPartSize this ->
  maxTotalSize this' = maxTotalSize this ->
  bytes_given p' = bytes_given p + d -> 0 <= d ->
  bytes_given p' <= maxPartSize this ->
  _totalSize this + d <= _totalSize this' ->
  (d = 0 \/ _totalSize this' <= maxTotalSize this) ->
  (_error this' = false -> _totalSize this' <= maxTotalSize this) ->
  counts_sound this'.
Proof.
  intros ((Hall & Hsum) & Hm0 & Hle & Hok) Hp Hp' H1 H2 Hb Hd Hm Ht Hor He.
  unfold counts_sound, limits_kept. rewrite Hp', H1, H2.
  rewrite Hp in *. rewrite passed_through_app, passed_through_one in *.
  apply Forall_app in Hall. destruct Hall as [Hall _].
  repeat split; try assumption; try lia.
  apply Forall_app. split; [exact Hall|]. constructor; [lia|constructor].
Qed.

Lemma app_inj_last {A : Type} (a b : list A) (x y : A) :
  a ++ [x] = b ++ [y] -> a = b /\ x = y.
Proof. apply app_inj_tail. Qed.

Lemma partData_sound this chunk this' out :
  on_ this (MultipartByteParser.partData chunk) = Ok (this', out) ->
  _error this = false -> counts_sound this -> count_tracks this ->
  counts_sound this' /\ (_error this' = false -> count_tracks this').
Proof.
  unfold on_, on, wrapInErrorChecker, _onPartData.
  intros H He Hs (c & n & ps0 & p & Hc & Hn & Hp & Hended & Htr).
  rewrite He, Hc in H. cbn [negb] in H. proj. rewrite Hn in H.
  unfold plus, gt in H.
  pose proof (len_nonneg chunk) as Hlen.
  assert (Hok : _totalSize this <= maxTotalSize this) by (apply Hs, He).
  destruct (Z.gtb_spec (n + len chunk) (maxPartSize this)).
  { ok_inv H. split; [|discriminate].
    apply (counts_sound_grow this); proj; auto; try lia; discriminate. }
  destruct (Z.gtb_spec (_totalSize this + len chunk) (maxTotalSize this)).
  { ok_inv H. split; [|discriminate].
    apply (counts_sound_grow this); proj; auto; try lia; discriminate. }
  erewrite curPart_last in H by (proj; exact Hp).
  destruct (is_passthrough (Part.transferEncoding p)) eqn:Ept.
  { unfold Part.write in H. rewrite Hended in H. ok_inv H.
    unfold set_curPart, set_parts. proj. rewrite Hp, removelast_last.
    split.
    - eapply (counts_sound_step this _ ps0 p _ (len chunk)); proj;
        try reflexivity; try eassumption; try lia.
      + unfold bytes_given. proj. rewrite Ept, concat_snoc, len_app.
        reflexivity.
      + unfold bytes_given. proj. rewrite Ept, concat_snoc, len_app.
        rewrite (Htr eq_refl). lia.
    - intros _. unfold count_tracks. proj.
      eexists _, (n + len chunk), ps0, _.
      repeat split. proj. intros _. rewrite concat_snoc, len_app.
      rewrite (Htr eq_refl). reflexivity. }
  destruct (is_base64 (Part.transferEncoding p)) eqn:Eb.
  { unfold Part.write in H. rewrite Hended in H. ok_inv H.
    unfold set_curPart, set_parts. proj. rewrite Hp, removelast_last.
    split.
    - eapply (counts_sound_step this _ ps0 p _ 0); proj;
        try reflexivity; try eassumption; try lia.
      + unfold bytes_given. proj. rewrite Ept. reflexivity.
      + unfold bytes_given. proj. rewrite Ept.
        destruct Hs as ((Hall & _) & _). rewrite Hp in Hall.
        apply Forall_app in Hall. destruct Hall as [_ Hall].
        inversion Hall as [|? ? Hb _]. unfold bytes_given in Hb.
        rewrite Ept in Hb. exact Hb.
    - intros _. unfold count_tracks. proj.
      eexists _, (n + len chunk), ps0, _.
      repeat split. proj. rewrite Ept. discriminate. }
  ok_inv H. split; [|discriminate].
  apply (counts_sound_grow this); proj; auto; try lia; discriminate.
Qed.

Lemma bytes_given_same p p' :
  Part.transferEncoding p' = Part.transferEncoding p ->
  Part.written p' = Part.written p -> bytes_given p' = bytes_given p.
Proof. unfold bytes_given. intros -> ->. reflexivity. Qed.

Lemma partEnd_sound this this' out :
  on_ this MultipartByteParser.partEnd = Ok (this', out) ->
  _error this = false -> counts_sound this -> count_tracks this ->
  counts_sound this'.
Proof.
  unfold on_, on, wrapInErrorChecker, _onPartEnd, end_curPart.
  intros H He Hs (c & n & ps0 & p & Hc & Hn & Hp & Hended & Htr).
  rewrite He in H. cbn [negb] in H.
  erewrite curPart_last in H by exact Hp.
  assert (Hok : _totalSize this <= maxTotalSize this) by (apply Hs, He).
  assert (Hb : bytes_given p <= maxPartSize this).
  { destruct Hs as ((Hall & _) & _). rewrite Hp in Hall.
    apply Forall_app in Hall. destruct Hall as [_ Hall].
    inversion Hall. assumption. }
  destruct (is_passthrough (Part.transferEncoding p)) eqn:Ept;
    cbn [orb] in H.
  - unfold Part.end_ in H. rewrite Hended in H.
    destruct (Part.TYPES.eqb _ _); ok_inv H;
      unfold set_curPart, set_parts, set_ending; proj;
      rewrite ?removelast_last; rewrite Hp, ?removelast_last;
      (eapply (counts_sound_step this _ ps0 p _ 0); proj;
       try reflexivity; try eassumption; try lia;
       first [ rewrite Z.add_0_r; apply bytes_given_same; reflexivity
             | erewrite bytes_given_same;
               [exact Hb|reflexivity|reflexivity] ]).
  - destruct (is_base64 (Part.transferEncoding p)) eqn:Eb.
    + rewrite Hc in H. unfold Part.end_ in H. rewrite Hended in H.
      assert (Hz : forall q, Part.transferEncoding q = Part.transferEncoding p
                             -> bytes_given q = 0).
      { intros q Hq. unfold bytes_given. rewrite Hq, Ept. reflexivity. }
      destruct (Part.TYPES.eqb _ _); ok_inv H;
        unfold set_curPart, set_parts, set_ending; proj;
        rewrite ?removelast_last; rewrite Hp, ?removelast_last;
        (eapply (counts_sound_step this _ ps0 p _ 0); proj;
         try reflexivity; try eassumption; try lia;
         first [ rewrite Z.add_0_r, (Hz p eq_refl); apply Hz; reflexivity
               | rewrite Hz by reflexivity; apply Hs ]).
    + ok_inv H.
      apply (counts_sound_grow this); proj; auto; try lia; discriminate.
Qed.

Lemma data_sound : forall chunks this this' out,
  dispatch_ this (map MultipartByteParser.partData chunks)
  = Ok (this', out) ->
  _error this = false -> counts_sound this -> count_tracks this ->
  counts_sound this' /\ (_error this' = false -> count_tracks this').
Proof.
  induction chunks as [|chunk chunks IH]; intros this this' out H He Hs Ht.
  - cbn in H. ok_inv H. auto.
  - cbn [map] in H. unfold dispatch_ in H. rewrite dispatch_cons in H.
    fold on_ dispatch_ in H.
    destruct (on_ this _) as [[t1 o1]| |] eqn:E1; try discriminate.
    destruct (partData_sound _ _ _ _ E1 He Hs Ht) as [Hs1 Ht1].
    destruct (_error t1) eqn:He1.
    + unfold dispatch_ in H. rewrite dispatch_gate in H by exact He1.
      ok_inv H. split; [exact Hs1|]. rewrite He1. discriminate.
    + destruct (dispatch_ t1 _) as [[t2 o2]| |] eqn:E2; try discriminate.
      ok_inv H. eapply IH; eauto.
Qed.

Lemma part_sound this p this' out :
  dispatch_ this (events_of_part p) = Ok (this', out) ->
  counts_sound this -> counts_sound this'.
Proof.
  intros H Hs.
  destruct (_error this) eqn:He.
  { unfold dispatch_ in H. rewrite dispatch_gate in H by exact He.
    ok_inv H. exact Hs. }
  unfold events_of_part in H.
  unfold dispatch_ in H. rewrite dispatch_cons in H.
  fold on_ dispatch_ in H.
  destruct (on_ this _) as [[t1 o1]| |] eqn:E1; try discriminate.
  apply partBegin_sound in E1 as Hs1; [|exact Hs].
  unfold dispatch_ in H. rewrite dispatch_app in H. fold dispatch_ in H.
  destruct (dispatch_ t1 (flat_map _ _)) as [[t2 o2]| |] eqn:E2;
    try discriminate.
  apply headers_sound in E2 as Hs2; [|exact Hs1].
  destruct (_error t2) eqn:He2.
  { unfold dispatch_ in H. rewrite dispatch_gate in H by exact He2.
    ok_inv H. exact Hs2. }
  unfold dispatch_ in H. rewrite dispatch_cons in H.
  fold on_ dispatch_ in H.
  destruct (on_ t2 _) as [[t3 o3]| |] eqn:E3; try discriminate.
  destruct (headersEnd_sound _ _ _ E3 He2 Hs2) as [Hs3 Ht3].
  destruct (_error t3) eqn:He3.
  { unfold dispatch_ in H. rewrite dispatch_gate in H by exact He3.
    ok_inv H. exact Hs3. }
  unfold dispatch_ in H. rewrite dispatch_app in H. fold dispatch_ in H.
  destruct (dispatch_ t3 (map _ _)) as [[t4 o4]| |] eqn:E4; try discriminate.
  destruct (data_sound _ _ _ _ E4 He3 Hs3 Ht3) as [Hs4 Ht4].
  destruct (_error t4) eqn:He4.
  { unfold dispatch_ in H. rewrite dispatch_gate in H by exact He4.
    ok_inv H. exact Hs4. }
  unfold dispatch_ in H. rewrite dispatch_cons in H.
  fold on_ dispatch_ in H.
  destruct (on_ t4 _) as [[t5 o5]| |] eqn:E5; try discriminate.
  cbn [dispatch_ dispatch] in H. unfold dispatch_ in H. cbn [dispatch] in H.
  ok_inv H.
  eapply partEnd_sound; eauto.
Qed.

Lemma message_sound : forall ps this this' out,
  dispatch_ this (events_of_message ps) = Ok (this', out) ->
  counts_sound this -> counts_sound this'.
Proof.
  induction ps as [|p ps IH]; intros this this' out H Hs.
  - cbn in H. ok_inv H. exact Hs.
  - unfold events_of_message in H. cbn [flat_map] in H.
    unfold dispatch_ in H. rewrite dispatch_app in H. fold dispatch_ in H.
    destruct (dispatch_ this (events_of_part p)) as [[t1 o1]| |] eqn:E1;
    try discriminate.
    destruct (dispatch_ t1 _) as [[t2 o2]| |] eqn:E2; try discriminate.
    ok_inv H. eapply IH; [exact E2|].
    eapply part_sound; eauto.
Qed.

(** X5.  The size limits hold of what reaches the parts.  For a decoder
    that has taken nothing yet, with limits that are not negative, and the
    events of a message of any parts: the listeners return, and in the end
    no part whose encoding passes the bytes through has been given more
    than [maxPartSize] bytes, and all of them together have not been given
    more than [maxTotalSize] bytes. *)
Theorem size_limits_are_kept this ps :
  _error this = false -> parts this = [] -> _totalSize this = 0 ->
  0 <= maxPartSize this -> 0 <= maxTotalSize this ->
  exists this' out,
    dispatch_ this (events_of_message ps) = Ok (this', out)
    /\ Forall (fun p => bytes_given p <= maxPartSize this') (parts this')
    /\ passed_through (parts this') <= maxTotalSize this'.
Proof.
  intros He Hp Ht H1 H2.
  destruct (dispatch_message toLowerCase _getFieldName _getFilename
              _getContentId base64 ps this He) as (this' & out & E & _).
  exists this', out. split; [exact E|].
  apply message_sound in E.
  - destruct E as ((Hall & Hsum) & _). auto.
  - unfold counts_sound, limits_kept. rewrite Hp, Ht.
    repeat split; try assumption; try constructor; cbn; lia.
Qed.

End Limits.

(** With at most two bytes a part, the message of three parts of the
    examples. *)
Lemma size_limits_are_kept_witness :
  exists this' out,
    MultipartParser.dispatch Sample.toLowerCase Sample.no_match
      Sample.no_match Sample.no_match Sample.base64
      (Sample.decoder None (Some 2) None)
      (events_of_message Reached.three_parts)
    = Ok (this', out)
    /\ Forall (fun p => bytes_given p <= MultipartParser.maxPartSize this')
         (MultipartParser.parts this')
    /\ passed_through (MultipartParser.parts this')
       <= MultipartParser.maxTotalSize this'.
Proof.
  apply (size_limits_are_kept Sample.toLowerCase Sample.no_match
           Sample.no_match Sample.no_match Sample.base64
           (Sample.decoder None (Some 2) None) Reached.three_parts).
  - reflexivity.
  - reflexivity.
  - reflexivity.
  - vm_compute. discriminate.
  - vm_compute. discriminate.
Defined.

(** ** Further properties of the scanner: a message in one chunk *)

Section Runs.
Import MultipartByteParserState MultipartByteParser.

Variable B : Buffer.
Variable chars : list Z.
Variable chunk : Buffer.

Lemma runs_one st pos st1 pos1 evs1 :
  pos < len chunk -> step B chars chunk st pos = Break st1 pos1 evs1 ->
  runs B chars chunk st pos evs1 st1 (pos1 + 1).
Proof.
  intros Hp Hs. rewrite <- (app_nil_r evs1).
  eapply runs_step; [exact Hp|exact Hs|constructor].
Qed.

Lemma runs_trans st pos evs st1 pos1 :
  runs B chars chunk st pos evs st1 pos1 ->
  forall evs' st2 pos2,
  runs B chars chunk st1 pos1 evs' st2 pos2 ->
  runs B chars chunk st pos (evs ++ evs') st2 pos2.
Proof.
  induction 1 as [|st pos sa pa ea evs st1 pos1 Hp Hs _ IH];
    intros evs' st2 pos2 H2.
  - exact H2.
  - rewrite <- app_assoc. eapply runs_step; [exact Hp|exact Hs|].
    apply IH. exact H2.
Qed.

(** A run that comes to the state END before the end of the chunk is
    what [loop] does: the pass in the state END returns. *)
Lemma runs_done st pos evs st' pos' :
  runs B chars chunk st pos evs st' pos' ->
  state st' = STATES.END -> pos' < len chunk ->
  forall fuel acc,
  mu chunk st pos <= Z.of_nat fuel ->
  loop B chars chunk fuel st pos acc = Some (st', acc ++ evs, None).
Proof.
  induction 1 as [st pos|st pos sa pa ea evs st1 pos1 Hp Hs _ IH];
    intros Hend Hlt fuel acc Hmu.
  - destruct fuel as [|fuel].
    { unfold mu in Hmu. destruct (index st >? 0); lia. }
    cbn [loop]. replace (pos <? len chunk) with true
      by (symmetry; apply Z.ltb_lt; exact Hlt).
    unfold step. rewrite Hend. reflexivity.
  - destruct fuel as [|fuel].
    { unfold mu in Hmu. destruct (index st >? 0); lia. }
    cbn [loop]. replace (pos <? len chunk) with true
      by (symmetry; apply Z.ltb_lt; exact Hp).
    rewrite Hs. rewrite IH; [rewrite app_assoc; reflexivity|assumption..|].
    apply step_progress in Hs. unfold mu in *.
    destruct Hs as [Hle | (Hq & H1 & H2)].
    + destruct (index sa >? 0); destruct (index st >? 0); lia.
    + rewrite H1. rewrite H2 in Hmu. lia.
Qed.

End Runs.

Lemma at_mid (pre : Buffer) c post :
  at_ (pre ++ c :: post) (len pre) = Some c.
Proof.
  unfold at_, len. destruct (Z.ltb_spec (Z.of_nat (length pre)) 0); [lia|].
  rewrite Nat2Z.id, nth_error_app2 by lia.
  rewrite Nat.sub_diag. reflexivity.
Qed.

Lemma slice_mid (pre seg post : Buffer) :
  slice (pre ++ seg ++ post) (len pre) (len pre + len seg) = seg.
Proof.
  unfold slice, clamp.
  pose proof (len_nonneg pre). pose proof (len_nonneg seg).
  pose proof (len_nonneg post).
  rewrite !len_app.
  destruct (Z.ltb_spec (len pre) 0); [lia|].
  destruct (Z.ltb_spec (len pre + len seg) 0); [lia|].
  rewrite !Z.min_l by lia.
  replace (len pre + len seg - len pre) with (len seg) by lia.
  unfold len. rewrite !Nat2Z.id.
  rewrite skipn_app, skipn_all, Nat.sub_diag. cbn [skipn app].
  rewrite firstn_app, firstn_all, Nat.sub_diag. cbn [firstn].
  apply app_nil_r.
Qed.

Lemma events_of_message_cons p ps :
  events_of_message (part_events_of p :: ps)
  = MultipartByteParser.partBegin
    :: (flat_map header_events (fst p)
        ++ MultipartByteParser.headersEnd
           :: map MultipartByteParser.partData (pe_data (part_events_of p)))
    ++ MultipartByteParser.partEnd :: events_of_message ps.
Proof.
  unfold events_of_message at 1. cbn [flat_map].
  fold (events_of_message ps). unfold events_of_part.
  destruct p as [hs body]. cbn [part_events_of pe_headers pe_data fst snd].
  cbn [app]. rewrite <- !app_assoc. cbn [app]. rewrite <- !app_assoc.
  reflexivity.
Qed.

Section Wire.
Import MultipartByteParserState MultipartByteParser.

(** The Buffer of an ASCII boundary [b]. *)
Variable b : list Z.
Let BOUNDARY : Buffer := 13 :: 10 :: 45 :: 45 :: b.
Let BL : Z := len BOUNDARY.

Variable chunk : Buffer.

Let runs_ := runs BOUNDARY BOUNDARY chunk.
Let step_ := step BOUNDARY BOUNDARY chunk.

Let in_state (st : MultipartByteParserState.t) (s : STATES.t) (i f : Z)
    : Prop :=
  state st = s /\ index st = i /\ flags st = f.

Lemma name_byte_not_colon c :
  name_byte (Some c) = true -> c <> CHARS.COLON /\ c <> CHARS.CR.
Proof.
  intros H. split; intros ->; vm_compute in H; discriminate.
Qed.

(** The bytes of a header name. *)
Lemma run_name : forall k pre post st,
  chunk = pre ++ k ++ post ->
  Forall (fun c => name_byte (Some c) = true) k ->
  state st = STATES.HEADER_NAME ->
  exists st',
    runs_ st (len pre) [] st' (len pre + len k)
    /\ in_state st' STATES.HEADER_NAME (index st + len k) (flags st)
    /\ markers st' = markers st.
Proof.
  induction k as [|c k IH]; intros pre post st Hc Hk Hs.
  - exists st. change (len (@nil Z)) with 0. rewrite !Z.add_0_r.
    split; [constructor|]. repeat split; assumption.
  - apply Forall_cons_iff in Hk. destruct Hk as [Hn Hk'].
    destruct (IH (pre ++ [c]) post (set_index st (index st + 1)))
      as (st' & Hr & (H1 & H2 & H3) & H4).
    + rewrite Hc, <- app_assoc. reflexivity.
    + exact Hk'.
    + exact Hs.
    + exists st'. rewrite len_app in Hr.
      change (len [c]) with 1 in Hr. rewrite len_cons.
      replace (len pre + (len k + 1)) with (len pre + 1 + len k) by lia.
      split.
      * change (@nil event) with (@nil event ++ @nil event).
        eapply runs_step; [| |exact Hr].
        -- rewrite Hc, len_app. cbn [app]. rewrite len_cons.
           pose proof (len_nonneg (k ++ post)). lia.
        -- unfold step. rewrite Hs. unfold case_HEADER_NAME.
           rewrite Hc at 1. cbn [app]. rewrite at_mid, Hn. reflexivity.
      * cbn in H2, H3, H4. repeat split; try assumption. lia.
Qed.

(** The bytes of a header value after the first. *)
Lemma run_value : forall v pre post st,
  chunk = pre ++ v ++ post ->
  Forall (fun c => c <> CHARS.CR) v ->
  state st = STATES.HEADER_VALUE ->
  runs_ st (len pre) [] st (len pre + len v).
Proof.
  induction v as [|c v IH]; intros pre post st Hc Hv Hs.
  - change (len (@nil Z)) with 0. rewrite Z.add_0_r. constructor.
  - apply Forall_cons_iff in Hv. destruct Hv as [Hn Hv'].
    rewrite len_cons.
    replace (len pre + (len v + 1)) with (len (pre ++ [c]) + len v)
      by (rewrite len_app; change (len [c]) with 1; lia).
    change (@nil event) with (@nil event ++ @nil event).
    eapply runs_step.
    + rewrite Hc, len_app. cbn [app]. rewrite len_cons.
      pose proof (len_nonneg (v ++ post)). lia.
    + unfold step. rewrite Hs. unfold case_HEADER_VALUE.
      rewrite Hc at 1. cbn [app]. rewrite at_mid.
      unfold isc, same. apply Z.eqb_neq in Hn. rewrite Hn. reflexivity.
    + replace (len pre + 1) with (len (pre ++ [c]))
        by (rewrite len_app; reflexivity).
      apply (IH (pre ++ [c]) post st); [|exact Hv'|exact Hs].
      rewrite Hc, <- app_assoc. reflexivity.
Qed.

Lemma runs_eq st pos evs evs' st' pos' pos'' :
  runs_ st pos evs st' pos' -> evs = evs' -> pos' = pos'' ->
  runs_ st pos evs' st' pos''.
Proof. intros H <- <-. exact H. Qed.

(** One pass, at the byte [c] that follows [front]. *)
Lemma take front c back st pos st1 pos1 evs1 evs st' pos' :
  chunk = front ++ c :: back -> pos = len front ->
  (at_ chunk pos = Some c -> step_ st pos = Break st1 pos1 evs1) ->
  runs_ st1 (pos1 + 1) evs st' pos' ->
  runs_ st pos (evs1 ++ evs) st' pos'.
Proof.
  intros Hc -> Hs Hr. eapply runs_step; [|apply Hs|exact Hr].
  - rewrite Hc, len_app, len_cons. pose proof (len_nonneg back). lia.
  - rewrite Hc. apply at_mid.
Qed.

Lemma str_colon : str ": " = [58; 32].
Proof. reflexivity. Qed.

Lemma str_crlf : str Sample.CRLF = [13; 10].
Proof. reflexivity. Qed.

Lemma str_hyphens : str "--" = [45; 45].
Proof. reflexivity. Qed.

Lemma slice_at (front seg back : Buffer) s e :
  chunk = front ++ seg ++ back -> s = len front -> e = len front + len seg ->
  slice chunk s e = seg.
Proof. intros -> -> ->. apply slice_mid. Qed.

(** A header line: the name, the colon and the space, the value, the
    line break. *)
Lemma run_header_line k v pre post st :
  chunk = pre ++ header_line (k, v) ++ post ->
  name_ok k -> value_ok v ->
  state st = STATES.HEADER_NAME_START ->
  exists st',
    runs_ st (len pre) [headerName k; headerValue v] st'
      (len pre + len (header_line (k, v)))
    /\ state st' = STATES.HEADER_NAME_START /\ flags st' = flags st.
Proof.
  intros Hc [Hk0 Hk] (Hv0 & Hsp & Hv) Hs.
  unfold header_line in *. cbn [fst snd] in *.
  rewrite str_colon, str_crlf in *.
  destruct k as [|c0 k]; [congruence|].
  destruct v as [|d0 v]; [congruence|].
  apply Forall_cons_iff in Hk. destruct Hk as [Hc0 Hk].
  apply Forall_cons_iff in Hv. destruct Hv as [Hd0 Hv].
  cbn [hd] in Hsp.
  set (st0 := updateState (mark (set_index st 0) headerName_ (len pre))
                STATES.HEADER_NAME).
  destruct (run_name k (pre ++ [c0]) ([58; 32] ++ (d0 :: v) ++ [13; 10] ++ post)
              (set_index st0 (index st0 + 1)))
    as (st2 & Hr2 & (Hs2 & Hi2 & Hf2) & Hm2).
  { rewrite Hc. repeat (rewrite <- ?app_assoc; cbn [app]). reflexivity. }
  { exact Hk. }
  { reflexivity. }
  set (pv := pre ++ (c0 :: k) ++ [58; 32]).
  set (st3 := updateState (clear st2 headerName_) STATES.HEADER_VALUE_START).
  set (st4 := updateState (mark st3 headerValue_ (len pv))
                STATES.HEADER_VALUE).
  pose proof (run_value v (pv ++ [d0]) ([13; 10] ++ post) st4) as Hr4.
  exists (updateState (updateState (clear st4 headerValue_)
                         STATES.HEADER_VALUE_END)
            STATES.HEADER_NAME_START).
  split; [|split; [reflexivity|]].
  2:{ cbn. cbn in Hf2. exact Hf2. }
  eapply runs_eq.
  - (* the first byte of the name *)
    eapply (take pre c0); [rewrite Hc; cbn [app]; reflexivity|reflexivity| |].
    { intros Hb. unfold step_, step. rewrite Hs, Hb.
      unfold case_HEADER_NAME. rewrite Hc0. reflexivity. }
    eapply runs_trans.
    { replace (len pre + 1) with (len (pre ++ [c0])) by lens. exact Hr2. }
    (* the colon *)
    eapply (take (pre ++ c0 :: k) 58);
      [rewrite Hc; repeat (rewrite <- ?app_assoc; cbn [app]); reflexivity
      |lens| |].
    { intros Hb. unfold step_, step. rewrite Hs2, Hb.
      unfold case_HEADER_NAME.
      change (name_byte (Some 58)) with false.
      change (isc (Some 58) CHARS.COLON) with true. cbv iota.
      rewrite Hi2.
      replace (index (set_index st0 (index st0 + 1)) + len k =? 0)
        with false.
      2:{ symmetry. apply Z.eqb_neq. unfold st0.
          cbn [index set_index updateState mark set_markers]. lens. }
      cbn [negb]. unfold emit, getMarker. rewrite Hm2.
      cbn [markers set_index st0 updateState mark set_markers put
           m_headerName].
      replace (len pre <? len (pre ++ [c0]) + len k) with true.
      2:{ symmetry. apply Z.ltb_lt. lens. }
      rewrite (slice_at pre (c0 :: k) ([58; 32] ++ (d0 :: v) ++ [13; 10] ++ post));
        [reflexivity| | |].
      - rewrite Hc. repeat (rewrite <- ?app_assoc; cbn [app]). reflexivity.
      - reflexivity.
      - lens. }
    (* the space *)
    eapply (take (pre ++ (c0 :: k) ++ [58]) 32);
      [rewrite Hc; repeat (rewrite <- ?app_assoc; cbn [app]); reflexivity
      |lens| |].
    { intros Hb. unfold step_, step. fold st3.
      change (state st3) with STATES.HEADER_VALUE_START. rewrite Hb.
      change (isc (Some 32) CHARS.SPACE) with true. reflexivity. }
    (* the first byte of the value *)
    replace (len (pre ++ [c0]) + len k + 1 + 1) with (len pv)
      by (unfold pv; lens).
    eapply (take pv d0);
      [rewrite Hc; unfold pv; repeat (rewrite <- ?app_assoc; cbn [app]);
       reflexivity
      |reflexivity| |].
    { intros Hb. unfold step_, step.
      change (state st3) with STATES.HEADER_VALUE_START. rewrite Hb.
      unfold isc, same.
      replace (d0 =? CHARS.SPACE) with false
        by (symmetry; apply Z.eqb_neq; exact Hsp).
      unfold case_HEADER_VALUE, isc, same.
      replace (d0 =? CHARS.CR) with false
        by (symmetry; apply Z.eqb_neq; exact Hd0).
      reflexivity. }
    eapply runs_trans.
    { replace (len pv + 1) with (len (pv ++ [d0])) by lens.
      apply Hr4; [|exact Hv|reflexivity].
      rewrite Hc. unfold pv.
      repeat (rewrite <- ?app_assoc; cbn [app]). reflexivity. }
    (* the carriage return *)
    eapply (take (pv ++ d0 :: v) 13);
      [rewrite Hc; unfold pv; repeat (rewrite <- ?app_assoc; cbn [app]);
       reflexivity
      |lens| |].
    { intros Hb. unfold step_, step.
      change (state st4) with STATES.HEADER_VALUE. rewrite Hb.
      unfold case_HEADER_VALUE.
      change (isc (Some 13) CHARS.CR) with true. cbv iota.
      unfold emit, getMarker.
      change (m_headerValue (markers st4)) with (Some (len pv)).
      cbv beta iota.
      replace (len pv <? len (pv ++ [d0]) + len v) with true.
      2:{ symmetry. apply Z.ltb_lt. lens. }
      rewrite (slice_at pv (d0 :: v) ([13; 10] ++ post));
        [reflexivity| | |].
      - rewrite Hc. unfold pv.
        repeat (rewrite <- ?app_assoc; cbn [app]). reflexivity.
      - reflexivity.
      - lens. }
    (* the line feed *)
    eapply (take (pv ++ (d0 :: v) ++ [13]) 10);
      [rewrite Hc; unfold pv; repeat (rewrite <- ?app_assoc; cbn [app]);
       reflexivity
      |lens| |].
    { intros Hb. unfold step_, step.
      change (state (updateState (clear st4 headerValue_)
                       STATES.HEADER_VALUE_END))
        with STATES.HEADER_VALUE_END. rewrite Hb.
      change (isc (Some 10) CHARS.LF) with true. reflexivity. }
    constructor.
  - reflexivity.
  - unfold pv. lens.
Qed.

(** The header lines of a part. *)
Lemma run_headers : forall hs pre post st,
  chunk = pre ++ flat_map header_line hs ++ post ->
  Forall (fun h => name_ok (fst h) /\ value_ok (snd h)) hs ->
  state st = STATES.HEADER_NAME_START ->
  exists st',
    runs_ st (len pre) (flat_map header_events hs) st'
      (len pre + len (flat_map header_line hs))
    /\ state st' = STATES.HEADER_NAME_START /\ flags st' = flags st.
Proof.
  induction hs as [|[k v] hs IH]; intros pre post st Hc Hok Hs.
  - exists st. cbn [flat_map]. change (@len Z []) with 0.
    rewrite Z.add_0_r. split; [constructor|]. auto.
  - apply Forall_cons_iff in Hok. destruct Hok as [[Hk Hv] Hok].
    cbn [fst snd] in Hk, Hv. cbn [flat_map] in *.
    destruct (run_header_line k v pre (flat_map header_line hs ++ post) st)
      as (st1 & Hr1 & Hs1 & Hf1); try assumption.
    { rewrite Hc, <- app_assoc. reflexivity. }
    destruct (IH (pre ++ header_line (k, v)) post st1)
      as (st2 & Hr2 & Hs2 & Hf2); try assumption.
    { rewrite Hc, <- !app_assoc. reflexivity. }
    exists st2. split; [|split; [exact Hs2|congruence]].
    eapply runs_eq; [eapply runs_trans; [exact Hr1|]| |].
    + replace (len pre + len (header_line (k, v)))
        with (len (pre ++ header_line (k, v))) by lens.
      exact Hr2.
    + reflexivity.
    + lens.
Qed.

(** The empty line that ends the headers. *)
Lemma run_headers_end pre post st :
  chunk = pre ++ [13; 10] ++ post ->
  state st = STATES.HEADER_NAME_START ->
  exists st',
    runs_ st (len pre) [headersEnd] st' (len pre + 2)
    /\ in_state st' STATES.PART_DATA_START 0 (flags st).
Proof.
  intros Hc Hs.
  set (st0 := updateState (mark (set_index st 0) headerName_ (len pre))
                STATES.HEADER_NAME).
  set (st1 := updateState (clear st0 headerName_) STATES.HEADERS_END).
  exists (updateState st1 STATES.PART_DATA_START).
  split; [|repeat split].
  eapply runs_eq.
  - eapply (take pre 13); [rewrite Hc; reflexivity|reflexivity| |].
    { intros Hb. unfold step_, step. rewrite Hs, Hb.
      unfold case_HEADER_NAME.
      change (name_byte (Some 13)) with false.
      change (isc (Some 13) CHARS.COLON) with false.
      change (isc (Some 13) CHARS.CR) with true. reflexivity. }
    eapply (take (pre ++ [13]) 10);
      [rewrite Hc, <- app_assoc; reflexivity|lens| |].
    { intros Hb. unfold step_, step. fold st0 st1.
      change (state st1) with STATES.HEADERS_END. rewrite Hb.
      change (isc (Some 10) CHARS.LF) with true. reflexivity. }
    constructor.
  - reflexivity.
  - lens.
Qed.

Lemma boundary_eq : BOUNDARY = 13 :: 10 :: 45 :: 45 :: b.
Proof. reflexivity. Qed.

Lemma BL_eq : BL = len b + 4.
Proof. unfold BL. rewrite boundary_eq. lens. Qed.

Lemma at_inside (front seg back : Buffer) j :
  len front <= j < len front + len seg ->
  exists x, at_ (front ++ seg ++ back) j = Some x /\ In x seg.
Proof.
  intros Hj. unfold at_, len in *.
  destruct (Z.ltb_spec j 0); [lia|].
  rewrite nth_error_app2 by lia.
  rewrite nth_error_app1 by lia.
  destruct (nth_error seg (Z.to_nat j - length front)) as [x|] eqn:E.
  - exists x. split; [reflexivity|]. eapply nth_error_In; eauto.
  - apply nth_error_None in E. lia.
Qed.

Lemma in_chars_In x (l : list Z) : In x l -> in_chars (Some x) l = true.
Proof.
  intros H. unfold in_chars. apply existsb_exists.
  exists x. split; [exact H|apply Z.eqb_refl].
Qed.

(** The quick scan does not go past a boundary. *)
Lemma quick_scan_bound front back : forall fuel cur r,
  chunk = front ++ BOUNDARY ++ back ->
  cur <= len front + BL - 1 ->
  quick_scan BOUNDARY BOUNDARY chunk fuel cur = Some r ->
  r <= len front + BL - 1.
Proof.
  induction fuel as [|fuel IH]; intros cur r Hc Hle; cbn [quick_scan];
    [discriminate|].
  destruct ((cur <? len chunk)
            && negb (in_chars (at_ chunk cur) BOUNDARY)) eqn:E.
  2:{ intros H. inversion H; subst. exact Hle. }
  apply IH; [exact Hc|]. fold BL.
  apply andb_prop in E. destruct E as [_ E].
  destruct (Z.lt_ge_cases cur (len front)) as [Hlt|Hge]; [lia|].
  exfalso.
  destruct (at_inside front BOUNDARY back cur) as (x & Hx & Hin).
  { fold BL. lia. }
  rewrite Hc, Hx, (in_chars_In _ _ Hin) in E. discriminate.
Qed.

Lemma body_step pre body post st pos f :
  chunk = pre ++ body ++ BOUNDARY ++ post ->
  Forall (fun c => c <> CHARS.CR) body ->
  in_state st STATES.PART_DATA 0 f ->
  len pre <= pos <= len pre + len body ->
  exists q,
    pos <= q <= len pre + len body
    /\ ((q < len pre + len body
         /\ step_ st pos = Break (set_index st 0) q [])
        \/ (q = len pre + len body
            /\ step_ st pos =
               let E := emit st partData_ chunk (getMarker st partData_) q
                          false in
               Break (set_lookbehind (set_index (fst E) 1) 0 (Some 13)) q
                 (snd E))).
Proof.
  intros Hc Hbody (Hs & Hi & Hf) Hpos.
  assert (HBL : 0 < len BOUNDARY)
    by (fold BL; rewrite BL_eq; pose proof (len_nonneg b); lia).
  pose proof (len_nonneg pre) as Hpre.
  destruct (quick_scan_exit BOUNDARY BOUNDARY chunk (length chunk)
              (pos + (len BOUNDARY - 1)) HBL) as (r & Hr & _).
  { unfold len in *. lia. }
  set (q := r - (len BOUNDARY - 1)).
  assert (Hc' : chunk = (pre ++ body) ++ BOUNDARY ++ post)
    by (rewrite Hc, <- app_assoc; reflexivity).
  assert (Hq : pos <= q <= len pre + len body).
  { unfold q. split.
    - pose proof (quick_scan_ge BOUNDARY BOUNDARY chunk (S (length chunk))
                    (pos + (len BOUNDARY - 1)) r Hr). lia.
    - pose proof (quick_scan_bound (pre ++ body) post (S (length chunk))
                    (pos + (len BOUNDARY - 1)) r Hc') as H.
      rewrite len_app in H. fold BL in H |- *.
      specialize (H ltac:(lia) Hr). lia. }
  exists q. split; [exact Hq|].
  unfold step_, step. rewrite Hs. unfold case_PART_DATA. rewrite Hi.
  change (0 =? 0) with true. cbv iota. rewrite Hr. fold q.
  unfold after_quick_scan. rewrite Hi.
  replace (0 <? len BOUNDARY) with true
    by (symmetry; apply Z.ltb_lt; fold BL; rewrite BL_eq; lens).
  change (at_ BOUNDARY 0) with (Some 13).
  destruct (Z.lt_ge_cases q (len pre + len body)) as [Hlt|Hge].
  - left. split; [exact Hlt|].
    destruct (at_inside pre body (BOUNDARY ++ post) q) as (x & Hx & Hin);
      [lia|].
    rewrite <- Hc in Hx. rewrite Hx. unfold same.
    replace (x =? 13) with false.
    2:{ symmetry. apply Z.eqb_neq.
        rewrite Forall_forall in Hbody. exact (Hbody x Hin). }
    reflexivity.
  - right. assert (Eq : q = len pre + len body) by lia.
    split; [exact Eq|].
    assert (Hx : at_ chunk q = Some 13).
    { rewrite Eq, Hc', boundary_eq, <- len_app. cbn [app]. apply at_mid. }
    rewrite Hx. cbn [same]. change (13 =? 13) with true. cbv iota zeta.
    destruct (emit st partData_ chunk (getMarker st partData_) q false)
      as [st1 evs] eqn:E.
    apply emit_fields in E. destruct E as (_ & _ & Ei & _).
    cbn [fst snd index set_index]. change (0 =? 0) with true.
    cbv iota beta zeta. cbn [index set_index]. rewrite Ei, Hi.
    reflexivity.
Qed.

Lemma len_zero (l : Buffer) : len l = 0 -> l = [].
Proof. destruct l; [reflexivity|]. rewrite len_cons. lens. Qed.

(** The body of a part, up to the carriage return of the boundary that
    follows it. *)
Lemma body_scan pre body post f :
  chunk = pre ++ body ++ BOUNDARY ++ post ->
  Forall (fun c => c <> CHARS.CR) body ->
  forall n pos st,
  (Z.to_nat (len pre + len body - pos) <= n)%nat ->
  len pre <= pos <= len pre + len body ->
  in_state st STATES.PART_DATA 0 f ->
  getMarker st partData_ = Some (len pre) ->
  exists st',
    runs_ st pos (match body with [] => [] | _ => [partData body] end) st'
      (len pre + len body + 1)
    /\ in_state st' STATES.PART_DATA 1 f.
Proof.
  intros Hc Hbody.
  assert (Hlt : forall pos, pos <= len pre + len body -> pos < len chunk).
  { intros pos Hp. rewrite Hc, !len_app. pose proof BL_eq as HBL.
    unfold BL in HBL. pose proof (len_nonneg b). lens. }
  induction n as [|n IH]; intros pos st Hn Hpos Hst Hm;
    destruct (body_step pre body post st pos f Hc Hbody Hst Hpos)
      as (q & Hq & [[Hq1 Hstep] | [Hq1 Hstep]]).
  - lia.
  - destruct Hst as (Hs & Hi & Hf).
    cbv zeta in Hstep. rewrite Hm in Hstep. unfold emit in Hstep.
    eexists. split.
    + eapply runs_eq; [eapply runs_one; [apply Hlt; lia|exact Hstep]| |lia].
      destruct (Z.ltb_spec (len pre) q).
      * cbn [snd]. rewrite (slice_at pre body (BOUNDARY ++ post)); auto.
        destruct body; [|reflexivity]. change (@len Z []) with 0 in *. lia.
      * cbn [snd]. rewrite (len_zero body) by lia. reflexivity.
    + unfold in_state. destruct (len pre <? q); cbn; auto.
  - destruct Hst as (Hs & Hi & Hf).
    destruct (IH (q + 1) (set_index st 0)) as (st' & Hr & Hst'); try lia.
    { repeat split; assumption. }
    { exact Hm. }
    exists st'. split; [|exact Hst'].
    change (match body with [] => [] | _ :: _ => [partData body] end)
      with ([] ++ match body with [] => [] | _ :: _ => [partData body] end).
    eapply runs_step; [apply Hlt; lia|exact Hstep|exact Hr].
  - destruct Hst as (Hs & Hi & Hf).
    cbv zeta in Hstep. rewrite Hm in Hstep. unfold emit in Hstep.
    eexists. split.
    + eapply runs_eq; [eapply runs_one; [apply Hlt; lia|exact Hstep]| |lia].
      destruct (Z.ltb_spec (len pre) q).
      * cbn [snd]. rewrite (slice_at pre body (BOUNDARY ++ post)); auto.
        destruct body; [|reflexivity]. change (@len Z []) with 0 in *. lia.
      * cbn [snd]. rewrite (len_zero body) by lia. reflexivity.
    + unfold in_state. destruct (len pre <? q); cbn; auto.
Qed.

(** A state that takes the same first pass goes the same way. *)
Lemma runs_first st st0 pos evs st' pos' :
  step_ st pos = step_ st0 pos -> pos <> pos' ->
  runs_ st0 pos evs st' pos' -> runs_ st pos evs st' pos'.
Proof.
  intros Hs Hne Hr. inversion Hr; subst.
  - congruence.
  - eapply runs_step; [eassumption| |eassumption].
    unfold step_ in Hs. rewrite Hs. assumption.
Qed.

(** The body of a part from where it begins. *)
Lemma run_body pre body post st f :
  chunk = pre ++ body ++ BOUNDARY ++ post ->
  Forall (fun c => c <> CHARS.CR) body ->
  in_state st STATES.PART_DATA_START 0 f ->
  exists st',
    runs_ st (len pre) (match body with [] => [] | _ => [partData body] end)
      st' (len pre + len body + 1)
    /\ in_state st' STATES.PART_DATA 1 f.
Proof.
  intros Hc Hbody (Hs & Hi & Hf).
  set (st0 := updateState (mark st partData_ (len pre)) STATES.PART_DATA).
  destruct (body_scan pre body post f Hc Hbody
              (Z.to_nat (len pre + len body - len pre)) (len pre) st0)
    as (st' & Hr & Hst'); try lia.
  { lens. }
  { repeat split; assumption. }
  { reflexivity. }
  exists st'. split; [|exact Hst'].
  eapply runs_first; [| |exact Hr].
  - unfold step_, step. rewrite Hs. reflexivity.
  - lens.
Qed.

(** The bytes of a boundary after its first, within the data. *)
Lemma run_boundary_rest : forall seg front pre post st f,
  BOUNDARY = front ++ seg -> chunk = pre ++ seg ++ post ->
  in_state st STATES.PART_DATA (len front) f -> 1 <= len front ->
  exists st',
    runs_ st (len pre) [] st' (len pre + len seg)
    /\ in_state st' STATES.PART_DATA (len front + len seg) f.
Proof.
  induction seg as [|c seg IH]; intros front pre post st f HB Hc Hst Hfront.
  - exists st. change (@len Z []) with 0. rewrite !Z.add_0_r.
    split; [constructor|exact Hst].
  - destruct Hst as (Hs & Hi & Hf).
    set (st1 := set_lookbehind (set_index st (index st + 1))
                  (index st + 1 - 1) (Some c)).
    destruct (IH (front ++ [c]) (pre ++ [c]) post st1 f)
      as (st' & Hr & Hst').
    { rewrite HB, <- app_assoc. reflexivity. }
    { rewrite Hc, <- app_assoc. reflexivity. }
    { repeat split; try assumption. cbn. rewrite Hi. lens. }
    { lens. }
    exists st'. split.
    + eapply runs_eq.
      * eapply (take pre c); [exact Hc|reflexivity| |].
        { intros Hb. unfold step_, step. rewrite Hs, Hb.
          unfold case_PART_DATA, after_quick_scan. rewrite Hi.
          replace (len front =? 0) with false
            by (symmetry; apply Z.eqb_neq; lia).
          cbv iota.
          replace (len front <? len BOUNDARY) with true
            by (symmetry; apply Z.ltb_lt; rewrite HB; lens).
          replace (at_ BOUNDARY (len front)) with (Some c)
            by (rewrite HB; symmetry; apply at_mid).
          cbn [same]. rewrite Z.eqb_refl. cbv iota.
          cbn [index set_index]. rewrite <- Hi.
          replace (index st + 1 >? 0) with true
            by (symmetry; apply Z.gtb_lt; lia).
          fold st1. reflexivity. }
        replace (len pre + 1) with (len (pre ++ [c])) by lens.
        exact Hr.
      * reflexivity.
      * lens.
    + destruct Hst' as (H1 & H2 & H3). repeat split; try assumption.
      rewrite H2. lens.
Qed.

(** The line break after a boundary: the part has ended and another
    one begins. *)
Lemma run_part_boundary pre post st :
  chunk = pre ++ [13; 10] ++ post ->
  in_state st STATES.PART_DATA BL 0 ->
  exists st',
    runs_ st (len pre) [partEnd; partBegin] st' (len pre + 2)
    /\ state st' = STATES.HEADER_NAME_START /\ flags st' = 0.
Proof.
  intros Hc (Hs & Hi & Hf).
  set (st1 := set_lookbehind
                (setFlags (set_index st (index st + 1)) FLAGS.PART_BOUNDARY)
                (index st + 1 - 1) (Some 13)).
  eexists. split.
  - eapply runs_eq.
    + eapply (take pre 13); [rewrite Hc; reflexivity|reflexivity| |].
      { intros Hb. unfold step_, step. rewrite Hs, Hb.
        unfold case_PART_DATA, after_quick_scan. rewrite Hi.
        replace (BL =? 0) with false
          by (symmetry; apply Z.eqb_neq; rewrite BL_eq; lens).
        cbv iota. fold BL. rewrite Z.ltb_irrefl, Z.eqb_refl.
        change (isc (Some 13) CHARS.CR) with true. cbv iota.
        cbn [index setFlags set_flags set_index]. rewrite <- Hi.
        replace (index st + 1 >? 0) with true
          by (symmetry; apply Z.gtb_lt; rewrite Hi, BL_eq; lens).
        fold st1. reflexivity. }
      eapply (take (pre ++ [13]) 10);
        [rewrite Hc, <- app_assoc; reflexivity|lens| |].
      { intros Hb. unfold step_, step.
        change (state st1) with (state st). rewrite Hs, Hb.
        unfold case_PART_DATA, after_quick_scan.
        change (index st1) with (index st + 1). rewrite Hi.
        replace (BL + 1 =? 0) with false
          by (symmetry; apply Z.eqb_neq; rewrite BL_eq; lens).
        cbv iota. fold BL.
        replace (BL + 1 <? BL) with false
          by (symmetry; apply Z.ltb_ge; lia).
        replace (BL + 1 =? BL) with false
          by (symmetry; apply Z.eqb_neq; lia).
        replace (BL + 1 - 1 =? BL) with true
          by (symmetry; apply Z.eqb_eq; lia).
        unfold isPartBoundary.
        change (flags st1) with (Z.lor (flags st) FLAGS.PART_BOUNDARY).
        rewrite Hf.
        change (negb (Z.land (Z.lor 0 FLAGS.PART_BOUNDARY)
                        FLAGS.PART_BOUNDARY =? 0)) with true.
        change (isc (Some 10) CHARS.LF) with true. cbv iota.
        reflexivity. }
      constructor.
    + reflexivity.
    + lens.
  - split; [reflexivity|]. cbn. rewrite Hf. reflexivity.
Qed.

(** The two hyphens after a boundary: the part has ended, and the
    message with it. *)
Lemma run_final_boundary pre post st :
  chunk = pre ++ [45; 45] ++ post ->
  in_state st STATES.PART_DATA BL 0 ->
  exists st',
    runs_ st (len pre) [partEnd] st' (len pre + 2)
    /\ state st' = STATES.END.
Proof.
  intros Hc (Hs & Hi & Hf).
  set (st1 := set_lookbehind
                (setFlags (set_index st (index st + 1)) FLAGS.FINAL_BOUNDARY)
                (index st + 1 - 1) (Some 45)).
  eexists. split.
  - eapply runs_eq.
    + eapply (take pre 45); [rewrite Hc; reflexivity|reflexivity| |].
      { intros Hb. unfold step_, step. rewrite Hs, Hb.
        unfold case_PART_DATA, after_quick_scan. rewrite Hi.
        replace (BL =? 0) with false
          by (symmetry; apply Z.eqb_neq; rewrite BL_eq; lens).
        cbv iota. fold BL. rewrite Z.ltb_irrefl, Z.eqb_refl.
        change (isc (Some 45) CHARS.CR) with false.
        change (isc (Some 45) CHARS.HYPHEN) with true. cbv iota.
        cbn [index setFlags set_flags set_index]. rewrite <- Hi.
        replace (index st + 1 >? 0) with true
          by (symmetry; apply Z.gtb_lt; rewrite Hi, BL_eq; lens).
        fold st1. reflexivity. }
      eapply (take (pre ++ [45]) 45);
        [rewrite Hc, <- app_assoc; reflexivity|lens| |].
      { intros Hb. unfold step_, step.
        change (state st1) with (state st). rewrite Hs, Hb.
        unfold case_PART_DATA, after_quick_scan.
        change (index st1) with (index st + 1). rewrite Hi.
        replace (BL + 1 =? 0) with false
          by (symmetry; apply Z.eqb_neq; rewrite BL_eq; lens).
        cbv iota. fold BL.
        replace (BL + 1 <? BL) with false
          by (symmetry; apply Z.ltb_ge; lia).
        replace (BL + 1 =? BL) with false
          by (symmetry; apply Z.eqb_neq; lia).
        replace (BL + 1 - 1 =? BL) with true
          by (symmetry; apply Z.eqb_eq; lia).
        unfold isPartBoundary, isFinalBoundary.
        change (flags st1) with (Z.lor (flags st) FLAGS.FINAL_BOUNDARY).
        rewrite Hf.
        change (negb (Z.land (Z.lor 0 FLAGS.FINAL_BOUNDARY)
                        FLAGS.PART_BOUNDARY =? 0)) with false.
        change (negb (Z.land (Z.lor 0 FLAGS.FINAL_BOUNDARY)
                        FLAGS.FINAL_BOUNDARY =? 0)) with true.
        change (isc (Some 45) CHARS.HYPHEN) with true. cbv iota.
        cbn [index resetFlags set_flags updateState].
        change (index st1) with (index st + 1). rewrite Hi.
        replace (BL + 1 >? 0) with true
          by (symmetry; apply Z.gtb_lt; rewrite BL_eq; lens).
        reflexivity. }
      constructor.
    + reflexivity.
    + lens.
  - reflexivity.
Qed.

(** The bytes of the first boundary after its first, which has no line
    break before it. *)
Lemma run_first_rest : forall seg front pre post st,
  BOUNDARY = front ++ seg -> chunk = pre ++ seg ++ post ->
  state st = STATES.BOUNDARY -> index st = len front - 2 ->
  exists st',
    runs_ st (len pre) [] st' (len pre + len seg)
    /\ in_state st' STATES.BOUNDARY (len front - 2 + len seg) (flags st).
Proof.
  induction seg as [|c seg IH]; intros front pre post st HB Hc Hs Hi.
  - exists st. change (@len Z []) with 0. rewrite !Z.add_0_r.
    split; [constructor|]. repeat split; assumption.
  - destruct (IH (front ++ [c]) (pre ++ [c]) post
                (set_index st (index st + 1)))
      as (st' & Hr & Hst').
    { rewrite HB, <- app_assoc. reflexivity. }
    { rewrite Hc, <- app_assoc. reflexivity. }
    { exact Hs. }
    { cbn [index set_index]. rewrite Hi. lens. }
    exists st'. split.
    + eapply runs_eq.
      * eapply (take pre c); [exact Hc|reflexivity| |].
        { intros Hb. unfold step_, step. rewrite Hs, Hb.
          unfold case_BOUNDARY. rewrite Hi. fold BL.
          assert (HBL : BL = len front + len seg + 1)
            by (unfold BL; rewrite HB; lens).
          replace (len front - 2 =? BL - 2) with false
            by (symmetry; apply Z.eqb_neq; lens).
          replace (len front - 2 =? BL - 1) with false
            by (symmetry; apply Z.eqb_neq; lens).
          replace (len front - 2 + 2) with (len front) by lia.
          replace (at_ BOUNDARY (len front)) with (Some c)
            by (rewrite HB; symmetry; apply at_mid).
          cbn [same]. rewrite Z.eqb_refl. cbn [negb]. cbv iota.
          rewrite Hi.
          replace (len front - 2 + 2) with (len front) by lia.
          replace (at_ BOUNDARY (len front)) with (Some c)
            by (rewrite HB; symmetry; apply at_mid).
          cbn [same]. rewrite Z.eqb_refl. cbv iota.
          rewrite <- Hi. reflexivity. }
        replace (len pre + 1) with (len (pre ++ [c])) by lens.
        exact Hr.
      * reflexivity.
      * lens.
    + destruct Hst' as (H1 & H2 & H3). repeat split; try assumption.
      rewrite H2. lens.
Qed.

(** The first boundary of a message. *)
Lemma run_first_boundary post st :
  chunk = ([45; 45] ++ b) ++ post ->
  state st = STATES.INITIALIZED ->
  exists st',
    runs_ st 0 [] st' (len b + 2)
    /\ in_state st' STATES.BOUNDARY (BL - 2) (flags st).
Proof.
  intros Hc Hs.
  destruct (run_first_rest ([45; 45] ++ b) [13; 10] [] post
              (updateState (set_index st 0) STATES.BOUNDARY))
    as (st' & Hr & Hst'); try reflexivity.
  { exact Hc. }
  exists st'. split.
  - eapply runs_first; [| |eapply runs_eq; [exact Hr|reflexivity|]].
    + unfold step_, step. rewrite Hs. reflexivity.
    + lens.
    + lens.
  - destruct Hst' as (H1 & H2 & H3). repeat split; try assumption.
    rewrite H2, BL_eq. lens.
Qed.

(** The line break after the first boundary: a part begins. *)
Lemma run_first_part pre post st :
  chunk = pre ++ [13; 10] ++ post ->
  in_state st STATES.BOUNDARY (BL - 2) 0 ->
  exists st',
    runs_ st (len pre) [partBegin] st' (len pre + 2)
    /\ state st' = STATES.HEADER_NAME_START /\ flags st' = 0.
Proof.
  intros Hc (Hs & Hi & Hf).
  eexists. split.
  - eapply runs_eq.
    + eapply (take pre 13); [rewrite Hc; reflexivity|reflexivity| |].
      { intros Hb. unfold step_, step. rewrite Hs, Hb.
        unfold case_BOUNDARY. rewrite Hi. fold BL. rewrite Z.eqb_refl.
        change (isc (Some 13) CHARS.HYPHEN) with false.
        change (isc (Some 13) CHARS.CR) with true. reflexivity. }
      eapply (take (pre ++ [13]) 10);
        [rewrite Hc, <- app_assoc; reflexivity|lens| |].
      { intros Hb. unfold step_, step. cbn [state set_index].
        rewrite Hs, Hb. unfold case_BOUNDARY. cbn [index set_index].
        rewrite ?Hi. fold BL.
        replace (BL - 2 + 1 =? BL - 2) with false
          by (symmetry; apply Z.eqb_neq; lia).
        replace (BL - 2 + 1 =? BL - 1) with true
          by (symmetry; apply Z.eqb_eq; lia).
        unfold isFinalBoundary. cbn [flags set_index]. rewrite Hf.
        change (negb (Z.land 0 FLAGS.FINAL_BOUNDARY =? 0)) with false.
        cbn [andb negb].
        change (isc (Some 10) CHARS.LF) with true. reflexivity. }
      constructor.
    + reflexivity.
    + lens.
  - split; [reflexivity|]. cbn. exact Hf.
Qed.

(** The two hyphens after the first boundary: a message without a
    part. *)
Lemma run_first_final pre post st :
  chunk = pre ++ [45; 45] ++ post ->
  in_state st STATES.BOUNDARY (BL - 2) 0 ->
  exists st',
    runs_ st (len pre) [] st' (len pre + 2)
    /\ state st' = STATES.END.
Proof.
  intros Hc (Hs & Hi & Hf).
  eexists. split.
  - eapply runs_eq.
    + eapply (take pre 45); [rewrite Hc; reflexivity|reflexivity| |].
      { intros Hb. unfold step_, step. rewrite Hs, Hb.
        unfold case_BOUNDARY. rewrite Hi. fold BL. rewrite Z.eqb_refl.
        change (isc (Some 45) CHARS.HYPHEN) with true. reflexivity. }
      eapply (take (pre ++ [45]) 45);
        [rewrite Hc, <- app_assoc; reflexivity|lens| |].
      { intros Hb. unfold step_, step.
        cbn [state set_index setFlags set_flags].
        rewrite Hs, Hb. unfold case_BOUNDARY.
        cbn [index set_index setFlags set_flags].
        rewrite ?Hi. fold BL.
        replace (BL - 2 + 1 =? BL - 2) with false
          by (symmetry; apply Z.eqb_neq; lia).
        replace (BL - 2 + 1 =? BL - 1) with true
          by (symmetry; apply Z.eqb_eq; lia).
        unfold isFinalBoundary. cbn [flags set_index setFlags set_flags].
        rewrite Hf.
        change (negb (Z.land (Z.lor 0 FLAGS.FINAL_BOUNDARY)
                        FLAGS.FINAL_BOUNDARY =? 0)) with true.
        change (isc (Some 45) CHARS.HYPHEN) with true. reflexivity. }
      constructor.
    + reflexivity.
    + lens.
  - reflexivity.
Qed.

(** A part from behind the line of its boundary to the end of the
    boundary that follows it. *)
Lemma run_part p pre post st :
  chunk = pre ++ (flat_map header_line (fst p) ++ [13; 10] ++ snd p)
          ++ BOUNDARY ++ post ->
  part_ok p ->
  state st = STATES.HEADER_NAME_START -> flags st = 0 ->
  exists st',
    runs_ st (len pre)
      (flat_map header_events (fst p)
       ++ headersEnd :: map partData (pe_data (part_events_of p)))
      st'
      (len pre + len (flat_map header_line (fst p) ++ [13; 10] ++ snd p)
       + BL)
    /\ in_state st' STATES.PART_DATA BL 0.
Proof.
  destruct p as [hs body]. cbn [fst snd part_events_of pe_data].
  intros Hc [Hhs Hbody] Hs Hf. cbn [fst snd] in Hhs, Hbody.
  destruct (run_headers hs pre ([13; 10] ++ body ++ BOUNDARY ++ post) st)
    as (st1 & Hr1 & Hs1 & Hf1); try assumption.
  { rewrite Hc. rewrite <- !app_assoc. reflexivity. }
  set (p1 := pre ++ flat_map header_line hs) in *.
  destruct (run_headers_end p1 (body ++ BOUNDARY ++ post) st1)
    as (st2 & Hr2 & Hst2); try assumption.
  { rewrite Hc. unfold p1. rewrite <- !app_assoc. reflexivity. }
  set (p2 := p1 ++ [13; 10]) in *.
  destruct (run_body p2 body post st2 (flags st1))
    as (st3 & Hr3 & Hst3); try assumption.
  { rewrite Hc. unfold p2, p1. rewrite <- !app_assoc. reflexivity. }
  destruct (run_boundary_rest (10 :: 45 :: 45 :: b) [13]
              (p2 ++ body ++ [13]) post st3 (flags st1))
    as (st4 & Hr4 & Hst4); try assumption.
  { apply boundary_eq. }
  { rewrite Hc, boundary_eq. unfold p2, p1.
    repeat (rewrite <- ?app_assoc; cbn [app]). reflexivity. }
  { lens. }
  exists st4. split.
  - eapply runs_eq.
    + eapply runs_trans; [exact Hr1|].
      replace (len pre + len (flat_map header_line hs)) with (len p1)
        by (unfold p1; lens).
      eapply runs_trans; [exact Hr2|].
      replace (len p1 + 2) with (len p2) by (unfold p2; lens).
      eapply runs_trans; [exact Hr3|].
      replace (len p2 + len body + 1) with (len (p2 ++ body ++ [13]))
        by lens.
      exact Hr4.
    + rewrite app_nil_r. destruct body; reflexivity.
    + rewrite BL_eq. unfold p2, p1. lens.
  - destruct Hst4 as (H1 & H2 & H3). repeat split; try assumption.
    + rewrite H2, BL_eq. lens.
    + congruence.
Qed.

Lemma after_boundary_cons p ps :
  after_boundary b (p :: ps)
  = [13; 10] ++ (flat_map header_line (fst p) ++ [13; 10] ++ snd p)
    ++ BOUNDARY ++ after_boundary b ps.
Proof.
  cbn [after_boundary]. rewrite str_crlf, <- !app_assoc. reflexivity.
Qed.

(** The rest of a message from behind a boundary that ends a part. *)
Lemma run_tail : forall ps pre st,
  chunk = pre ++ after_boundary b ps ->
  Forall part_ok ps ->
  in_state st STATES.PART_DATA BL 0 ->
  exists st',
    runs_ st (len pre)
      (partEnd :: events_of_message (map part_events_of ps)) st'
      (len chunk - 2)
    /\ state st' = STATES.END.
Proof.
  induction ps as [|p ps IH]; intros pre st Hc Hok Hst.
  - cbn [after_boundary] in Hc. rewrite str_hyphens, str_crlf in Hc.
    destruct (run_final_boundary pre [13; 10] st) as (st' & Hr & Hs');
      try assumption.
    exists st'. split; [|exact Hs'].
    eapply runs_eq; [exact Hr|reflexivity|]. rewrite Hc. lens.
  - rewrite after_boundary_cons in Hc.
    apply Forall_cons_iff in Hok. destruct Hok as [Hp Hok].
    destruct (run_part_boundary pre
                ((flat_map header_line (fst p) ++ [13; 10] ++ snd p)
                 ++ BOUNDARY ++ after_boundary b ps) st)
      as (st1 & Hr1 & Hs1 & Hf1); try assumption.
    set (p1 := pre ++ [13; 10]) in *.
    destruct (run_part p p1 (after_boundary b ps) st1)
      as (st2 & Hr2 & Hst2); try assumption.
    { rewrite Hc. unfold p1. rewrite <- !app_assoc. reflexivity. }
    set (p2 := p1 ++ (flat_map header_line (fst p) ++ [13; 10] ++ snd p)
               ++ BOUNDARY) in *.
    destruct (IH p2 st2) as (st3 & Hr3 & Hs3); try assumption.
    { rewrite Hc. unfold p2, p1. rewrite <- !app_assoc. reflexivity. }
    exists st3. split; [|exact Hs3].
    eapply runs_eq.
    + eapply runs_trans; [exact Hr1|].
      replace (len pre + 2) with (len p1) by (unfold p1; lens).
      eapply runs_trans; [exact Hr2|].
      match goal with
      | |- runs _ _ _ _ ?q _ _ _ =>
          replace q with (len p2)
            by (unfold p2, BL; rewrite !len_app, !Z.add_assoc; reflexivity)
      end.
      exact Hr3.
    + cbn [map]. rewrite events_of_message_cons. reflexivity.
    + reflexivity.
Qed.

(** A message from its first byte. *)
Lemma run_message ps st :
  chunk = message_of b ps -> Forall part_ok ps ->
  state st = STATES.INITIALIZED -> flags st = 0 ->
  exists st',
    runs_ st 0 (events_of_message (map part_events_of ps)) st'
      (len chunk - 2)
    /\ state st' = STATES.END.
Proof.
  intros Hc Hok Hs Hf.
  assert (Hm : forall qs, message_of b qs
                          = ([45; 45] ++ b) ++ after_boundary b qs).
  { unfold message_of. induction qs as [|q qs IH].
    - cbn [flat_map after_boundary app]. rewrite !str_hyphens, str_crlf.
      repeat (rewrite <- ?app_assoc; cbn [app]). reflexivity.
    - rewrite after_boundary_cons. cbn [flat_map].
      rewrite <- app_assoc, IH. unfold part_block.
      rewrite boundary_eq, str_hyphens, str_crlf.
      repeat (rewrite <- ?app_assoc; cbn [app]). reflexivity. }
  rewrite Hm in Hc.
  destruct (run_first_boundary (after_boundary b ps) st)
    as (st1 & Hr1 & Hst1); try assumption.
  rewrite Hf in Hst1.
  destruct ps as [|p ps].
  - cbn [after_boundary] in Hc. rewrite str_hyphens, str_crlf in Hc.
    destruct (run_first_final ([45; 45] ++ b) [13; 10] st1)
      as (st2 & Hr2 & Hs2); try assumption.
    exists st2. split; [|exact Hs2].
    eapply runs_eq.
    + eapply runs_trans; [exact Hr1|].
      replace (len b + 2) with (len ([45; 45] ++ b)) by lens.
      exact Hr2.
    + reflexivity.
    + rewrite Hc. lens.
  - rewrite after_boundary_cons in Hc.
    apply Forall_cons_iff in Hok. destruct Hok as [Hp Hok].
    set (p0 := [45; 45] ++ b) in *.
    destruct (run_first_part p0
                ((flat_map header_line (fst p) ++ [13; 10] ++ snd p)
                 ++ BOUNDARY ++ after_boundary b ps) st1)
      as (st2 & Hr2 & Hs2 & Hf2); try assumption.
    set (p1 := p0 ++ [13; 10]) in *.
    destruct (run_part p p1 (after_boundary b ps) st2)
      as (st3 & Hr3 & Hst3); try assumption.
    { rewrite Hc. unfold p1. rewrite <- !app_assoc. reflexivity. }
    set (p2 := p1 ++ (flat_map header_line (fst p) ++ [13; 10] ++ snd p)
               ++ BOUNDARY) in *.
    destruct (run_tail ps p2 st3) as (st4 & Hr4 & Hs4); try assumption.
    { rewrite Hc. unfold p2, p1. rewrite <- !app_assoc. reflexivity. }
    exists st4. split; [|exact Hs4].
    eapply runs_eq.
    + eapply runs_trans; [exact Hr1|].
      replace (len b + 2) with (len p0) by (unfold p0; lens).
      eapply runs_trans; [exact Hr2|].
      replace (len p0 + 2) with (len p1) by (unfold p1; lens).
      eapply runs_trans; [exact Hr3|].
      match goal with
      | |- runs _ _ _ _ ?q _ _ _ =>
          replace q with (len p2)
            by (unfold p2, BL; rewrite !len_app, !Z.add_assoc; reflexivity)
      end.
      exact Hr4.
    + cbn [map]. rewrite events_of_message_cons. reflexivity.
    + reflexivity.
Qed.

End Wire.

(** The scanner on a whole message. *)
Lemma message_scanned (b : list Z)
    (ps : list (list (Buffer * Buffer) * Buffer)) :
  ascii_only b ->
  Forall part_ok ps ->
  exists this',
    MultipartByteParser._transform (MultipartByteParser.new b)
      (message_of b ps)
    = Some (this', events_of_message (map part_events_of ps), None)
    /\ MultipartByteParserState.state (MultipartByteParser._state this')
       = MultipartByteParserState.STATES.END
    /\ MultipartByteParserState.hasErrored (MultipartByteParser._state this')
       = false
    /\ MultipartByteParser.boundary this'
       = MultipartByteParser.boundary (MultipartByteParser.new b)
    /\ MultipartByteParser.finish this'
       = (this', MultipartByteParser.end_).
Proof.
  intros Hb Hok.
  unfold MultipartByteParser.new, MultipartByteParser._getBoundaryChars.
  rewrite (constructBoundary_ascii b Hb).
  change ([13; 10; 45; 45] ++ b) with (13 :: 10 :: 45 :: 45 :: b).
  set (B := 13 :: 10 :: 45 :: 45 :: b).
  destruct (run_message b (message_of b ps) ps
              (MultipartByteParserState.new (len B)))
    as (st' & Hr & Hs'); try reflexivity; try assumption.
  assert (Hlen : 4 <= len (message_of b ps)).
  { unfold message_of. rewrite !len_app.
    change (len (str "--")) with 2. change (len (str Sample.CRLF)) with 2.
    pose proof (len_nonneg b).
    pose proof (len_nonneg (flat_map (part_block b) ps)). lia. }
  assert (Hmu : mu (message_of b ps)
                  (MultipartByteParserState.new (len B)) 0
                <= Z.of_nat (2 * length (message_of b ps) + 1)).
  { unfold mu, len. cbn [MultipartByteParserState.index
                         MultipartByteParserState.new].
    change (0 >? 0) with false. lia. }
  pose proof (runs_done _ _ _ _ _ _ _ _ Hr Hs' ltac:(lia)
                (2 * length (message_of b ps) + 1)%nat [] Hmu) as Hl.
  cbn [app] in Hl. fold B in Hl.
  unfold MultipartByteParser._transform.
  cbn [MultipartByteParser._state MultipartByteParser.boundary
       MultipartByteParser.boundaryChars].
  change (MultipartByteParserState.hasErrored
            (MultipartByteParserState.new (len B)))
    with false. cbv iota.
  rewrite Hl.
  eexists. split; [reflexivity|]. cbn [MultipartByteParser._state].
  split; [exact Hs'|].
  pose proof (loop_outcome _ _ _ _ _ _ _ _ _ _ Hl eq_refl) as Ho.
  destruct Ho as [[_ He] | (msg & Hx & _)]; [|discriminate].
  split; [exact He|]. split; [reflexivity|].
  unfold MultipartByteParser.finish. cbn [MultipartByteParser._state].
  rewrite Hs'. reflexivity.
Qed.

(** X6.  A message that is well formed, with a boundary of ASCII
    characters, and comes in one chunk is read back part by part.  The
    message is, for each part, the line of the boundary, the header lines
    [name: value], an empty line, the body and a line break, and after
    the last part the final boundary and a line break; header names are
    made of the bytes that the scanner takes in a name, header values are
    not empty, do not begin with a space and have no carriage return,
    bodies have no carriage return.  Then [_transform] returns without an
    error the events of the parts in order: for each part partBegin, a
    headerName and a headerValue for each header, headersEnd, one partData
    with the whole body if the body is not empty, and partEnd.  The
    scanner is left in the state END, so that the end of the input gives
    ['end']. *)
Theorem message_is_read_back (b : list Z)
    (ps : list (list (Buffer * Buffer) * Buffer)) :
  ascii_only b ->
  Forall part_ok ps ->
  exists this',
    MultipartByteParser._transform (MultipartByteParser.new b)
      (message_of b ps)
    = Some (this', events_of_message (map part_events_of ps), None)
    /\ MultipartByteParserState.state (MultipartByteParser._state this')
       = MultipartByteParserState.STATES.END
    /\ MultipartByteParserState.hasErrored (MultipartByteParser._state this')
       = false
    /\ MultipartByteParser.finish this'
       = (this', MultipartByteParser.end_).
Proof.
  intros Hb Hok.
  destruct (message_scanned b ps Hb Hok) as (this' & H1 & H2 & H3 & _ & H4).
  exists this'. auto.
Qed.

Lemma message_is_read_back_witness :
  exists this',
    MultipartByteParser._transform (MultipartByteParser.new (str "B"))
      (message_of (str "B") Midway.one_part)
    = Some (this', events_of_message (map part_events_of Midway.one_part),
            None)
    /\ MultipartByteParserState.state (MultipartByteParser._state this')
       = MultipartByteParserState.STATES.END
    /\ MultipartByteParserState.hasErrored (MultipartByteParser._state this')
       = false
    /\ MultipartByteParser.finish this'
       = (this', MultipartByteParser.end_).
Proof.
  apply (message_is_read_back (str "B") Midway.one_part).
  - repeat constructor; vm_compute; discriminate.
  - repeat constructor; try discriminate; vm_compute; discriminate.
Defined.
(** ** The extractors of the assembler *)

Section RegExpFacts.
Import RegExp REGEXP MultipartParserStatic.

(** A pattern that begins with [^] matches at the start only. *)
Lemma search_bol i r : forall txt pos prev,
  pos <> O -> search i (Seq Bol r) pos prev txt = None.
Proof.
  induction txt as [|c txt IH]; intros pos prev Hp; cbn [search m RegExp.pos].
  - destruct pos; [congruence|]. reflexivity.
  - destruct pos; [congruence|]. cbn [Nat.eqb]. apply IH. discriminate.
Qed.

Lemma exec_bol i r s :
  exec i (Seq Bol r) s
  = m i r Some {| pos := 0; prev := None; rest := s; caps := [] |}.
Proof.
  unfold exec. destruct s as [|c s]; cbn [search m RegExp.pos Nat.eqb].
  - destruct (m i r Some _); reflexivity.
  - destruct (m i r Some _); [reflexivity|].
    apply search_bol. discriminate.
Qed.

Lemma last_shift {A : Type} (l : list A) : forall x d,
  last (x :: l) d = last l x.
Proof.
  induction l as [|y l IH]; intros x d; [reflexivity|].
  change (last (x :: y :: l) d) with (last (y :: l) d).
  rewrite (IH y d), (IH y x). reflexivity.
Qed.

Lemma star_to_the_last p (k : cursor -> option cursor) last_ g :
  (forall s, k s = match rest s with
                   | [x] => if x =? last_ then Some (g s) else None
                   | _ => None
                   end) ->
  forall txt pos prev caps,
  star true p k pos prev txt caps
  = option_map g (to_the_last p last_ pos prev txt caps).
Proof.
  intros Hk. induction txt as [|c txt IH]; intros pos prev caps.
  - cbn [star to_the_last]. rewrite Hk. reflexivity.
  - cbn [star to_the_last]. rewrite Hk. cbn [rest].
    destruct txt as [|c2 txt].
    + cbn [star]. rewrite Hk. cbn [rest].
      destruct (p c); destruct (c =? last_); reflexivity.
    + destruct (p c); [|reflexivity].
      rewrite IH. destruct (to_the_last _ _ _ _ _ _); reflexivity.
Qed.

Lemma to_the_last_ok p last_ : forall a pos prev caps,
  forallb p a = true ->
  to_the_last p last_ pos prev (a ++ [last_]) caps
  = Some {| pos := (pos + length a)%nat; prev := last (map Some a) prev;
            rest := [last_]; caps := caps |}.
Proof.
  induction a as [|c a IH]; intros pos prev caps Hp.
  - cbn. rewrite Z.eqb_refl. f_equal. f_equal. lia.
  - cbn [forallb] in Hp. apply andb_prop in Hp. destruct Hp as [Hc Hp].
    cbn [app to_the_last]. rewrite Hc.
    specialize (IH (S pos) (Some c) caps Hp).
    destruct (a ++ [last_]) eqn:E; [destruct a; discriminate|].
    rewrite IH. cbn [map length]. rewrite last_shift.
    f_equal. f_equal. lia.
Qed.

Lemma to_the_last_inv p last_ : forall txt pos prev caps r,
  to_the_last p last_ pos prev txt caps = Some r ->
  exists a, txt = a ++ [last_] /\ forallb p a = true.
Proof.
  induction txt as [|c txt IH]; intros pos prev caps r H; [discriminate|].
  cbn [to_the_last] in H. destruct txt as [|c2 txt].
  - destruct (Z.eqb_spec c last_); [|discriminate]. subst.
    exists []. auto.
  - destruct (p c) eqn:Ep; [|discriminate].
    apply IH in H. destruct H as (a & Ha & Hp).
    exists (c :: a). cbn [app forallb]. rewrite Ha, Ep, Hp. auto.
Qed.

Lemma content_id_match (s : list Z) :
  exec false CONTENT_ID s
  = match s with
    | c :: txt =>
        if c =? 60 then
          option_map
            (fun s' =>
               {| pos := S (pos s'); prev := Some 62; rest := [];
                  caps := (1%nat, firstn (pos s' - 1) txt) :: caps s' |})
            (to_the_last (accepts true isWhiteSpace) 62 1 (Some c) txt [])
        else None
    | [] => None
    end.
Proof.
  unfold CONTENT_ID. rewrite exec_bol. destruct s as [|c txt]; [reflexivity|].
  cbn [m rest pos prev caps]. unfold canonicalize. cbn [andb].
  destruct (c =? 60); [|reflexivity].
  apply star_to_the_last. intros s'. cbn [rest pos prev caps].
  destruct (rest s') as [|x [|y l]]; try reflexivity.
  - destruct (x =? 62) eqn:E; [|reflexivity].
    apply Z.eqb_eq in E. subst. reflexivity.
  - destruct (x =? 62); reflexivity.
Qed.

(** X7. [_getContentId] gives an id exactly for a value that is, from
    its first character to its last, an id without white space in angle
    brackets, and the id is what stands between the brackets; the empty
    id included. *)
Theorem content_id_in_angle_brackets :
  (forall i,
     forallb (fun c => negb (isWhiteSpace c)) i = true ->
     _getContentId (60 :: i ++ [62]) = Some i)
  /\ (forall s i,
        _getContentId s = Some i ->
        s = 60 :: i ++ [62]
        /\ forallb (fun c => negb (isWhiteSpace c)) i = true).
Proof.
  split.
  - intros i Hi. unfold _getContentId. rewrite content_id_match.
    cbn [Z.eqb Pos.eqb]. rewrite to_the_last_ok by exact Hi.
    cbn [option_map pos caps group Nat.eqb or_else].
    replace (1 + length i - 1)%nat with (length i) by lia.
    rewrite firstn_app, firstn_all, Nat.sub_diag. cbn [firstn].
    rewrite app_nil_r. destruct i; reflexivity.
  - intros s i H. unfold _getContentId in H. rewrite content_id_match in H.
    destruct s as [|c txt]; [discriminate|].
    destruct (Z.eqb_spec c 60); [|discriminate]. subst.
    destruct (to_the_last _ _ _ _ _ _) as [s'|] eqn:E; [|discriminate].
    pose proof (to_the_last_inv _ _ _ _ _ _ _ E) as (a & -> & Ha).
    rewrite to_the_last_ok in E by exact Ha. inversion E; subst. clear E.
    cbn [option_map pos caps group Nat.eqb or_else] in H.
    replace (S (length a) - 1)%nat with (length a) in H by lia.
    rewrite firstn_app, firstn_all, Nat.sub_diag in H. cbn [firstn] in H.
    rewrite app_nil_r in H.
    assert (i = a) by (inversion H; reflexivity).
    subst. auto.
Qed.

(** *** Literals and the search for them *)

Lemma canon_other i x c :
  (c < 65 \/ 90 < c) -> (c < 97 \/ 122 < c) ->
  (canonicalize i x =? canonicalize i c) = (x =? c).
Proof.
  intros H1 H2. unfold canonicalize.
  destruct i; cbn [andb];
    destruct (97 <=? x) eqn:E1, (x <=? 122) eqn:E2,
             (97 <=? c) eqn:E3, (c <=? 122) eqn:E4; cbn [andb];
    lia.
Qed.

Lemma after_nil s : after s [] (rest s) = s.
Proof.
  destruct s as [a b c d]. unfold after. cbn.
  f_equal. lia.
Qed.

Lemma after_cons s x a txt txt0 :
  after {| pos := S (pos s); prev := Some x; rest := txt0;
           caps := caps s |} a txt
  = after s (x :: a) txt.
Proof.
  unfold after. cbn [pos prev caps map length]. rewrite last_shift.
  f_equal. lia.
Qed.

(** A literal matches the text that is the literal, the case of the
    letters apart when the flag [i] is set. *)
Lemma m_lit i r k : forall l key s txt,
  rest s = key ++ txt ->
  map (canonicalize i) key = map (canonicalize i) l ->
  m i (lit l r) k s = m i r k (after s key txt).
Proof.
  induction l as [|c l IH]; intros key s txt Hs Hk.
  - destruct key; [|discriminate]. cbn [lit]. cbn [app] in Hs.
    rewrite <- Hs, after_nil. reflexivity.
  - destruct key as [|x key]; [discriminate|].
    cbn [map] in Hk. injection Hk as Hx Hk.
    cbn [lit m]. rewrite Hs. cbn [app]. rewrite Hx, Z.eqb_refl.
    rewrite (IH key _ txt); [|reflexivity|exact Hk].
    rewrite after_cons. reflexivity.
Qed.

(** Where a literal matches, the text has its characters. *)
Lemma m_lit_needs i r k : forall l s n c,
  m i (lit l r) k s <> None ->
  nth_error l n = Some c ->
  exists x, nth_error (rest s) n = Some x
            /\ canonicalize i x = canonicalize i c.
Proof.
  induction l as [|c0 l IH]; intros s n c Hm Hn.
  - destruct n; discriminate.
  - cbn [lit m] in Hm. destruct (rest s) as [|x txt] eqn:Hs; [congruence|].
    destruct (Z.eqb_spec (canonicalize i x) (canonicalize i c0)) as [E|E];
      [|congruence].
    destruct n as [|n].
    + cbn in Hn. injection Hn as <-. exists x. auto.
    + cbn [nth_error] in Hn |- *.
      apply (IH _ n c) in Hm; [|exact Hn]. exact Hm.
Qed.

(** The search goes over a stretch of text in which no match begins. *)
Lemma search_skip i r : forall p txt pos prev,
  (forall p1 c p2, p = p1 ++ c :: p2 ->
     m i r Some {| pos := pos + length p1; prev := last (map Some p1) prev;
                   rest := c :: p2 ++ txt; caps := [] |} = None) ->
  search i r pos prev (p ++ txt)
  = search i r (pos + length p) (last (map Some p) prev) txt.
Proof.
  induction p as [|c p IH]; intros txt pos prev H.
  - cbn [app length map last]. rewrite Nat.add_0_r. reflexivity.
  - cbn [app search].
    pose proof (H [] c p eq_refl) as H0.
    cbn [length map last app] in H0. rewrite Nat.add_0_r in H0.
    rewrite H0. rewrite IH.
    + cbn [length map]. rewrite last_shift. f_equal. lia.
    + intros p1 c1 p2 E.
      pose proof (H (c :: p1) c1 p2) as H1. cbn [app] in H1.
      rewrite E in H1. specialize (H1 eq_refl).
      cbn [length map] in H1. rewrite last_shift in H1.
      rewrite <- H1. f_equal. f_equal. lia.
Qed.

(** A stretch of text without the equals sign, before a key that ends
    with the first equals sign of it: no match of a pattern that needs an
    equals sign [n] characters on begins in the stretch. *)
Lemma no_equals_before (n : nat) p : forall key txt p1 c p2 x,
  ~ In 61 p ->
  p = p1 ++ c :: p2 ->
  length key = S n ->
  (forall j y, (j < n)%nat -> nth_error key j = Some y -> y <> 61) ->
  nth_error (c :: p2 ++ key ++ txt) n = Some x ->
  x <> 61.
Proof.
  intros key txt p1 c p2 x Hp E Hl Hkey Hn ->.
  change (c :: p2 ++ key ++ txt) with ((c :: p2) ++ key ++ txt) in Hn.
  destruct (Nat.lt_ge_cases n (length (c :: p2))) as [Hlt|Hge].
  - rewrite nth_error_app1 in Hn by exact Hlt.
    apply nth_error_In in Hn. apply Hp. rewrite E.
    apply in_or_app. right. exact Hn.
  - rewrite nth_error_app2 in Hn by exact Hge.
    cbn [length] in Hn, Hge.
    assert (Hj : (n - S (length p2) < n)%nat) by lia.
    rewrite nth_error_app1 in Hn by lia.
    exact (Hkey _ _ Hj Hn eq_refl).
Qed.

Lemma canon_equals i x : canonicalize i x = canonicalize i 61 -> x = 61.
Proof.
  intros H. apply Z.eqb_eq. rewrite <- (canon_other i x 61) by lia.
  apply Z.eqb_eq. exact H.
Qed.

(** A greedy repetition takes the whole stretch of the characters it
    accepts, when what follows it matches there. *)
Lemma star_greedy_run p (k : cursor -> option cursor) : forall a tail s,
  forallb p a = true ->
  match tail with [] => True | x :: _ => p x = false end ->
  k (after s a tail) <> None ->
  star true p k (pos s) (prev s) (a ++ tail) (caps s) = k (after s a tail).
Proof.
  induction a as [|c a IH]; intros tail s Ha Ht Hk.
  - cbn [app]. unfold after in *. cbn [length map last] in *.
    rewrite Nat.add_0_r in *.
    destruct tail as [|x tail]; cbn [star].
    + destruct (k _); congruence.
    + rewrite Ht. destruct (k _); congruence.
  - cbn [forallb] in Ha. apply andb_prop in Ha. destruct Ha as [Hc Ha].
    cbn [app star]. rewrite Hc.
    pose proof (IH tail {| pos := S (pos s); prev := Some c;
                           rest := a ++ tail; caps := caps s |} Ha Ht) as H.
    rewrite after_cons in H. specialize (H Hk). cbn [pos prev caps] in H.
    rewrite H. destruct (k (after s (c :: a) tail)); congruence.
Qed.

(** A repetition that is not greedy stops at the first place where what
    follows it matches. *)
Lemma star_lazy_run p (k : cursor -> option cursor) : forall a tail s,
  forallb p a = true ->
  (forall a1 c a2, a = a1 ++ c :: a2 ->
     k (after s a1 (c :: a2 ++ tail)) = None) ->
  star false p k (pos s) (prev s) (a ++ tail) (caps s) = k (after s a tail)
  \/ k (after s a tail) = None.
Proof.
  induction a as [|c a IH]; intros tail s Ha Hk.
  - cbn [app]. unfold after in *. cbn [length map last] in *.
    rewrite Nat.add_0_r in *.
    destruct (k {| pos := pos s; prev := prev s; rest := tail;
                   caps := caps s |}) eqn:E; [left|right; reflexivity].
    destruct tail as [|x tail]; cbn [star]; rewrite E; reflexivity.
  - cbn [forallb] in Ha. apply andb_prop in Ha. destruct Ha as [Hc Ha].
    cbn [app star]. rewrite Hc.
    pose proof (Hk [] c a eq_refl) as H0. unfold after in H0.
    cbn [length map last app] in H0. rewrite Nat.add_0_r in H0.
    rewrite H0.
    pose proof (IH tail {| pos := S (pos s); prev := Some c;
                           rest := a ++ tail; caps := caps s |} Ha) as H.
    rewrite after_cons in H. cbn [pos prev caps] in H. apply H.
    intros a1 c1 a2 E.
    pose proof (Hk (c :: a1) c1 a2) as H1. cbn [app] in H1.
    rewrite E in H1. specialize (H1 eq_refl).
    rewrite <- H1. f_equal. apply after_cons.
Qed.

Lemma key_no_equals i l0 key :
  map (canonicalize i) key = map (canonicalize i) (l0 ++ [61]) ->
  ~ In 61 (map (canonicalize i) l0) ->
  length key = S (length l0)
  /\ forall j y, (j < length l0)%nat -> nth_error key j = Some y -> y <> 61.
Proof.
  intros Hk Hl. split.
  - apply (f_equal (@length Z)) in Hk.
    rewrite !length_map, length_app in Hk. cbn [length] in Hk. lia.
  - intros j y Hj Hy ->.
    apply (map_nth_error (canonicalize i)) in Hy.
    rewrite Hk, map_app, nth_error_app1 in Hy by (rewrite length_map; lia).
    apply nth_error_In in Hy. apply Hl.
    replace (canonicalize i 61) with 61 in Hy by (destruct i; reflexivity).
    exact Hy.
Qed.

Lemma keyed_lit i l r : keyed i l (lit l r).
Proof. intros s H. exists r. exact H. Qed.

Lemma keyed_word i l r : keyed i l (Seq WordBoundary (lit l r)).
Proof.
  intros s H. exists r. cbn [m] in H.
  destruct (xorb _ _); [exact H|congruence].
Qed.

Lemma keyed_fails i l0 r0 s :
  keyed i (l0 ++ [61]) r0 ->
  (forall x, nth_error (rest s) (length l0) = Some x -> x <> 61) ->
  m i r0 Some s = None.
Proof.
  intros Hr Hx. destruct (m i r0 Some s) eqn:E; [|reflexivity].
  destruct (Hr s) as [r Hm]; [congruence|].
  destruct (m_lit_needs i r Some (l0 ++ [61]) s (length l0) 61 Hm)
    as (x & Hn & Hc).
  - rewrite nth_error_app2, Nat.sub_diag by lia. reflexivity.
  - apply canon_equals in Hc. subst. exfalso. exact (Hx _ Hn eq_refl).
Qed.

(** The search for a key goes over what stands before the key, if
    there is no equals sign in it. *)
Lemma skip_to_key i l0 r0 p key txt pos prev :
  keyed i (l0 ++ [61]) r0 ->
  ~ In 61 p ->
  map (canonicalize i) key = map (canonicalize i) (l0 ++ [61]) ->
  ~ In 61 (map (canonicalize i) l0) ->
  search i r0 pos prev (p ++ key ++ txt)
  = search i r0 (pos + length p) (last (map Some p) prev) (key ++ txt).
Proof.
  intros Hr Hp Hk Hl. apply search_skip. intros p1 c p2 E.
  apply (keyed_fails i l0); [exact Hr|]. cbn [rest]. intros x Hx.
  destruct (key_no_equals i l0 key Hk Hl) as [Hlen Hkey].
  exact (no_equals_before (length l0) p key txt p1 c p2 x Hp E Hlen Hkey Hx).
Qed.

(** No key is found in a text without the equals sign. *)
Lemma search_no_equals i l0 r0 : forall txt pos prev,
  keyed i (l0 ++ [61]) r0 ->
  ~ In 61 txt ->
  search i r0 pos prev txt = None.
Proof.
  induction txt as [|c txt IH]; intros pos prev Hr Ht.
  - cbn [search]. rewrite (keyed_fails i l0); [reflexivity|exact Hr|].
    cbn [rest]. intros x Hx. destruct (length l0); discriminate.
  - cbn [search]. rewrite (keyed_fails i l0); [|exact Hr|].
    + apply IH; [exact Hr|]. intros H. apply Ht. right. exact H.
    + cbn [rest]. intros x Hx ->. apply nth_error_In in Hx. exact (Ht Hx).
Qed.

Lemma search_here i r pos prev txt s :
  m i r Some {| pos := pos; prev := prev; rest := txt; caps := [] |} = Some s ->
  search i r pos prev txt = Some s.
Proof. intros H. destruct txt; cbn [search]; rewrite H; reflexivity. Qed.

Lemma forallb_not_in (x : Z) (a : list Z) :
  ~ In x a -> forallb (accepts true (only x)) a = true.
Proof.
  induction a as [|c a IH]; intros H; [reflexivity|].
  cbn [forallb]. rewrite IH by (intros H1; apply H; right; exact H1).
  unfold accepts, only. destruct (Z.eqb_spec c x); [|reflexivity].
  exfalso. apply H. left. congruence.
Qed.

(** X8. [_getBoundary] finds the boundary in a content type: after a
    stretch without an equals sign and the key boundary=, in capitals or
    not, the boundary is what stands in quotation marks, or else what
    stands before the next semicolon or the end. *)
Theorem boundary_is_extracted (quoted : bool) (p key b tail : list Z) :
  ~ In 61 p ->
  map (canonicalize true) key = map (canonicalize true) (str "boundary=") ->
  b <> [] ->
  (if quoted then ~ In quote b
   else ~ In semicolon b /\ hd_error b <> Some quote
        /\ match tail with [] => True | x :: _ => x = semicolon end) ->
  _getBoundary
    (p ++ key ++ (if quoted then [quote] ++ b ++ [quote] ++ tail
                  else b ++ tail))
  = Some b.
Proof.
  intros Hp Hkey Hb Hq. unfold _getBoundary, exec.
  set (v := if quoted then _ else _).
  rewrite (skip_to_key true (str "boundary") BOUNDARY p key v);
    [|apply keyed_lit|exact Hp|exact Hkey|vm_compute; intuition lia].
  set (p0 := (0 + length p)%nat). set (c0 := last (map Some p) None).
  assert (H : exists tl,
    m true BOUNDARY Some
      {| pos := p0; prev := c0; rest := key ++ v; caps := [] |}
    = Some {| pos := p0 + length key + length b + (if quoted then 2 else 0);
              prev := if quoted then Some quote else last (map Some b) None;
              rest := tl;
              caps := [((if quoted then 1 else 2)%nat, b)] |}).
  { unfold BOUNDARY.
    rewrite (m_lit true _ Some (str "boundary=") key
               {| pos := p0; prev := c0; rest := key ++ v; caps := [] |}
               v eq_refl Hkey).
    unfold after. cbn [pos prev rest caps].
    destruct b as [|c b]; [congruence|]. clear Hb.
    destruct quoted; subst v.
    - exists tail. cbn [m app rest pos prev caps].
      rewrite Z.eqb_refl. unfold plus. cbn [m rest pos prev caps].
      assert (Hc : accepts true (only quote) c = true).
      { pose proof (forallb_not_in quote (c :: b) Hq) as H.
        cbn [forallb] in H. apply andb_prop in H. apply H. }
      rewrite Hc.
      pose proof (forallb_not_in quote b) as Hall.
      rewrite (star_greedy_run (accepts true (only quote)) _ b (quote :: tail)
                 {| pos := S (S (p0 + length key));
                    prev := Some c; rest := b ++ quote :: tail;
                    caps := [] |}).
      + unfold after. cbn [pos prev rest caps]. rewrite Z.eqb_refl.
        f_equal. f_equal.
        * cbn [length]. lia.
        * replace (S (S (p0 + length key)) + length b
                   - S (p0 + length key))%nat with (S (length b)) by lia.
          cbn [firstn]. rewrite firstn_app, firstn_all, Nat.sub_diag.
          cbn [firstn]. rewrite app_nil_r. reflexivity.
      + apply Hall. intros H. apply Hq. right. exact H.
      + unfold accepts, only. reflexivity.
      + unfold after. cbn [pos prev rest caps]. rewrite Z.eqb_refl.
        discriminate.
    - destruct Hq as (Hs & Hh & Ht). exists tail.
      cbn [m app rest pos prev caps].
      rewrite (canon_other true c quote) by (unfold quote; lia).
      destruct (Z.eqb_spec c quote) as [->|_];
        [exfalso; apply Hh; reflexivity|].
      unfold plus. cbn [m rest pos prev caps].
      assert (Hc : accepts true (only semicolon) c = true).
      { pose proof (forallb_not_in semicolon (c :: b) Hs) as H.
        cbn [forallb] in H. apply andb_prop in H. apply H. }
      rewrite Hc.
      rewrite (star_greedy_run (accepts true (only semicolon)) _ b tail
                 {| pos := S (p0 + length key);
                    prev := Some c; rest := b ++ tail; caps := [] |}).
      + unfold after. cbn [pos prev rest caps].
        f_equal. f_equal.
        * cbn [length]. lia.
        * cbn [map]. rewrite last_shift.
          destruct b; [reflexivity|]. cbn [map]. rewrite !last_shift.
          reflexivity.
        * replace (S (p0 + length key) + length b
                   - (p0 + length key))%nat with (S (length b)) by lia.
          cbn [firstn]. rewrite firstn_app, firstn_all, Nat.sub_diag.
          cbn [firstn]. rewrite app_nil_r. reflexivity.
      + apply forallb_not_in. intros H. apply Hs. right. exact H.
      + destruct tail as [|x tail]; [exact I|]. subst x. reflexivity.
      + unfold after. discriminate. }
  destruct H as [tl H]. rewrite (search_here _ _ _ _ _ _ H).
  cbn [caps]. destruct b as [|c b]; [congruence|].
  destruct quoted; reflexivity.
Qed.

(** *** The content disposition that the streamer writes *)

Lemma assign_in o k v : In (k, v) (assign o k v).
Proof.
  induction o as [|[k' v'] o IH]; cbn [assign]; [left; reflexivity|].
  destruct (list_eqb k k'); [left; reflexivity|right; exact IH].
Qed.

Lemma assign_other o k v k' v' :
  list_eqb k' k = false -> In (k, v) o -> In (k, v) (assign o k' v').
Proof.
  intros Hk. induction o as [|[k0 v0] o IH]; intros H; [destruct H|].
  cbn [assign]. destruct (list_eqb k' k0) eqn:E.
  - destruct H as [H|H]; [|right; exact H].
    injection H as -> ->. congruence.
  - destruct H as [H|H]; [left; exact H|right; exact (IH H)].
Qed.

(** The value of the header Content-Disposition that [synthesize] puts
    on a part with a name or a file name. *)
Let disposition (p : Part.t) : list Z :=
  str "form-data"
  ++ match Part.name p with
     | Some n => str "; " ++ str "name=" ++ [quote] ++ n ++ [quote]
     | None => []
     end
  ++ match Part.filename p with
     | Some f => str "; " ++ str "filename=" ++ [quote] ++ f ++ [quote]
     | None => []
     end.

Lemma disposition_written (p : Part.t) :
  Part.name p <> None \/ Part.filename p <> None ->
  In (str "Content-Disposition", disposition p)
     (Part.headers (MultipartStreamer.synthesize p)).
Proof.
  intros Hn. unfold MultipartStreamer.synthesize.
  unfold Part.id. cbn [Part.headers Part.set_headers].
  assert (Hv : In (str "Content-Disposition", disposition p)
                 (assign (Part.headers p) (str "Content-Disposition")
                    (disposition p))).
  { apply assign_in. }
  replace (MultipartStreamer.join _) with (disposition p).
  - replace (len _ >? 1) with true
      by (destruct (Part.name p), (Part.filename p);
          try reflexivity; destruct Hn; congruence).
    destruct (Part.contentType p), (Part.transferEncoding p);
      repeat (apply assign_other; [reflexivity|]); exact Hv.
  - unfold disposition, MultipartStreamer.quote, quote.
    destruct (Part.name p), (Part.filename p);
      cbn [app MultipartStreamer.join];
      repeat (rewrite <- ?app_assoc; cbn [app]);
      rewrite ?app_nil_r; reflexivity.
Qed.

Lemma m_word i r k s :
  xorb (is_word (prev s)) (is_word (hd_error (rest s))) = true ->
  m i (Seq WordBoundary r) k s = m i r k s.
Proof. intros H. cbn [m]. rewrite H. reflexivity. Qed.

(** NAME at a name in quotation marks. *)
Lemma name_match pos0 n tail :
  ~ In quote n ->
  m true NAME Some
    {| pos := pos0; prev := Some 32;
       rest := str "name=" ++ [quote] ++ n ++ [quote] ++ tail; caps := [] |}
  = Some {| pos := pos0 + 5 + length n + 2; prev := Some quote; rest := tail;
            caps := [(1%nat, quote :: n ++ [quote]); (2%nat, n)] |}.
Proof.
  intros Hn. unfold NAME.
  rewrite m_word by reflexivity.
  rewrite (m_lit true _ Some (str "name=") (str "name=")
             {| pos := pos0; prev := Some 32;
                rest := str "name=" ++ [quote] ++ n ++ [quote] ++ tail;
                caps := [] |}
             ([quote] ++ n ++ [quote] ++ tail) eq_refl eq_refl).
  unfold after. change (length (str "name=")) with 5%nat.
  cbn [m app rest pos prev caps].
  rewrite Z.eqb_refl.
  rewrite (star_greedy_run (accepts true (only quote)) _ n (quote :: tail)
             {| pos := S (pos0 + 5); prev := Some quote;
                rest := n ++ quote :: tail; caps := [] |}).
  - unfold after. cbn [pos prev rest caps]. rewrite Z.eqb_refl.
    f_equal. f_equal; [lia|]. f_equal.
    + f_equal.
      replace (S (S (pos0 + 5) + length n) - (pos0 + 5))%nat
        with (S (length (n ++ [quote]))) by (rewrite length_app; cbn [length]; lia).
      cbn [firstn]. f_equal.
      change (quote :: tail) with ([quote] ++ tail).
      rewrite app_assoc, firstn_app, firstn_all, Nat.sub_diag.
      cbn [firstn]. rewrite app_nil_r. reflexivity.
    + f_equal. f_equal.
      replace (S (pos0 + 5) + length n - S (pos0 + 5))%nat
        with (length n) by lia.
      rewrite firstn_app, firstn_all, Nat.sub_diag. cbn [firstn].
      rewrite app_nil_r. reflexivity.
  - apply forallb_not_in. exact Hn.
  - unfold accepts, only. reflexivity.
  - unfold after. cbn [pos prev rest caps]. rewrite Z.eqb_refl. discriminate.
Qed.

(** The name in a content disposition that begins as the streamer
    begins it. *)
Lemma field_name_found n tail :
  n <> [] -> ~ In quote n ->
  _getFieldName
    (str "form-data; " ++ str "name=" ++ [quote] ++ n ++ [quote] ++ tail)
  = Some n.
Proof.
  intros Hn Hq. unfold _getFieldName, exec.
  rewrite (skip_to_key true (str "name") NAME (str "form-data; ")
             (str "name="));
    [|apply keyed_word|vm_compute; intuition lia|reflexivity
     |vm_compute; intuition lia].
  rewrite (search_here _ _ _ _ _ _ (name_match _ n tail Hq)).
  cbn [caps group Nat.eqb or_else]. destruct n; [congruence|reflexivity].
Qed.

(** X9. The name of a part comes back from the header that the
    streamer writes for it: [_getFieldName] reads, in the content
    disposition that [synthesize] puts on the part, the name that the
    part has, if the name is not empty and has no quotation mark
    in it. *)
Theorem field_name_is_read_back (p : Part.t) (n : list Z) :
  Part.name p = Some n ->
  n <> [] -> ~ In quote n ->
  exists v,
    In (str "Content-Disposition", v)
       (Part.headers (MultipartStreamer.synthesize p))
    /\ _getFieldName v = Some n.
Proof.
  intros Hp Hn Hq. exists (disposition p).
  split; [apply disposition_written; left; congruence|].
  unfold disposition. rewrite Hp.
  change (str "form-data" ++ (str "; " ++ ?x) ++ ?y)
    with (str "form-data; " ++ x ++ y).
  rewrite <- !app_assoc.
  apply field_name_found; assumption.
Qed.

(** FILENAME at a file name in quotation marks that ends the text. *)
Lemma filename_match pos0 f :
  ~ In quote f ->
  forallb (accepts true isLineTerminator) f = true ->
  m true FILENAME Some
    {| pos := pos0; prev := Some 32;
       rest := str "filename=" ++ [quote] ++ f ++ [quote]; caps := [] |}
  = Some {| pos := pos0 + 9 + length f + 2; prev := Some quote; rest := [];
            caps := [(4%nat, []); (1%nat, quote :: f ++ [quote]);
                     (2%nat, f)] |}.
Proof.
  intros Hq Hl. unfold FILENAME.
  rewrite m_word by reflexivity.
  rewrite (m_lit true _ Some (str "filename=") (str "filename=")
             {| pos := pos0; prev := Some 32;
                rest := str "filename=" ++ [quote] ++ f ++ [quote];
                caps := [] |}
             ([quote] ++ f ++ [quote]) eq_refl eq_refl).
  unfold after. change (length (str "filename=")) with 9%nat.
  cbn [m app rest pos prev caps].
  rewrite Z.eqb_refl.
  match goal with
  | |- match star false ?p ?k ?a ?b (f ++ [quote]) ?c with _ => _ end = _ =>
      destruct (star_lazy_run p k f [quote]
                  {| pos := a; prev := b; rest := f ++ [quote]; caps := c |}
                  Hl) as [H|H]
  end.
  - intros a1 c a2 E. unfold after. cbn [m pos prev rest caps].
    rewrite (canon_other true c quote) by (unfold quote; lia).
    destruct (Z.eqb_spec c quote) as [->|_]; [|reflexivity].
    exfalso. apply Hq. rewrite E. apply in_or_app. right. left. reflexivity.
  - cbn [pos prev caps] in H. rewrite H. clear H.
    unfold after. cbn [m pos prev rest caps]. rewrite Z.eqb_refl.
    f_equal. f_equal; [lia|]. f_equal; [|f_equal].
    + f_equal. cbn [length]. rewrite Nat.sub_diag. reflexivity.
    + f_equal.
      replace (S (S (pos0 + 9) + length f) - (pos0 + 9))%nat
        with (S (length (f ++ [quote])))
        by (rewrite length_app; cbn [length]; lia).
      cbn [firstn]. f_equal. apply firstn_all.
    + f_equal. f_equal.
      replace (S (pos0 + 9) + length f - S (pos0 + 9))%nat
        with (length f) by lia.
      rewrite firstn_app, firstn_all, Nat.sub_diag. cbn [firstn].
      apply app_nil_r.
  - exfalso. unfold after in H. cbn [m pos prev rest caps] in H.
    rewrite Z.eqb_refl in H. discriminate.
Qed.

Lemma slashes_plain s : ~ In backslash s -> slashes s = s.
Proof.
  induction s as [|c s IH]; intros H; [reflexivity|].
  cbn [slashes map]. fold (slashes s).
  rewrite IH by (intros H1; apply H; right; exact H1).
  destruct (Z.eqb_spec c backslash); [|reflexivity].
  exfalso. apply H. left. congruence.
Qed.

Lemma lastIndexOf_none c : forall s from,
  ~ In c s -> lastIndexOf_from from s c = -1.
Proof.
  induction s as [|x s IH]; intros from H; [reflexivity|].
  cbn [lastIndexOf_from].
  rewrite IH by (intros H1; apply H; right; exact H1).
  cbn. destruct (Z.eqb_spec x c); [|reflexivity].
  exfalso. apply H. left. exact e.
Qed.

Lemma lastIndexOf_last c base : forall d from,
  0 <= from -> ~ In c base ->
  lastIndexOf_from from (d ++ c :: base) c = from + Z.of_nat (length d).
Proof.
  induction d as [|x d IH]; intros from Hf Hb.
  - cbn [app lastIndexOf_from length]. rewrite lastIndexOf_none by exact Hb.
    cbn. rewrite Z.eqb_refl. lia.
  - cbn [app lastIndexOf_from]. rewrite IH by (try lia; exact Hb).
    destruct (Z.geb_spec (from + 1 + Z.of_nat (length d)) 0); [|lia].
    cbn [length]. lia.
Qed.

Lemma unescape22_plain : forall s, ~ In 37 s -> unescape22 s = s.
Proof.
  induction s as [|c s IH]; intros H; [reflexivity|].
  assert (Hc : (c =? 37) = false)
    by (apply Z.eqb_neq; intros ->; apply H; left; reflexivity).
  assert (Hs : unescape22 s = s)
    by (apply IH; intros H1; apply H; right; exact H1).
  cbn [unescape22]. rewrite Hc. cbn [andb]. fold unescape22.
  destruct s as [|c2 [|c3 s]]; rewrite ?Hs; reflexivity.
Qed.

Lemma unescape_entities_plain : forall s,
  ~ In 38 s -> unescape_entities s = s.
Proof.
  induction s as [|c s IH]; intros H; [reflexivity|].
  assert (Hc : (c =? 38) = false)
    by (apply Z.eqb_neq; intros ->; apply H; left; reflexivity).
  assert (Hs : unescape_entities s = s)
    by (apply IH; intros H1; apply H; right; exact H1).
  cbn [unescape_entities]. rewrite Hc. cbn [andb]. fold unescape_entities.
  destruct s as [|c2 [|d1 [|d2 [|d3 [|d4 [|c7 s]]]]]]; rewrite ?Hs;
    reflexivity.
Qed.

(** The file name that [_getFilename] makes of a path: the last segment
    of it. *)
Lemma last_segment dir base :
  dir = [] \/ (exists d sep, dir = d ++ [sep] /\ (sep = 47 \/ sep = backslash)) ->
  Forall (fun c => ~ In c [47; backslash; 37; 38]) base ->
  let filename := slashes (dir ++ base) in
  unescape_entities
    (unescape22 (substr filename (lastIndexOf filename 47 + 1)))
  = base.
Proof.
  intros Hd Hb.
  assert (Hn : forall c, In c [47; backslash; 37; 38] -> ~ In c base).
  { intros c Hc H. rewrite Forall_forall in Hb. exact (Hb c H Hc). }
  assert (H47 : ~ In 47 base) by (apply Hn; cbn; auto).
  assert (H92 : ~ In backslash base) by (apply Hn; cbn; auto).
  assert (H37 : ~ In 37 base) by (apply Hn; cbn; auto).
  assert (H38 : ~ In 38 base) by (apply Hn; cbn; auto).
  cbv zeta. unfold slashes at 1 2. rewrite map_app. fold (slashes dir).
  fold (slashes base). rewrite (slashes_plain base H92).
  assert (E : substr (slashes dir ++ base)
                (lastIndexOf (slashes dir ++ base) 47 + 1) = base).
  { destruct Hd as [->|(d & sep & -> & Hs)].
    - cbn [slashes map app]. unfold lastIndexOf.
      rewrite lastIndexOf_none by exact H47. reflexivity.
    - unfold slashes. rewrite map_app. cbn [map].
      replace (if sep =? backslash then 47 else sep) with 47
        by (destruct Hs as [->| ->]; reflexivity).
      rewrite <- app_assoc. cbn [app]. unfold lastIndexOf.
      rewrite lastIndexOf_last by (try lia; exact H47).
      unfold substr.
      replace (Z.to_nat (0 + Z.of_nat (length (map _ d)) + 1))
        with (length (map (fun c => if c =? backslash then 47 else c) d
                      ++ [47]))
        by (rewrite length_app; cbn [length]; lia).
      change (47 :: base) with ([47] ++ base). rewrite app_assoc.
      rewrite skipn_app, skipn_all, Nat.sub_diag. reflexivity. }
  rewrite E, (unescape22_plain base H37).
  apply unescape_entities_plain. exact H38.
Qed.

Lemma last_snoc {A : Type} (l : list A) (x d : A) : last (l ++ [x]) d = x.
Proof. apply last_last. Qed.

(** The search for the file name goes over the beginning of a content
    disposition with a name. *)
Lemma over_the_name n txt :
  search true FILENAME 0 None
    ((str "form-data; name=" ++ [quote]) ++ n ++ txt)
  = search true FILENAME 17 (Some quote) (n ++ txt).
Proof.
  rewrite search_skip; [reflexivity|].
  intros p1 c p2 E.
  repeat (destruct p1 as [|? p1];
          [injection E as <- <-; reflexivity|injection E as <- E]).
  destruct p1; discriminate.
Qed.

(** A content disposition with a name and nothing else has no file
    name. *)
Lemma filename_absent n :
  ~ In 61 n ->
  _getFilename (str "form-data; " ++ str "name=" ++ [quote] ++ n ++ [quote])
  = None.
Proof.
  intros Hn. unfold _getFilename, exec.
  change (str "form-data; " ++ str "name=" ++ [quote] ++ ?x)
    with ((str "form-data; name=" ++ [quote]) ++ x).
  rewrite over_the_name.
  rewrite (search_no_equals true (str "filename") FILENAME);
    [reflexivity|apply keyed_word|].
  intros H. apply in_app_or in H. destruct H as [H|H]; [tauto|].
  vm_compute in H. intuition lia.
Qed.

(** X10. The file name of a part comes back from the header that the
    streamer writes for it, without the directories: [_getFilename]
    reads, in the content disposition that [synthesize] puts on a part
    whose file name is a path, the last segment of the path, whether the
    segments end with slashes or with backslashes. *)
Theorem filename_is_read_back (p : Part.t) (dir base : list Z) :
  Part.filename p = Some (dir ++ base) ->
  (forall n, Part.name p = Some n -> ~ In 61 n) ->
  ~ In quote (dir ++ base) ->
  forallb (fun c => negb (isLineTerminator c)) (dir ++ base) = true ->
  dir = [] \/ (exists d sep, dir = d ++ [sep] /\ (sep = 47 \/ sep = backslash)) ->
  Forall (fun c => ~ In c [47; backslash; 37; 38]) base ->
  exists v,
    In (str "Content-Disposition", v)
       (Part.headers (MultipartStreamer.synthesize p))
    /\ _getFilename v = Some base.
Proof.
  intros Hf Hn Hq Hl Hd Hb. exists (disposition p).
  split; [apply disposition_written; right; congruence|].
  unfold disposition. rewrite Hf.
  assert (Hs : exists pos0,
    search true FILENAME 0 None
      (str "form-data"
       ++ match Part.name p with
          | Some n => str "; " ++ str "name=" ++ [quote] ++ n ++ [quote]
          | None => []
          end
       ++ str "; " ++ str "filename=" ++ [quote] ++ (dir ++ base) ++ [quote])
    = search true FILENAME pos0 (Some 32)
        (str "filename=" ++ [quote] ++ (dir ++ base) ++ [quote])).
  { destruct (Part.name p) as [n|].
    - specialize (Hn n eq_refl).
      change (str "form-data" ++ (str "; " ++ str "name=" ++ [quote] ++ ?x)
              ++ ?y)
        with ((str "form-data; name=" ++ [quote]) ++ x ++ y).
      rewrite over_the_name, <- app_assoc.
      change ([quote] ++ str "; " ++ ?x) with ((quote :: str "; ") ++ x).
      rewrite app_assoc.
      rewrite (skip_to_key true (str "filename") FILENAME
                 (n ++ quote :: str "; ") (str "filename="));
        [|apply keyed_word| |reflexivity|vm_compute; intuition lia].
      * eexists. f_equal.
        change (quote :: str "; ") with ([quote; 59] ++ [32]).
        rewrite app_assoc, map_app. apply last_snoc.
      * intros H. apply in_app_or in H. destruct H as [H|H]; [tauto|].
        vm_compute in H. intuition lia.
    - cbn [app].
      change (str "form-data" ++ str "; " ++ ?x)
        with (str "form-data; " ++ x).
      rewrite (skip_to_key true (str "filename") FILENAME
                 (str "form-data; ") (str "filename="));
        [|apply keyed_word|vm_compute; intuition lia|reflexivity
         |vm_compute; intuition lia].
      eexists. reflexivity. }
  destruct Hs as [pos0 Hs]. unfold _getFilename, exec. rewrite Hs.
  rewrite (search_here _ _ _ _ _ _ (filename_match pos0 (dir ++ base) Hq Hl)).
  cbn [caps group Nat.eqb].
  replace (or_else None (or_else (Some (dir ++ base)) (Some [])))
    with (Some (dir ++ base)) by (destruct (dir ++ base); reflexivity).
  f_equal. apply (last_segment dir base Hd Hb).
Qed.

End RegExpFacts.

Lemma boundary_is_extracted_witness :
  MultipartParserStatic._getBoundary
    (str "multipart/form-data; " ++ str "boundary="
     ++ str "abc" ++ str "; charset=utf-8")
  = Some (str "abc")
  /\ MultipartParserStatic._getBoundary
       (str "multipart/mixed; " ++ str "BOUNDARY="
        ++ [REGEXP.quote] ++ str "a;b" ++ [REGEXP.quote] ++ [])
     = Some (str "a;b").
Proof.
  split.
  - apply (boundary_is_extracted false (str "multipart/form-data; ")
             (str "boundary=") (str "abc") (str "; charset=utf-8")).
    + vm_compute. intuition lia.
    + reflexivity.
    + discriminate.
    + split; [vm_compute; intuition lia|].
      split; [discriminate|reflexivity].
  - apply (boundary_is_extracted true (str "multipart/mixed; ")
             (str "BOUNDARY=") (str "a;b") []).
    + vm_compute. intuition lia.
    + reflexivity.
    + discriminate.
    + vm_compute. intuition lia.
Defined.

Lemma field_name_is_read_back_witness :
  exists v,
    In (str "Content-Disposition", v)
       (Part.headers (MultipartStreamer.synthesize Midway.upload))
    /\ MultipartParserStatic._getFieldName v = Some (str "file").
Proof.
  apply (field_name_is_read_back Midway.upload (str "file")).
  - reflexivity.
  - discriminate.
  - vm_compute. intuition lia.
Defined.

Lemma filename_is_read_back_witness :
  exists v,
    In (str "Content-Disposition", v)
       (Part.headers (MultipartStreamer.synthesize Midway.upload))
    /\ MultipartParserStatic._getFilename v = Some (str "a.txt").
Proof.
  apply (filename_is_read_back Midway.upload
           (str "C:" ++ [92] ++ str "docs" ++ [92]) (str "a.txt")).
  - reflexivity.
  - intros n H. injection H as <-. vm_compute. intuition lia.
  - vm_compute. intuition lia.
  - reflexivity.
  - right. exists (str "C:" ++ [92] ++ str "docs"), 92.
    split; [reflexivity|right; reflexivity].
  - repeat constructor; vm_compute; intuition lia.
Defined.

(** ** From the streamer to the scanner *)

Section Streamed.
Import MultipartStreamer.

Lemma binary_app a b : binary (a ++ b) = binary a ++ binary b.
Proof. apply map_app. Qed.

Lemma binary_bytes s : bytes_only s -> binary s = s.
Proof.
  induction 1 as [|c s Hc _ IH]; [reflexivity|].
  cbn [binary map]. fold (binary s). rewrite IH. f_equal.
  change 255 with (Z.ones 8). rewrite Z.land_ones by lia.
  apply Z.mod_small. exact Hc.
Qed.

Lemma bytes_only_app a b : bytes_only a -> bytes_only b -> bytes_only (a ++ b).
Proof. intros Ha Hb. apply Forall_app. split; assumption. Qed.

Lemma name_byte_is_byte c :
  MultipartByteParser.name_byte (Some c) = true -> 0 <= c < 256.
Proof.
  unfold MultipartByteParser.name_byte. cbn.
  intros H. apply orb_prop in H. destruct H as [H|H].
  - unfold inRange, CHARS.lower, CHARS.A, CHARS.Z_ in H.
    apply andb_prop in H. destruct H as [H1 H2].
    apply Z.leb_le in H1. apply Z.ltb_lt in H2.
    assert (Hc : 0 <= c) by (apply (Z.lor_nonneg c 32); lia).
    destruct (Z.eq_dec c 0) as [->|Hz]; [lia|].
    assert (Hl : Z.log2 (Z.lor c 32) < 7)
      by (apply Z.log2_lt_pow2; lia).
    rewrite Z.log2_lor in Hl by lia.
    assert (c < 2 ^ 7) by (apply Z.log2_lt_pow2; lia).
    lia.
  - unfold CHARS.HYPHEN in H. apply Z.eqb_eq in H. lia.
Qed.

Lemma reduce_lines : forall hs acc,
  fold_left (fun reduced kv => REDUCER reduced (snd kv) (fst kv)) hs acc
  = acc ++ flat_map header_line hs.
Proof.
  induction hs as [|h hs IH]; intros acc; cbn [fold_left flat_map].
  - rewrite app_nil_r. reflexivity.
  - rewrite IH. unfold REDUCER, header_line.
    rewrite <- !app_assoc. reflexivity.
Qed.

Lemma header_line_bytes h :
  name_ok (fst h) -> bytes_only (snd h) -> bytes_only (header_line h).
Proof.
  intros [_ Hn] Hv. unfold header_line.
  repeat apply bytes_only_app; try exact Hv.
  - eapply Forall_impl; [|exact Hn]. intros c. apply name_byte_is_byte.
  - repeat constructor; lia.
  - repeat constructor; lia.
Qed.

Lemma lines_bytes hs :
  Forall (fun h => name_ok (fst h) /\ bytes_only (snd h)) hs ->
  bytes_only (flat_map header_line hs).
Proof.
  induction 1 as [|h hs [Hn Hv] _ IH]; [constructor|].
  cbn [flat_map]. apply bytes_only_app; [|exact IH].
  apply header_line_bytes; assumption.
Qed.

Lemma message_of_cons b p ps :
  message_of b (p :: ps) = part_block b p ++ message_of b ps.
Proof.
  unfold message_of. cbn [flat_map]. rewrite <- app_assoc. reflexivity.
Qed.

(** What [_setup] gives is the message of the parts, if the boundary and
    the headers have no characters but bytes. *)
Lemma setup_message b : forall ps,
  bytes_only b ->
  Forall (fun p => Forall (fun h => name_ok (fst h) /\ bytes_only (snd h))
                     (fst (wire_of p))) ps ->
  snd (handlePart b ps) = message_of b (map wire_of ps).
Proof.
  intros ps Hb. induction 1 as [|p ps Hp _ IH].
  - cbn [handlePart snd map]. unfold message_of. cbn [flat_map app].
    rewrite binary_bytes; [reflexivity|].
    repeat apply bytes_only_app; try exact Hb; repeat constructor; lia.
  - cbn [handlePart map]. destruct (handlePart b ps) as [ps' out].
    cbn [snd] in IH |- *. rewrite IH, message_of_cons.
    unfold part_block, wire_of at 1 2. cbn [fst snd].
    unfold reduce. rewrite reduce_lines. cbn [app].
    change (str Sample.CRLF) with CRLF.
    rewrite !binary_bytes.
    + repeat (rewrite <- ?app_assoc; cbn [app]). reflexivity.
    + repeat constructor; lia.
    + repeat apply bytes_only_app; try exact Hb;
        try (repeat constructor; lia).
      apply lines_bytes. exact Hp.
Qed.

End Streamed.

(** The scanner on what [_setup] gives. *)
Lemma setup_scanned (this : MultipartStreamer.t) :
  ascii_only (MultipartStreamer.boundary this) ->
  Forall (fun p => part_ok (wire_of p)
                   /\ Forall (fun h => bytes_only (snd h)) (fst (wire_of p)))
    (MultipartStreamer.parts this) ->
  exists bp,
    MultipartByteParser._transform
      (MultipartByteParser.new (MultipartStreamer.boundary this))
      (snd (MultipartStreamer._setup this))
    = Some (bp,
            events_of_message
              (map (fun p => part_events_of (wire_of p))
                 (MultipartStreamer.parts this)),
            None)
    /\ MultipartByteParserState.state (MultipartByteParser._state bp)
       = MultipartByteParserState.STATES.END
    /\ MultipartByteParserState.hasErrored (MultipartByteParser._state bp)
       = false
    /\ MultipartByteParser.boundary bp
       = MultipartByteParser.boundary
           (MultipartByteParser.new (MultipartStreamer.boundary this))
    /\ MultipartByteParser.finish bp = (bp, MultipartByteParser.end_).
Proof.
  intros Hb Hps.
  assert (Hs : snd (MultipartStreamer._setup this)
               = message_of (MultipartStreamer.boundary this)
                   (map wire_of (MultipartStreamer.parts this))).
  { unfold MultipartStreamer._setup.
    rewrite <- (setup_message _ (MultipartStreamer.parts this)
                  (ascii_only_str_bytes _ Hb)).
    - destruct (MultipartStreamer.handlePart _ _). reflexivity.
    - eapply Forall_impl; [|exact Hps]. cbv beta.
      intros p [[Hh _] Hv]. rewrite Forall_forall in Hh, Hv |- *.
      intros h Hin. split; [apply (Hh h Hin)|apply (Hv h Hin)]. }
  rewrite Hs, <- (map_map wire_of part_events_of).
  apply message_scanned; [exact Hb|].
  apply Forall_map. eapply Forall_impl; [|exact Hps].
  cbv beta. intros p [H _]. exact H.
Qed.

(** X11. What the streamer writes, the scanner reads: with a boundary
    of ASCII characters, the bytes that [_setup] gives for parts whose
    headers, as [synthesize] leaves them, have names that the scanner
    takes and values of bytes that do not begin with a space, and whose
    bodies and header values have no carriage return, are scanned in one
    chunk into the events of these parts, one after the other with their
    headers and bodies, and the scanner ends in the state END. *)
Theorem streamed_message_is_scanned (this : MultipartStreamer.t) :
  ascii_only (MultipartStreamer.boundary this) ->
  Forall (fun p => part_ok (wire_of p)
                   /\ Forall (fun h => bytes_only (snd h)) (fst (wire_of p)))
    (MultipartStreamer.parts this) ->
  exists bp,
    MultipartByteParser._transform
      (MultipartByteParser.new (MultipartStreamer.boundary this))
      (snd (MultipartStreamer._setup this))
    = Some (bp,
            events_of_message
              (map (fun p => part_events_of (wire_of p))
                 (MultipartStreamer.parts this)),
            None)
    /\ MultipartByteParserState.state (MultipartByteParser._state bp)
       = MultipartByteParserState.STATES.END
    /\ MultipartByteParserState.hasErrored (MultipartByteParser._state bp)
       = false
    /\ MultipartByteParser.finish bp = (bp, MultipartByteParser.end_).
Proof.
  intros Hb Hps.
  destruct (setup_scanned this Hb Hps) as (bp & H1 & H2 & H3 & _ & H4).
  exists bp. auto.
Qed.

Lemma streamed_message_is_scanned_witness :
  exists bp,
    MultipartByteParser._transform
      (MultipartByteParser.new (MultipartStreamer.boundary Midway.outbox))
      (snd (MultipartStreamer._setup Midway.outbox))
    = Some (bp,
            events_of_message
              (map (fun p => part_events_of (wire_of p))
                 (MultipartStreamer.parts Midway.outbox)),
            None)
    /\ MultipartByteParserState.state (MultipartByteParser._state bp)
       = MultipartByteParserState.STATES.END
    /\ MultipartByteParserState.hasErrored (MultipartByteParser._state bp)
       = false
    /\ MultipartByteParser.finish bp = (bp, MultipartByteParser.end_).
Proof.
  apply (streamed_message_is_scanned Midway.outbox).
  - repeat constructor; vm_compute; discriminate.
  - repeat constructor; try discriminate; vm_compute; discriminate.
Defined.

(** ** Fields, from the streamer to the assembler *)

Section FieldsRoundTrip.
Import MultipartParser.

Variable toLowerCase : list Z -> list Z.
Variable toString : json -> list Z.
Variable base64 : list Z -> Buffer.
Variable JSON_parse : list Z -> option json.

(** On a text of ASCII characters [toLowerCase] makes the letters A to Z
    small and leaves the rest. *)
Hypothesis toLowerCase_ascii :
  forall s, ascii_only s -> toLowerCase s = ascii_lower s.

Let on_ :=
  on toLowerCase MultipartParserStatic._getFieldName
    MultipartParserStatic._getFilename MultipartParserStatic._getContentId
    base64.
Let dispatch_ :=
  dispatch toLowerCase MultipartParserStatic._getFieldName
    MultipartParserStatic._getFilename MultipartParserStatic._getContentId
    base64.
Let turn_ :=
  turn toLowerCase MultipartParserStatic._getFieldName
    MultipartParserStatic._getFilename MultipartParserStatic._getContentId
    base64 JSON_parse.

(** The part that [addFieldPart] makes, and what is written of it. *)
Let field_part (f : list Z * json) : Part.t :=
  MultipartStreamer.fed
    (Part.new
       {| Part.o_type := Some Part.TYPES.FIELD; Part.o_value := snd f;
          Part.o_name := Some (fst f); Part.o_filename := None;
          Part.o_transferEncoding := None; Part.o_contentType := None;
          Part.o_contentId := None; Part.o_headers := None |})
    [utf8 (toString (snd f))].

Let field_value (n : list Z) : list Z :=
  str "form-data; " ++ str "name=" ++ [34] ++ n ++ [34].

Lemma addFieldParts_parts : forall fields this,
  Forall (fun f => snd f <> JNull) fields ->
  addFieldParts toString this fields
  = Ok {| MultipartStreamer.boundary := MultipartStreamer.boundary this;
          MultipartStreamer.parts :=
            MultipartStreamer.parts this ++ map field_part fields |}.
Proof.
  induction fields as [|[n v] fields IH]; intros this Hv.
  - cbn [addFieldParts map]. rewrite app_nil_r. destruct this. reflexivity.
  - inversion Hv as [|? ? Hv1 Hv2]; subst. cbn [snd] in Hv1.
    cbn [addFieldParts MultipartStreamer.addFieldPart].
    destruct v; try congruence; rewrite IH by exact Hv2;
      unfold MultipartStreamer.push;
      cbn [MultipartStreamer.boundary MultipartStreamer.parts map];
      rewrite <- app_assoc; reflexivity.
Qed.

Lemma wire_of_field f :
  fst f <> [] -> ascii_only (toString (snd f)) ->
  wire_of (field_part f)
  = ([(str "Content-Disposition", field_value (fst f))], toString (snd f)).
Proof.
  destruct f as [n v]. cbn [fst snd]. intros Hn Ha.
  destruct n as [|c n]; [congruence|].
  unfold wire_of, field_part, field_value. cbn [fst snd].
  unfold MultipartStreamer.fed, MultipartStreamer.synthesize, Part.new.
  cbn -[str utf8]. rewrite app_nil_r, utf8_ascii by exact Ha. reflexivity.
Qed.

Lemma no_CR_app (a b : list Z) :
  Forall (fun c => c <> CHARS.CR) a -> Forall (fun c => c <> CHARS.CR) b ->
  Forall (fun c => c <> CHARS.CR) (a ++ b).
Proof. intros Ha Hb. apply Forall_app. split; assumption. Qed.

Lemma field_value_ascii n : ascii_only n -> ascii_only (field_value n).
Proof.
  intros Hn. unfold field_value.
  repeat apply ascii_only_app; try exact Hn; repeat constructor; lia.
Qed.

(** The part state after the content disposition of a field. *)
Let field_state (n : list Z) : PartState :=
  {| name := Some n; filename := None; contentId := None;
     contentType := None; transferEncoding := str "binary";
     headers := [(str "Content-Disposition", field_value n)];
     _headerName := Some []; partSize := None; tmp := None |}.

Lemma field_headers this n :
  _error this = false ->
  len (parts this) < maxParts this - 1 ->
  n <> [] -> ascii_only n -> ~ In 34 n -> ~ In 61 n ->
  dispatch_ this
    [MultipartByteParser.partBegin;
     MultipartByteParser.headerName (str "Content-Disposition");
     MultipartByteParser.headerValue (field_value n)]
  = Ok (set_curPartState this (Some (field_state n)), []).
Proof.
  intros He Hl Hn Ha Hq Heq.
  unfold dispatch_. rewrite dispatch_cons. fold on_ dispatch_.
  unfold on_ at 1, on, wrapInErrorChecker, _onPartBegin.
  rewrite He. cbn [negb].
  destruct (Z.geb_spec (len (parts this)) (maxParts this - 1)); [lia|].
  unfold dispatch_. rewrite dispatch_cons. fold on_ dispatch_.
  unfold on_ at 1, on, wrapInErrorChecker, _onHeaderName.
  cbn [_error _curPartState set_curPartState]. rewrite He. cbn [negb].
  unfold dispatch_. rewrite dispatch_cons. fold on_ dispatch_.
  unfold on_ at 1, on, wrapInErrorChecker, _onHeaderValue.
  cbn [_error _curPartState set_curPartState _headerName]. rewrite He.
  cbn [negb].
  assert (Hcd : ascii_only (str "Content-Disposition"))
    by (repeat constructor; lia).
  rewrite (toString_utf8_ascii _ Hcd), (toLowerCase_ascii _ Hcd).
  change (list_eqb (ascii_lower (str "Content-Disposition"))
            (str "content-disposition")) with true.
  cbv iota. rewrite (toString_utf8_ascii _ (field_value_ascii n Ha)).
  pose proof (field_name_found n [] Hn Hq) as H1.
  rewrite app_nil_r in H1. fold (field_value n) in H1.
  pose proof (filename_absent n Heq) as H2. fold (field_value n) in H2.
  unfold REGEXP.quote in H1, H2. fold (field_value n) in H1, H2.
  rewrite H1, H2.
  cbn [dispatch app name filename contentId contentType transferEncoding
       headers _headerName partSize tmp assign].
  reflexivity.
Qed.

(** A field as the assembler has it when its part has ended, and what
    the listeners have of it in the end. *)
Let taken_field (f : list Z * json) : Part.t :=
  completed
    (written_to (part_of (field_state (fst f)))
       match toString (snd f) with
       | [] => []
       | _ => [toString (snd f)]
       end)
    JNull.

Let read_back (f : list Z * json) (q : Part.t) : Prop :=
  Part.type q = Part.TYPES.FIELD
  /\ Part.name q = Some (fst f)
  /\ Part.filename q = None
  /\ Part.value q = JString (toString (snd f))
  /\ Part.ended q = true.

Let field_events (f : list Z * json) : part_events :=
  part_events_of
    ([(str "Content-Disposition", field_value (fst f))], toString (snd f)).

Lemma field_taken this f :
  _error this = false ->
  len (parts this) < maxParts this - 1 ->
  plain_name (fst f) ->
  len (toString (snd f)) <= maxPartSize this ->
  _totalSize this + len (toString (snd f)) <= maxTotalSize this ->
  exists this',
    dispatch_ this (events_of_part (field_events f)) = Ok (this', [])
    /\ _error this' = false
    /\ maxParts this' = maxParts this
    /\ maxPartSize this' = maxPartSize this
    /\ maxTotalSize this' = maxTotalSize this
    /\ _totalSize this' = _totalSize this + len (toString (snd f))
    /\ ending this' = ending this ++ [length (parts this)]
    /\ parts this' = parts this ++ [taken_field f].
Proof.
  destruct f as [n v]. cbn [fst snd].
  intros He Hl (Hn & Ha & Hq & Heq & _) H1 H2.
  unfold field_events, part_events_of, events_of_part.
  cbn [fst snd pe_headers pe_data flat_map header_events app].
  change (MultipartByteParser.partBegin
          :: MultipartByteParser.headerName ?k
          :: MultipartByteParser.headerValue ?x :: ?l)
    with ([MultipartByteParser.partBegin; MultipartByteParser.headerName k;
           MultipartByteParser.headerValue x] ++ l).
  unfold dispatch_. rewrite dispatch_app. fold dispatch_.
  rewrite (field_headers this n He Hl Hn Ha Hq Heq).
  unfold taken_field. cbn [fst snd].
  match goal with
  | |- context [map MultipartByteParser.partData ?c] => set (chunks := c)
  end.
  assert (Hc : concat chunks = toString v).
  { subst chunks. destruct (toString v); [reflexivity|].
    cbn [concat]. apply app_nil_r. }
  assert (Hfield : Part.TYPES.eqb (Part.type (part_of (field_state n)))
                     Part.TYPES.STREAM = false).
  { unfold part_of, field_state, Part.new.
    cbn [Part.type Part.o_type Part.o_name Part.o_filename
         Part.o_contentType name filename contentType]. reflexivity. }
  destruct (part_assembled toLowerCase MultipartParserStatic._getFieldName
              MultipartParserStatic._getFilename
              MultipartParserStatic._getContentId base64 JSON_parse
              (set_curPartState this (Some (field_state n)))
              (field_state n) chunks)
    as (this1 & this2 & Hd & Hq1 & He1 & Hm1 & Hm2 & Hm3 & Ht1 & Hp1 & _);
    try reflexivity; try exact He; rewrite ?Hc; try assumption.
  fold dispatch_ in Hd. rewrite Hd. rewrite Hfield in *.
  cbn [parts set_curPartState _totalSize maxParts maxPartSize maxTotalSize
       ending] in *.
  rewrite Hc in Ht1.
  exists this1. cbn [app]. split; [reflexivity|].
  repeat (split; [assumption|]). exact Hp1.
Qed.

Lemma fields_taken : forall fields this,
  _error this = false ->
  len (parts this) + len fields <= maxParts this - 1 ->
  Forall (fun f => plain_name (fst f)
                   /\ len (toString (snd f)) <= maxPartSize this) fields ->
  _totalSize this + len (concat (map (fun f => toString (snd f)) fields))
  <= maxTotalSize this ->
  exists this',
    dispatch_ this (events_of_message (map field_events fields))
    = Ok (this', [])
    /\ _error this' = false
    /\ ending this'
       = ending this ++ seq (length (parts this)) (length fields)
    /\ parts this' = parts this ++ map taken_field fields.
Proof.
  induction fields as [|f fields IH]; intros this He Hl Hf Ht.
  - exists this. cbn. rewrite !app_nil_r. auto.
  - apply Forall_cons_iff in Hf. destruct Hf as [[Hn Hs] Hf].
    cbn [map concat] in Ht. rewrite len_app in Ht. rewrite len_cons in Hl.
    pose proof (len_nonneg fields).
    pose proof (len_nonneg (toString (snd f))).
    pose proof (len_nonneg
                  (concat (map (fun f => toString (snd f)) fields))).
    destruct (field_taken this f He) as
      (this1 & Hd & He1 & Hm1 & Hm2 & Hm3 & Ht1 & Hq1 & Hp1);
      try assumption; try lia.
    destruct (IH this1) as (this' & Hd' & He' & Hq' & Hp').
    + exact He1.
    + rewrite Hp1, len_app, Hm1. cbn. lia.
    + rewrite Hm2. exact Hf.
    + rewrite Ht1, Hm3. lia.
    + exists this'.
      unfold events_of_message. cbn [map flat_map].
      unfold dispatch_. rewrite dispatch_app. fold dispatch_.
      rewrite Hd. fold (events_of_message (map field_events fields)).
      rewrite Hd'. split; [reflexivity|]. split; [exact He'|]. split.
      * rewrite Hq', Hq1, Hp1, length_app, <- app_assoc. cbn [length seq app].
        rewrite Nat.add_1_r. reflexivity.
      * rewrite Hp', Hp1, <- app_assoc. reflexivity.
Qed.

(** The field part [q] with its value set by its listener of
    ['end']. *)
Let valued (q : Part.t) : Part.t :=
  Part.set_value q (JString (toString_utf8 (concat (Part.written q)))).

(** The ['end']s of field parts, one after the other. *)
Lemma ends_of_fields : forall qs done this,
  parts this = done ++ qs ->
  Forall (fun q => Part.type q = Part.TYPES.FIELD) qs ->
  ends JSON_parse this (seq (length done) (length qs))
  = (set_parts this (done ++ map valued qs),
     map part (seq (length done) (length qs))).
Proof.
  induction qs as [|q qs IH]; intros done this Hp Hf.
  - cbn [length seq ends map]. rewrite <- Hp. destruct this. reflexivity.
  - inversion Hf as [|? ? Hq Hqs]; subst.
    cbn [length seq ends]. unfold on_end. rewrite Hp.
    rewrite nth_error_app2 by lia. rewrite Nat.sub_diag.
    cbn [nth_error]. rewrite Hq.
    assert (Hrep : replace_nth (done ++ q :: qs) (length done) (valued q)
                   = (done ++ [valued q]) ++ qs).
    { clear. induction done as [|x l IHl]; [reflexivity|].
      cbn. rewrite IHl. reflexivity. }
    unfold set_part. rewrite Hp. fold (valued q). rewrite Hrep.
    specialize (IH (done ++ [valued q])
                  (set_parts this ((done ++ [valued q]) ++ qs))
                  eq_refl Hqs).
    rewrite length_app in IH. cbn [length] in IH.
    rewrite Nat.add_1_r in IH. rewrite IH.
    rewrite <- (app_assoc done [valued q] (map valued qs)).
    cbn [map app]. reflexivity.
Qed.

Lemma field_read_back f :
  fst f <> [] -> ascii_only (toString (snd f)) ->
  read_back f (valued (taken_field f)).
Proof.
  destruct f as [n v]. cbn [fst snd]. intros Hn Ha.
  destruct n as [|c n]; [congruence|].
  unfold read_back. cbn [fst snd].
  split; [reflexivity|]. split; [reflexivity|]. split; [reflexivity|].
  split; [|reflexivity].
  unfold valued, taken_field. cbn [fst snd].
  unfold completed at 1, Part.set_value. cbn [Part.value].
  f_equal. unfold completed, written_to. cbn [Part.written].
  change (Part.written (part_of (field_state (c :: n)))) with (@nil Buffer).
  cbn [app].
  destruct (toString v) eqn:Es; [reflexivity|].
  cbn [concat]. rewrite app_nil_r. rewrite <- Es in *.
  apply toString_utf8_ascii. exact Ha.
Qed.

(** X12. Fields go from the streamer to the assembler and come back:
    the bytes that the streamer gives for fields added with
    [addFieldPart], written in one chunk to an assembler with the same
    boundary, make the assembler give out one part for each field, in
    order and without an error, on the turn of the event loop that
    follows the write; each part is a field with the name of its field
    and the text of its value as value.  The boundary, the names and the
    texts are made of ASCII characters, so that a text has as many bytes
    as characters; the names are plain, no value is [null], the texts have
    no carriage return, and the number of the fields and the sizes of the
    texts keep within the limits of the assembler. *)
Theorem fields_round_trip (b uuid : list Z) (fields : list (list Z * json))
    (o_maxParts o_maxPartSize o_maxTotalSize : option Z) :
  let decoder :=
    MultipartParser.new o_maxParts o_maxPartSize o_maxTotalSize b in
  b <> [] -> ascii_only b ->
  Forall (fun f => plain_name (fst f)
                   /\ snd f <> JNull
                   /\ ascii_only (toString (snd f))
                   /\ Forall (fun c => c <> CHARS.CR) (toString (snd f))
                   /\ len (toString (snd f)) <= maxPartSize decoder)
    fields ->
  len fields <= maxParts decoder - 1 ->
  len (concat (map (fun f => toString (snd f)) fields))
  <= maxTotalSize decoder ->
  exists streamer decoder',
    addFieldParts toString (MultipartStreamer.new (Some b) uuid) fields
    = Ok streamer
    /\ turn_ decoder (snd (MultipartStreamer._setup streamer))
       = Ok (decoder', map part (seq 0 (length fields)))
    /\ _error decoder' = false
    /\ Forall2 read_back fields (parts decoder').
Proof.
  intros decoder Hb Hascii Hf Hl Ht.
  rewrite addFieldParts_parts.
  2:{ eapply Forall_impl; [|exact Hf]. cbv beta. intros f H. apply H. }
  assert (Hbd : MultipartStreamer.boundary (MultipartStreamer.new (Some b) uuid)
                = b).
  { destruct b; [congruence|reflexivity]. }
  assert (Hps : MultipartStreamer.parts (MultipartStreamer.new (Some b) uuid)
                = []) by reflexivity.
  rewrite Hbd, Hps. cbn [app].
  set (streamer := {| MultipartStreamer.boundary := b;
                      MultipartStreamer.parts := map field_part fields |}).
  exists streamer.
  assert (Hne : forall f, In f fields ->
                          fst f <> [] /\ ascii_only (toString (snd f))).
  { intros f Hin. rewrite Forall_forall in Hf.
    destruct (Hf f Hin) as [[Hn _] [_ [Ha _]]]. auto. }
  assert (Hw : map (fun p => part_events_of (wire_of p))
                 (MultipartStreamer.parts streamer)
               = map field_events fields).
  { subst streamer. cbn [MultipartStreamer.parts]. rewrite map_map.
    apply map_ext_in. intros f Hin. unfold field_events.
    destruct (Hne f Hin) as [Hn Ha].
    rewrite wire_of_field by assumption. reflexivity. }
  destruct (setup_scanned streamer) as (bp & Hbp & _ & Hbe & _).
  { exact Hascii. }
  { subst streamer. cbn [MultipartStreamer.parts]. apply Forall_map.
    eapply Forall_impl; [|exact Hf]. cbv beta.
    intros f [(Hn & Hnb & Hq & Heq & Hcr) [_ [Ha [Hcrb _]]]].
    rewrite wire_of_field by assumption. cbn [fst snd].
    assert (Hv : bytes_only (field_value (fst f))).
    { apply ascii_only_str_bytes, field_value_ascii. exact Hnb. }
    split; [split|].
    - constructor; [|constructor]. cbn [fst snd]. split.
      + split; [discriminate|]. repeat constructor.
      + split; [discriminate|]. split; [discriminate|].
        unfold field_value.
        assert (Hc : Forall (fun c => c <> CHARS.CR) (fst f)).
        { rewrite Forall_forall. intros c Hc ->. exact (Hcr Hc). }
        repeat apply no_CR_app; try exact Hc;
          repeat constructor; discriminate.
    - exact Hcrb.
    - constructor; [exact Hv|constructor]. }
  rewrite Hw in Hbp.
  destruct (fields_taken fields decoder) as (d' & Hd & He & Hq & Hp).
  { reflexivity. }
  { cbn [parts decoder MultipartParser.new]. change (len (@nil Part.t)) with 0.
    lia. }
  { eapply Forall_impl; [|exact Hf]. cbv beta. intros f (Hn & _ & _ & _ & Hs).
    split; assumption. }
  { cbn [_totalSize decoder MultipartParser.new]. lia. }
  change (ending decoder) with (@nil nat) in Hq.
  change (parts decoder) with (@nil Part.t) in Hq, Hp.
  cbn [app length] in Hq, Hp.
  exists (set_parts (set_ending (set_byteParser d' (Some bp)) [])
            (map valued (map taken_field fields))).
  split; [reflexivity|].
  unfold turn_, turn, _write.
  assert (Hbp0 : _byteParser decoder = Some (MultipartByteParser.new b)).
  { subst decoder. cbn [_byteParser MultipartParser.new].
    destruct b; [congruence|reflexivity]. }
  rewrite Hbp0.
  change (_error decoder) with false. cbv iota.
  change (MultipartStreamer.boundary streamer) with b in Hbp.
  rewrite Hbp. fold dispatch_. rewrite Hd. rewrite He.
  rewrite app_nil_r. unfold later.
  cbn [ending set_byteParser]. rewrite Hq.
  pose proof (ends_of_fields (map taken_field fields) []
                (set_ending (set_byteParser d' (Some bp)) [])) as Hends.
  cbn [length app parts set_ending set_byteParser] in Hends.
  rewrite length_map in Hends. rewrite Hends.
  2:{ exact Hp. }
  2:{ apply Forall_map. rewrite Forall_forall. intros f Hin.
      destruct (Hne f Hin) as [Hn _].
      unfold taken_field, completed, written_to, part_of, field_state,
        Part.new.
      cbn [Part.type Part.o_type Part.o_name Part.o_filename
           Part.o_contentType name filename contentType]. reflexivity. }
  cbn [app]. split; [reflexivity|].
  split; [exact He|].
  cbn [parts set_parts]. rewrite map_map.
  clear - Hne.
  induction fields as [|f fields IH]; [constructor|].
  cbn [map]. constructor.
  - destruct (Hne f (or_introl eq_refl)) as [Hn Ha].
    apply field_read_back; assumption.
  - apply IH. intros g Hin. apply Hne. right. exact Hin.
Qed.

End FieldsRoundTrip.

Lemma fields_round_trip_witness :
  exists streamer decoder',
    addFieldParts Midway.text_of
      (MultipartStreamer.new (Some (str "B")) (str "uuid")) Midway.greetings
    = Ok streamer
    /\ MultipartParser.turn Sample.toLowerCase
         MultipartParserStatic._getFieldName
         MultipartParserStatic._getFilename
         MultipartParserStatic._getContentId Sample.base64 Sample.JSON_parse
         (MultipartParser.new None None None (str "B"))
         (snd (MultipartStreamer._setup streamer))
       = Ok (decoder',
             map MultipartParser.part (seq 0 (length Midway.greetings)))
    /\ MultipartParser._error decoder' = false
    /\ Forall2
         (fun f q =>
            Part.type q = Part.TYPES.FIELD
            /\ Part.name q = Some (fst f)
            /\ Part.filename q = None
            /\ Part.value q = JString (Midway.text_of (snd f))
            /\ Part.ended q = true)
         Midway.greetings (MultipartParser.parts decoder').
Proof.
  apply (fields_round_trip Sample.toLowerCase Midway.text_of Sample.base64
           Sample.JSON_parse (fun s _ => eq_refl)
           (str "B") (str "uuid") Midway.greetings None None None).
  - discriminate.
  - repeat constructor; vm_compute; discriminate.
  - repeat constructor; try discriminate; vm_compute; intuition lia.
  - vm_compute. discriminate.
  - vm_compute. discriminate.
Defined.
